(** * Salary Summary Visualizer ([app.py]): a Rocq model and its properties

    The application loads a table of per-department salary summaries
    (average, minimum, maximum), checks its columns, filters and sorts it,
    draws a horizontal bar chart with asymmetric error bars and optionally
    simulates per-department samples from a triangular distribution.

    Modelling choices, all following the Python source:
    - the table handed to the filter, the sort and the simulator is the
      list of its rows, each row carrying the four required columns, a
      salary cell being a binary64 float ([PrimFloat.float]) whose NaN is
      the missing value, as in pandas;
    - the frame handed to the chart builder keeps the type of its salary
      columns, int64 or float64, since pandas subtracts two int64 columns
      in int64;
    - the frame that [load_data] returns is a list of column names and rows
      of cells; [pd.read_csv] and [pd.to_numeric] are parameters of the
      loader; a reader of comma-separated text without quoting, with
      numbers in plain decimal notation, stands for [pd.read_csv] on the
      embedded dataset and on the example uploads;
    - exceptions are values of [Exn] carried by [Result]; an index out of
      range is [None];
    - a numpy [Generator] is an object in a store ([World]); its bit
      generator and the single-variate sampler are parameters of the model;
    - numpy's [argsort] of the default kind is a parameter of the
      properties, with its contract as hypotheses; numpy's scalar introsort
      and two sorts by insertion are given as concrete sorters;
    - numpy's [min] and [max] are parameters of the summary statistics,
      with their contracts as hypotheses. *)

From Stdlib Require Import ZArith Floats Uint63 Lia Ascii.
From stdpp Require Import base option list strings gmap sorting.

Set Warnings "-inexact-float".

(** ** Exceptions and results *)

Inductive Exn : Type :=
  | ValueError (msg : string)
  | ParserError (msg : string)
  | ReferenceError (msg : string)
  | TypeError (msg : string).

Inductive Result (A : Type) : Type :=
  | Ok (a : A)
  | Raise (e : Exn).
Arguments Ok {A} a.
Arguments Raise {A} e.

(** ** binary64 helpers *)

Module Float64.

(** [Series.fillna(v)] on one cell. *)
Definition fillna (v x : float) : float := if is_nan x then v else x.

(** An order-preserving key for the numbers that are not NaN: sign class,
    then exponent, then mantissa (both negated for negative numbers). *)
Definition SFkey (f : spec_float) : Z * Z * Z :=
  match f with
  | S754_infinity true => (-2, 0, 0)
  | S754_finite true m e => (-1, - e, - Z.pos m)
  | S754_zero _ => (0, 0, 0)
  | S754_nan => (0, 0, 0)
  | S754_finite false m e => (1, e, Z.pos m)
  | S754_infinity false => (2, 0, 0)
  end%Z.

Definition lex_compare (a b : Z * Z * Z) : comparison :=
  let '(a1, a2, a3) := a in
  let '(b1, b2, b3) := b in
  match (a1 ?= b1)%Z with
  | Eq => match (a2 ?= b2)%Z with Eq => (a3 ?= b3)%Z | c => c end
  | c => c
  end.

Definition fkey (x : float) : Z * Z * Z := SFkey (Prim2SF x).

End Float64.

(** ** The salary table *)

(** One row of the table after validation and cleaning: [Department] is a
    [str], the three salary columns are float64 (NaN when missing). *)
Record SalaryRow : Type := mkRow {
  Department : string;
  Average_Salary : float;
  Min_Salary : float;
  Max_Salary : float
}.

Abbreviation Table := (list SalaryRow).

(** ** Filter (app.py, lines 148-149) *)

(** [if selected: df = df[df["Department"].isin(selected)]]: an empty list is
    falsy in Python, so the table is left as it is. *)
Definition filter_selected (selected : list string) (df : Table) : Table :=
  match selected with
  | [] => df
  | _ :: _ => filter (λ r, Department r ∈ selected) df
  end.

(** ** Numeric columns *)

(** A numeric column as pandas holds it: a column of whole numbers is an
    int64 array, a column with a fraction or a missing value a float64
    array, whose NaN is the missing value. *)
Inductive Series : Type :=
  | Int64 (values : list Z)
  | Float64 (values : list float).

(** A Python number, as [tolist()] and plotly see it: an [int] from an
    int64 column, a [float] from a float64 column. *)
Inductive Scalar : Type :=
  | SInt (z : Z)
  | SFloat (x : float).
Arguments SInt z%_Z.
Arguments SFloat x%_float.

(** int64 arithmetic wraps around at [2^63]. *)
Definition wrap64 (z : Z) : Z := ((z + 2 ^ 63) mod 2 ^ 64 - 2 ^ 63)%Z.

(** The float64 nearest to an int64 (a number from [-2^63] to [2^63 - 1]),
    ties to even: the conversion of the magnitude, with the sign put
    back. *)
Definition int64_to_float64 (z : Z) : float :=
  if (0 <=? z)%Z then of_uint63 (Uint63.of_Z z)
  else if (z =? - 2 ^ 63)%Z then (-9223372036854775808)%float
  else (- of_uint63 (Uint63.of_Z (- z)))%float.

(** [s.astype("float64")], numpy's promotion of an int64 operand that
    meets a float64 one. *)
Definition as_float64 (s : Series) : list float :=
  match s with
  | Int64 values => int64_to_float64 <$> values
  | Float64 values => values
  end.

Definition scalar_float (v : Scalar) : float :=
  match v with
  | SInt z => int64_to_float64 z
  | SFloat x => x
  end.

(** [s.tolist()]. *)
Definition tolist (s : Series) : list Scalar :=
  match s with
  | Int64 values => SInt <$> values
  | Float64 values => SFloat <$> values
  end.

(** [len(s)]. *)
Definition series_len (s : Series) : nat :=
  match s with
  | Int64 values => length values
  | Float64 values => length values
  end.

(** [s1 - s2] on two columns of one frame, cell by cell: in int64 when
    both are int64, in float64 otherwise. *)
Definition series_sub (s1 s2 : Series) : Series :=
  match s1, s2 with
  | Int64 a, Int64 b => Int64 (zip_with (λ x y, wrap64 (x - y)) a b)
  | _, _ => Float64 (zip_with PrimFloat.sub (as_float64 s1) (as_float64 s2))
  end.

(** [s.fillna(0)]: an int64 column has nothing missing. *)
Definition series_fillna0 (s : Series) : Series :=
  match s with
  | Int64 values => Int64 values
  | Float64 values => Float64 (Float64.fillna 0%float <$> values)
  end.

(** [np.stack([s1, s2], axis=1)]: the rows of the two-column array, of
    dtype int64 when both columns are int64 and float64 otherwise. *)
Definition np_stack (s1 s2 : Series) : list (Scalar * Scalar) :=
  match s1, s2 with
  | Int64 a, Int64 b => zip (SInt <$> a) (SInt <$> b)
  | _, _ => zip (SFloat <$> as_float64 s1) (SFloat <$> as_float64 s2)
  end.

(** One cell of [s.fillna(0)]. *)
Definition scalar_fillna0 (v : Scalar) : Scalar :=
  match v with
  | SInt z => SInt z
  | SFloat x => SFloat (Float64.fillna 0%float x)
  end.

(** [math.isnan] of a Python number. *)
Definition scalar_missing (v : Scalar) : bool :=
  match v with
  | SInt _ => false
  | SFloat x => is_nan x
  end.

(** [v < 0] and [u <= v], each in the arithmetic of the two numbers. *)
Definition scalar_negative (v : Scalar) : bool :=
  match v with
  | SInt z => (z <? 0)%Z
  | SFloat x => (x <? 0)%float
  end.

Definition scalar_leb (u v : Scalar) : bool :=
  match u, v with
  | SInt a, SInt b => (a <=? b)%Z
  | _, _ => (scalar_float u <=? scalar_float v)%float
  end.

(** ** The frame of the chart *)

(** The frame handed to [make_bar_fig]: the Department column, made of
    [str] by the cleaning, and the three salary columns, numeric after
    [load_data]. *)
Module Frame.

Record t : Type := mk {
  Department : list string;
  Average_Salary : Series;
  Min_Salary : Series;
  Max_Salary : Series
}.

(** The columns of a frame have one length, [len(df)]. *)
Definition len (df : t) : nat := length (Department df).

Definition well_formed (df : t) : Prop :=
  series_len (Average_Salary df) = len df ∧
  series_len (Min_Salary df) = len df ∧
  series_len (Max_Salary df) = len df.

End Frame.

(** A table whose three salary columns are float64. *)
Definition frame_of_table (df : Table) : Frame.t :=
  {| Frame.Department := Department <$> df;
     Frame.Average_Salary := Float64 (Average_Salary <$> df);
     Frame.Min_Salary := Float64 (Min_Salary <$> df);
     Frame.Max_Salary := Float64 (Max_Salary <$> df) |}.

(** ** Bar chart (app.py, [make_bar_fig]) *)

(** The [error_x] attribute of the bar trace. *)
Record ErrorX : Type := mkErrorX {
  symmetric : bool;
  array : list Scalar;       (* right whiskers *)
  arrayminus : list Scalar   (* left whiskers *)
}.

Record Figure : Type := mkFigure {
  fig_x : list Scalar;
  fig_y : list string;
  fig_plotly_colors : bool;
  fig_customdata : list (Scalar * Scalar);
  fig_error_x : option ErrorX;
  fig_title : string;
  fig_height : nat
}.

Definition left_err (df : Frame.t) : list Scalar :=
  tolist (series_fillna0
            (series_sub (Frame.Average_Salary df) (Frame.Min_Salary df))).

Definition right_err (df : Frame.t) : list Scalar :=
  tolist (series_fillna0
            (series_sub (Frame.Max_Salary df) (Frame.Average_Salary df))).

Definition make_bar_fig (df : Frame.t) (palette : string) (show_error : bool)
    (title : string) : Figure :=
  let y := Frame.Department df in
  let x := tolist (Frame.Average_Salary df) in
  let left_err := left_err df in
  let right_err := right_err df in
  {| fig_x := x;
     fig_y := y;
     fig_plotly_colors := String.eqb palette "Plotly";
     fig_customdata :=
       np_stack (series_fillna0 (Frame.Min_Salary df))
                (series_fillna0 (Frame.Max_Salary df));
     fig_error_x :=
       if show_error
       then Some {| symmetric := false; array := right_err;
                    arrayminus := left_err |}
       else None;
     fig_title := title;
     fig_height := 60 * max 4 (Frame.len df) |}.

(** What the specification says the whiskers are: [max(0, a - b)], and no
    whisker when the difference is missing. *)
Definition clamped_extent (a b : Scalar) : Scalar :=
  match a, b with
  | SInt a, SInt b => SInt (Z.max 0 (a - b))
  | _, _ =>
      let d := (scalar_float a - scalar_float b)%float in
      SFloat (if is_nan d then 0 else if d <? 0 then 0 else d)%float
  end.

Definition spec_left_err (df : Frame.t) : list Scalar :=
  zip_with clamped_extent (tolist (Frame.Average_Salary df))
    (tolist (Frame.Min_Salary df)).

Definition spec_right_err (df : Frame.t) : list Scalar :=
  zip_with clamped_extent (tolist (Frame.Max_Salary df))
    (tolist (Frame.Average_Salary df)).

(** ** Simulation (app.py, [simulate_distributions]) *)

(** The long-form sample table: two named columns and its rows. *)
Record SampleFrame : Type := mkFrame {
  columns : list string;
  rows : list (string * float)
}.

(** [pd.DataFrame({"Department": dept, "Salary": samples})]: the scalar
    [dept] is broadcast along [samples]. *)
Definition dept_frame (dept : string) (samples : list float) : SampleFrame :=
  {| columns := ["Department"; "Salary"];
     rows := map (λ s, (dept, s)) samples |}.

(** [pd.DataFrame(columns=["Department", "Salary"])]. *)
Definition empty_frame : SampleFrame :=
  {| columns := ["Department"; "Salary"]; rows := [] |}.

(** [pd.concat(frames, ignore_index=True)]: the columns in order of first
    appearance, the rows one frame after the other. *)
Definition pd_concat (frames : list SampleFrame) : SampleFrame :=
  {| columns := remove_dups (concat (map columns frames));
     rows := concat (map rows frames) |}.

(** A block of the output: [n] samples tagged with the row's department. *)
Definition block_of (n : nat) (r : SalaryRow) (f : SampleFrame) : Prop :=
  ∃ xs : list float, length xs = n ∧ f = dept_frame (Department r) xs.

(** The claim's notion of a row that qualifies for simulation: the three
    values are present and [Min < Max]. *)
Definition qualifies (r : SalaryRow) : bool :=
  negb (is_nan (Min_Salary r)) && negb (is_nan (Average_Salary r)) &&
  negb (is_nan (Max_Salary r)) && (Min_Salary r <? Max_Salary r)%float.

(** The stronger condition under which numpy accepts the row. *)
Definition well_ordered (r : SalaryRow) : bool :=
  qualifies r && (Min_Salary r <=? Average_Salary r)%float &&
  (Average_Salary r <=? Max_Salary r)%float.

Section Simulation.

(** State of a numpy bit generator, its seeding, and the draw of one
    triangular variate, which advances the state. *)
Variable BitGen : Type.
Variable seed_bitgen : N → BitGen.
Variable random_triangular :
  BitGen → float → float → float → float * BitGen.

(** The [Generator] objects that exist; a generator is named by its
    position in the store. *)
Definition World : Type := list BitGen.

(** Computations that read and update the store and may raise. *)
Definition M (A : Type) : Type := World → Result A * World.

Definition ret {A} (a : A) : M A := λ w, (Ok a, w).

Definition bind {A B} (m : M A) (k : A → M B) : M B :=
  λ w, match m w with
       | (Ok a, w') => k a w'
       | (Raise e, w') => (Raise e, w')
       end.

Local Notation "'do' x <- m ; k" := (bind m (λ x, k))
  (at level 60, m at next level, right associativity).

(** [np.random.default_rng(seed)]: a new generator, seeded. *)
Definition default_rng (seed : N) : M nat :=
  λ w, (Ok (length w), w ++ [seed_bitgen seed]).

(** [size] variates drawn one after the other from the same state. *)
Fixpoint draw (size : nat) (left mode right : float) (g : BitGen)
    : list float * BitGen :=
  match size with
  | 0 => ([], g)
  | S n =>
      let '(x, g1) := random_triangular g left mode right in
      let '(xs, g2) := draw n left mode right g1 in
      (x :: xs, g2)
  end.

(** [rng.triangular(left, mode, right, size)]: numpy checks its scalar
    arguments first and raises [ValueError] when [left > mode],
    [mode > right] or [left == right]. *)
Definition triangular (rng : nat) (left mode right : float) (size : nat)
    : M (list float) :=
  λ w,
    if (mode <? left)%float then (Raise (ValueError "left > mode"), w)
    else if (right <? mode)%float then (Raise (ValueError "mode > right"), w)
    else if (left =? right)%float then (Raise (ValueError "left == right"), w)
    else
      match w !! rng with
      | Some g =>
          let '(xs, g') := draw size left mode right g in
          (Ok xs, <[rng := g']> w)
      | None => (Raise (ReferenceError "no such generator"), w)
      end.

(** The body of [for _, r in df.iterrows()], with [acc] the list [rows]
    that the loop appends to.  [float(...)] of a float64 cell cannot raise,
    so the [except] branch is not reachable on a [Table]. *)
Fixpoint simulate_loop (rng : nat) (samples_per_dept : nat) (df : Table)
    (acc : list SampleFrame) : M (list SampleFrame) :=
  match df with
  | [] => ret acc
  | r :: df' =>
      let a := Min_Salary r in
      let b := Average_Salary r in
      let c := Max_Salary r in
      if is_nan a || is_nan b || is_nan c || (c <=? a)%float
      then simulate_loop rng samples_per_dept df' acc
      else
        do samples <- triangular rng a b c samples_per_dept;
        let dept := Department r in
        simulate_loop rng samples_per_dept df'
          (acc ++ [dept_frame dept samples])
  end.

Definition simulate_distributions (df : Table) (samples_per_dept : nat)
    (seed : N) : M SampleFrame :=
  do rng <- default_rng seed;
  do frames <- simulate_loop rng samples_per_dept df [];
  match frames with
  | [] => ret empty_frame
  | _ :: _ => ret (pd_concat frames)
  end.

End Simulation.

Arguments simulate_distributions {BitGen} seed_bitgen random_triangular
  df samples_per_dept seed _.
Arguments simulate_loop {BitGen} random_triangular rng samples_per_dept df
  acc _.
Arguments triangular {BitGen} random_triangular rng left mode right size _.
Arguments draw {BitGen} random_triangular size left mode right g.
Arguments default_rng {BitGen} seed_bitgen seed _.
Arguments bind {BitGen A B} m k _.
Arguments ret {BitGen A} a _.

(** A small concrete generator on which the model can be run: a 64-bit
    linear congruential state, and the triangular variate obtained from one
    uniform number by inverting the distribution function. *)
Module Lcg.

Definition step (g : Z) : Z :=
  ((g * 6364136223846793005 + 1442695040888963407) mod 2 ^ 64)%Z.

Definition seed_bitgen (seed : N) : Z := step (Z.of_N seed).

(** A number in [0, 1) from the upper 53 bits of the state. *)
Definition unit_float (g : Z) : float :=
  (of_uint63 (Uint63.of_Z (g / 2 ^ 11)) / 9007199254740992)%float.

Definition random_triangular (g : Z) (left mode right : float) : float * Z :=
  let g' := step g in
  let u := unit_float g' in
  let base := (right - left)%float in
  let leftbase := (mode - left)%float in
  let ratio := (leftbase / base)%float in
  let x :=
    if (u <=? ratio)%float
    then (left + PrimFloat.sqrt (u * (leftbase * base)))%float
    else (right - PrimFloat.sqrt ((1 - u) * ((right - mode) * base)))%float in
  (x, g').

End Lcg.

(** ** The loader (app.py, [load_data]) *)

(** A cell of a frame as pandas reads it: text, or a float64 number whose
    NaN is the missing value. *)
Inductive Cell : Type :=
  | CStr (s : string)
  | CNum (x : float).

Record DataFrame : Type := mkDataFrame {
  df_columns : list string;
  df_rows : list (list Cell)
}.

Module Csv.

(** A [str] is held as the bytes of its UTF-8 encoding. *)
Definition bytes (l : list nat) : string :=
  foldr (λ n s, String (ascii_of_nat n) s) EmptyString l.

(** The characters that [str.isspace] accepts: U+0009..U+000D,
    U+001C..U+0020, U+0085, U+00A0, U+1680, U+2000..U+200A, U+2028, U+2029,
    U+202F, U+205F and U+3000. *)
Definition whitespace : list string :=
  bytes <$>
    (((λ n, [n]) <$> (seq 9 5 ++ seq 28 5)) ++
     [[194; 133]; [194; 160]; [225; 154; 128]] ++
     ((λ k, [226; 128; 128 + k]) <$> seq 0 11) ++
     [[226; 128; 168]; [226; 128; 169]; [226; 128; 175]; [226; 129; 159];
      [227; 128; 128]]).

(** [s] without its prefix [p], when it has it. *)
Fixpoint drop_prefix (p s : string) : option string :=
  match p, s with
  | EmptyString, _ => Some s
  | String a p', String b s' =>
      if Ascii.eqb a b then drop_prefix p' s' else None
  | String _ _, EmptyString => None
  end.

(** Drops the leading characters of [s] that are among [chars]. *)
Fixpoint lstrip_chars (fuel : nat) (chars : list string) (s : string)
    : string :=
  match fuel with
  | 0 => s
  | S fuel =>
      match head (omap (λ c, drop_prefix c s) chars) with
      | Some rest => lstrip_chars fuel chars rest
      | None => s
      end
  end.

Definition lstrip (s : string) : string :=
  lstrip_chars (String.length s) whitespace s.

Definition rstrip (s : string) : string :=
  String.rev (lstrip_chars (String.length s) (String.rev <$> whitespace)
                (String.rev s)).

(** [str.strip()]. *)
Definition strip (s : string) : string := rstrip (lstrip s).

(** [str.split(sep)] for a one-character separator. *)
Fixpoint split (sep : ascii) (s : string) : list string :=
  match s with
  | EmptyString => [EmptyString]
  | String c s' =>
      if Ascii.eqb c sep then EmptyString :: split sep s'
      else match split sep s' with
           | w :: ws => String c w :: ws
           | [] => [String c EmptyString]
           end
  end.

Definition LF : ascii := ascii_of_nat 10.
Definition CR : ascii := ascii_of_nat 13.

Definition drop_cr (line : string) : string :=
  match String.rev line with
  | String c rest => if Ascii.eqb c CR then String.rev rest else line
  | EmptyString => line
  end.

(** The lines of a file, blank lines skipped. *)
Definition lines (text : string) : list string :=
  filter (λ l, l ≠ EmptyString) (map drop_cr (split LF text)).

Definition digit_of (c : ascii) : option Z :=
  let n := nat_of_ascii c in
  if (48 <=? n) && (n <=? 57) then Some (Z.of_nat n - 48)%Z else None.

(** Reads a run of decimal digits: the number read so far, how many digits
    were read, and what is left. *)
Fixpoint digits (s : string) (acc : Z) (count : nat) : Z * nat * string :=
  match s with
  | EmptyString => (acc, count, s)
  | String c s' =>
      match digit_of c with
      | Some d => digits s' (10 * acc + d)%Z (S count)
      | None => (acc, count, s)
      end
  end.

(** The float64 nearest to an integer. *)
Definition float_of_Z (z : Z) : float :=
  SF2Prim (binary_normalize prec emax z 0 false).

(** The float64 for the decimal [m / 10^k], signed. *)
Definition decimal (negative : bool) (m : Z) (k : nat) : float :=
  let v := (float_of_Z m / float_of_Z (10 ^ Z.of_nat k))%float in
  if negative then (- v)%float else v.

(** Numbers in plain decimal notation, as the plain files hold them: an
    optional sign, digits, and an optional fraction, converted by one
    division of the digits read as a whole number by a power of ten.
    Nothing else is read as a number here. *)
Definition parse_number (s : string) : option float :=
  let s := strip s in
  let '(negative, s1) :=
    match s with
    | String "-" t => (true, t)
    | String "+" t => (false, t)
    | _ => (false, s)
    end in
  let '(ip, ni, s2) := digits s1 0 0 in
  match s2 with
  | EmptyString => if ni is 0 then None else Some (decimal negative ip 0)
  | String "." s3 =>
      let '(m, nf, s4) := digits s3 ip 0 in
      match s4 with
      | EmptyString =>
          if ni + nf is 0 then None else Some (decimal negative m nf)
      | _ => None
      end
  | _ => None
  end.

(** The cell texts that [read_csv] reads as missing by default. *)
Definition na_values : list string :=
  [""; "#N/A"; "#N/A N/A"; "#NA"; "-1.#IND"; "-1.#QNAN"; "-NaN"; "-nan";
   "1.#IND"; "1.#QNAN"; "<NA>"; "N/A"; "NA"; "NULL"; "NaN"; "None"; "n/a";
   "nan"; "null"].

Definition is_na (s : string) : bool := bool_decide (s ∈ na_values).

(** A column is numeric when each of its cells is missing or a number. *)
Definition numeric_column (records : list (list string)) (j : nat) : bool :=
  forallb (λ rec, match rec !! j with
                  | Some s => is_na s || bool_decide (is_Some (parse_number s))
                  | None => true
                  end) records.

Definition read_cell (records : list (list string)) (j : nat) (s : string)
    : Cell :=
  if is_na s then CNum nan
  else if numeric_column records j
       then CNum (default nan (parse_number s))
       else CStr s.

(** One data line against a header of [width] names: short lines are
    padded with missing cells, long ones are a parse error. *)
Definition read_record (width : nat) (line : string)
    : Result (list string) :=
  let fields := split "," line in
  if width <? length fields
  then Raise (ParserError "Error tokenizing data")
  else Ok (fields ++ replicate (width - length fields) EmptyString).

Fixpoint read_records (width : nat) (body : list string)
    : Result (list (list string)) :=
  match body with
  | [] => Ok []
  | line :: body' =>
      match read_record width line with
      | Raise e => Raise e
      | Ok rec =>
          match read_records width body' with
          | Raise e => Raise e
          | Ok recs => Ok (rec :: recs)
          end
      end
  end.

(** A reader for plain files: the first line names the columns, every
    other line is a row, and each column is read as numbers when all of
    its cells allow it.  It stands for [pd.read_csv] on the texts that are
    read with it below, the embedded dataset and the example uploads:
    comma-separated text without quote characters or byte-order mark, with
    distinct header names, as many fields in every line as in the header
    and numbers in plain decimal notation.  The loader itself takes the
    reader as a parameter. *)
Definition read_csv (text : string) : Result DataFrame :=
  match lines text with
  | [] => Raise (ParserError "No columns to parse from file")
  | header :: body =>
      let names := split "," header in
      match read_records (length names) body with
      | Raise e => Raise e
      | Ok records =>
          Ok {| df_columns := names;
                df_rows := map (imap (read_cell records)) records |}
      end
  end.

(** The conversion of one cell that stands for
    [pd.to_numeric(.., errors="coerce")] on the columns of the plain files
    read below, which hold numbers already: a number is kept. *)
Definition to_numeric (c : Cell) : Cell :=
  match c with
  | CNum x => CNum x
  | CStr s => CNum (default nan (parse_number s))
  end.

End Csv.

Definition EXAMPLE_CSV : string :=
"Department,Average_Salary,Min_Salary,Max_Salary
IT,28560.182889,10544.19,115178.51
Finance,28055.533689,8987.86,101294.41
Logistics/Warehousing,27574.698600,9027.53,153451.58
Store Operations,27404.359873,8848.62,177873.61
Fresh Produce,26915.946969,8998.42,110475.60
Marketing,26796.816800,9736.23,65923.63
HR,26539.921733,8823.46,58951.29
Meat/Fish & Bakery,26535.722133,8867.88,116453.67
Customer Service,26244.393800,9449.99,50949.01
".

Module Loading.

(** What [pd.to_numeric] raises when it is not given a column. *)
Definition not_a_column : Exn :=
  TypeError "arg must be a list, tuple, 1-d array, or Series".

(** The positions of the columns named [c]. *)
Definition positions (c : string) (columns : list string) : list nat :=
  filter (λ j, columns !! j = Some c) (seq 0 (length columns)).

(** The cells of the column at position [j], and the rows with that column
    replaced. *)
Definition get_column (j : nat) (rows : list (list Cell)) : list Cell :=
  (λ row, default (CNum nan) (row !! j)) <$> rows.

Definition set_column (j : nat) (column : list Cell)
    (rows : list (list Cell)) : list (list Cell) :=
  zip_with (λ row cell, <[j := cell]> row) rows column.

Section Pandas.

(** [pd.read_csv] on the bytes of a file and
    [pd.to_numeric(column, errors="coerce")] on the cells of one column
    are pandas' own: they are parameters of the loader. *)
Variable read_csv : string → Result DataFrame.
Variable to_numeric : list Cell → list Cell.

(** [if c in df.columns: df[c] = pd.to_numeric(df[c], errors="coerce")]:
    when the name [c] is borne by more than one column, [df[c]] is a frame
    and not a column, and [pd.to_numeric] raises. *)
Definition coerce_column (c : string) (df : DataFrame) : Result DataFrame :=
  match positions c (df_columns df) with
  | [] => Ok df
  | [j] =>
      Ok {| df_columns := df_columns df;
            df_rows :=
              set_column j (to_numeric (get_column j (df_rows df)))
                (df_rows df) |}
  | _ :: _ :: _ => Raise not_a_column
  end.

Definition load_data (uploaded_file : option string) : Result DataFrame :=
  match read_csv (default EXAMPLE_CSV uploaded_file) with
  | Raise e => Raise e
  | Ok df =>
      let df := {| df_columns := Csv.strip <$> df_columns df;
                   df_rows := df_rows df |} in
      foldl (λ acc c, match acc with
                      | Ok df => coerce_column c df
                      | Raise e => Raise e
                      end)
        (Ok df) ["Average_Salary"; "Min_Salary"; "Max_Salary"]
  end.

End Pandas.

End Loading.

(** The loader with the reader of this file for [pd.read_csv], which
    reads comma-separated text without quoting and numbers in plain
    decimal notation. *)
Definition load_data (uploaded_file : option string) : Result DataFrame :=
  Loading.load_data Csv.read_csv (map Csv.to_numeric) uploaded_file.

(** ** Schema check (app.py, lines 140-143) *)

Definition required_cols : gset string :=
  {["Department"; "Average_Salary"; "Min_Salary"; "Max_Salary"]}.

(** What the script does after loading: [st.error] and [st.stop()] halt
    the run, otherwise it goes on with the table. *)
Inductive Gate : Type :=
  | Stopped (error : string)
  | Continue (df : DataFrame).

Definition schema_gate (df : DataFrame) : Gate :=
  if bool_decide (required_cols ⊆ list_to_set (df_columns df))
  then Continue df
  else Stopped
         "CSV must contain columns: Average_Salary, Department, Max_Salary, Min_Salary.".

(** ** Surrounding whitespace *)

(** A run of characters of [chars]. *)
Inductive blank_in (chars : list string) : string → Prop :=
  | blank_nil : blank_in chars ""
  | blank_cons w s :
      w ∈ chars → blank_in chars s → blank_in chars (w +:+ s).

(** [n] is [c] with whitespace before and after it. *)
Definition padded (c n : string) : Prop :=
  ∃ l r, blank_in Csv.whitespace l ∧ blank_in Csv.whitespace r ∧
         n = l +:+ c +:+ r.

(** No character of the set is the beginning of another. *)
Definition prefix_free (chars : list string) : Prop :=
  ∀ c1 c2 r1 r2, c1 ∈ chars → c2 ∈ chars →
    c1 +:+ r1 = c2 +:+ r2 → c1 = c2.

(** ** Sorting (app.py, lines 151-156) *)

Module Sorting.

(** [a[mask]], boolean-mask indexing. *)
Definition bool_index {A} (a : list A) (mask : list bool) : list A :=
  (filter (λ p, p.2 = true) (zip a mask)).*1.

(** [np.nonzero(mask)[0]]. *)
Definition nonzero (mask : list bool) : list nat :=
  bool_index (seq 0 (length mask)) mask.

(** [a[indexer]] and [df.take(indexer)], integer-array indexing; [None] is
    numpy's [IndexError] for a position out of range. *)
Definition take {A} (a : list A) (indexer : list nat) : option (list A) :=
  mapM (λ i, a !! i) indexer.

Section Nargsort.
Context {K : Type}.
Variable isna : K → bool.
(** numpy's [items.argsort(kind="quicksort")], the default kind. *)
Variable argsort : list K → list nat.

(** pandas' [nargsort(items, kind, ascending, na_position="last")]: the
    missing keys are set aside and put last; for a descending sort the
    present keys are reversed before the ascending argsort and the result
    is reversed again. *)
Definition nargsort (items : list K) (ascending : bool)
    : option (list nat) :=
  let idx := seq 0 (length items) in
  let mask := isna <$> items in
  let non_nans := bool_index items (negb <$> mask) in
  let non_nan_idx := bool_index idx (negb <$> mask) in
  let nan_idx := nonzero mask in
  let non_nans := if ascending then non_nans else reverse non_nans in
  let non_nan_idx := if ascending then non_nan_idx else reverse non_nan_idx in
  indexer ← take non_nan_idx (argsort non_nans);
  let indexer := if ascending then indexer else reverse indexer in
  Some (indexer ++ nan_idx).

(** [df.sort_values(column, ascending=..).reset_index(drop=True)] for
    one column; the index labels are not part of a [Table]. *)
Definition sort_values (column : SalaryRow → K) (ascending : bool)
    (df : Table)
    : option Table :=
  indexer ← nargsort (column <$> df) ascending;
  take df indexer.

End Nargsort.

(** The three-way choice of the script.  A [str] column has no missing
    value once [astype(str)] has been applied. *)
Definition sort_by_choice (argsort_float : list float → list nat)
    (argsort_str : list string → list nat) (sort_choice : string)
    (df : Table) : option Table :=
  if String.eqb sort_choice "Average (desc)"
  then sort_values is_nan argsort_float Average_Salary false df
  else if String.eqb sort_choice "Average (asc)"
  then sort_values is_nan argsort_float Average_Salary true df
  else sort_values (λ _, false) argsort_str Department true df.

(** *** What is asked of an argsort *)

(** [a] may stand before [b] in ascending order. *)
Definition ascending {K} (lt : K → K → bool) : relation K :=
  λ a b, lt b a = false.

(** The contract of an argsort for the order [lt] on [valid] keys: the
    result names every position once, and the keys read along it
    ascend.  Nothing is said of the order of equal keys. *)
Record argsort_contract {K} (lt : K → K → bool) (valid : K → Prop)
    (argsort : list K → list nat) : Prop := {
  argsort_perm : ∀ l, argsort l ≡ₚ seq 0 (length l);
  argsort_sorted : ∀ l out,
    Forall valid l → take l (argsort l) = Some out →
    StronglySorted (ascending lt) out
}.

(** *** What the claims ask of a sort *)

(** The sort key of a row under a choice: its Average, or its
    Department. *)
Definition by_average (sort_choice : string) : bool :=
  String.eqb sort_choice "Average (desc)"
  || String.eqb sort_choice "Average (asc)".

(** Two rows have equal sort keys. *)
Definition same_key (sort_choice : string) (r1 r2 : SalaryRow) : bool :=
  if by_average sort_choice
  then (Average_Salary r1 =? Average_Salary r2)%float
       || (is_nan (Average_Salary r1) && is_nan (Average_Salary r2))
  else String.eqb (Department r1) (Department r2).

(** Stability: the rows whose key equals that of [r] stand in [out] in the
    order they have in [df]. *)
Definition stable (sort_choice : string) (df out : Table) : Prop :=
  ∀ r, filter (λ r', same_key sort_choice r r' = true) out =
       filter (λ r', same_key sort_choice r r' = true) df.

(** [r1] may stand before [r2] in the order asked for. *)
Definition in_order (sort_choice : string) (r1 r2 : SalaryRow) : Prop :=
  if String.eqb sort_choice "Average (desc)"
  then (Average_Salary r1 <? Average_Salary r2)%float = false
  else if String.eqb sort_choice "Average (asc)"
  then (Average_Salary r2 <? Average_Salary r1)%float = false
  else String.ltb (Department r2) (Department r1) = false.

(** The key of [r] is missing. *)
Definition key_missing (sort_choice : string) (r : SalaryRow) : bool :=
  by_average sort_choice && is_nan (Average_Salary r).

(** [r1] and [r2] have different keys that can be compared. *)
Definition keys_differ (sort_choice : string) (r1 r2 : SalaryRow) : bool :=
  if by_average sort_choice
  then (Average_Salary r1 <? Average_Salary r2)%float
       || (Average_Salary r2 <? Average_Salary r1)%float
  else String.ltb (Department r1) (Department r2)
       || String.ltb (Department r2) (Department r1).

(** No two rows with a present key have equal keys. *)
Fixpoint distinct_keys (sort_choice : string) (df : Table) : bool :=
  match df with
  | [] => true
  | r :: df' =>
      forallb (λ r', key_missing sort_choice r || key_missing sort_choice r'
                     || keys_differ sort_choice r r') df'
      && distinct_keys sort_choice df'
  end.

(** *** A sorter by insertion *)

Fixpoint insert_by {K} (lt : K → K → bool) (x : nat * K)
    (l : list (nat * K)) : list (nat * K) :=
  match l with
  | [] => [x]
  | y :: l' => if lt y.2 x.2 then y :: insert_by lt x l' else x :: y :: l'
  end.

Definition insertion_argsort {K} (lt : K → K → bool) (l : list K)
    : list nat :=
  (foldr (insert_by lt) [] (zip (seq 0 (length l)) l)).*1.

(** *** numpy's introsort

    The argsort that numpy runs for [kind="quicksort"] on a platform
    without vectorised sorting, and always for [object] arrays
    ([aquicksort] in [npysort/quicksort.cpp]): median-of-three quicksort on
    the array [tosort] of positions while a partition has more than 17
    elements, insertion sort below that.  [None] stands for a run that
    leaves the model: a read outside the array, or the depth limit after
    which numpy switches to heapsort. *)

Section Introsort.
Context {K : Type}.
Variable lt : K → K → bool.
Variable v : list K.

Definition SMALL_QUICKSORT : nat := 16.

(** [v[*p]]. *)
Definition key_at (tosort : list nat) (p : nat) : option K :=
  i ← tosort !! p; v !! i.

(** [INTP_SWAP] of [*p] and [*q]. *)
Definition intp_swap (tosort : list nat) (p q : nat) : option (list nat) :=
  a ← tosort !! p; b ← tosort !! q; Some (<[q := a]> (<[p := b]> tosort)).

(** [if (LT(v[*p], v[*q]))] then [INTP_SWAP] of [*p] and [*q]. *)
Definition swap_if_less (tosort : list nat) (p q : nat)
    : option (list nat) :=
  a ← key_at tosort p; b ← key_at tosort q;
  if lt a b then intp_swap tosort p q else Some tosort.

(** [do { ++pi; } while (LT(v[*pi], vp));]. *)
Fixpoint scan_up (fuel : nat) (tosort : list nat) (vp : K) (pi : nat)
    : option nat :=
  match fuel with
  | 0 => None
  | S fuel =>
      let pi := S pi in
      a ← key_at tosort pi;
      if lt a vp then scan_up fuel tosort vp pi else Some pi
  end.

(** [do { --pj; } while (LT(vp, v[*pj]));]. *)
Fixpoint scan_down (fuel : nat) (tosort : list nat) (vp : K) (pj : nat)
    : option nat :=
  match fuel, pj with
  | S fuel, S pj =>
      a ← key_at tosort pj;
      if lt vp a then scan_down fuel tosort vp pj else Some pj
  | _, _ => None
  end.

(** The endless [for] loop of the partition, left by [break]. *)
Fixpoint partition_loop (fuel : nat) (tosort : list nat) (vp : K)
    (pi pj : nat) : option (list nat * nat) :=
  match fuel with
  | 0 => None
  | S fuel =>
      pi ← scan_up (length tosort) tosort vp pi;
      pj ← scan_down (length tosort) tosort vp pj;
      if pj <=? pi then Some (tosort, pi)
      else tosort ← intp_swap tosort pi pj;
           partition_loop fuel tosort vp pi pj
  end.

(** [while ((pr - pl) > SMALL_QUICKSORT)]: partition, push the larger
    part with the decremented depth, go on with the smaller. *)
Fixpoint partition_phase (fuel : nat) (tosort : list nat) (pl pr : nat)
    (stack : list (nat * nat * Z)) (cdepth : Z)
    : option (list nat * nat * nat * list (nat * nat * Z)) :=
  match fuel with
  | 0 => None
  | S fuel =>
      if SMALL_QUICKSORT <? pr - pl then
        let pm := pl + (pr - pl) / 2 in
        tosort ← swap_if_less tosort pm pl;
        tosort ← swap_if_less tosort pr pm;
        tosort ← swap_if_less tosort pm pl;
        vp ← key_at tosort pm;
        let pi := pl in
        let pj := pr - 1 in
        tosort ← intp_swap tosort pm pj;
        '(tosort, pi) ← partition_loop (length tosort) tosort vp pi pj;
        let pk := pr - 1 in
        tosort ← intp_swap tosort pi pk;
        let cdepth := (cdepth - 1)%Z in
        if pi - pl <? pr - pi
        then partition_phase fuel tosort pl (pi - 1)
               ((pi + 1, pr, cdepth) :: stack) cdepth
        else partition_phase fuel tosort (pi + 1) pr
               ((pl, pi - 1, cdepth) :: stack) cdepth
      else Some (tosort, pl, pr, stack)
  end.

(** [while (pj > pl && LT(vp, v[*pk])) { *pj-- = *pk--; }]. *)
Fixpoint shift_up (fuel : nat) (tosort : list nat) (vp : K) (pl pj : nat)
    : option (list nat * nat) :=
  match fuel with
  | 0 => None
  | S fuel =>
      if pl <? pj then
        let pk := pj - 1 in
        k ← tosort !! pk; a ← v !! k;
        if lt vp a then shift_up fuel (<[pj := k]> tosort) vp pl pk
        else Some (tosort, pj)
      else Some (tosort, pj)
  end.

(** The insertion sort of the positions [pl .. pr]. *)
Fixpoint insertion_phase (fuel : nat) (tosort : list nat) (pl pr pi : nat)
    : option (list nat) :=
  match fuel with
  | 0 => None
  | S fuel =>
      if pi <=? pr then
        vi ← tosort !! pi; vp ← v !! vi;
        '(tosort, pj) ← shift_up (S (length tosort)) tosort vp pl pi;
        insertion_phase fuel (<[pj := vi]> tosort) pl pr (S pi)
      else Some tosort
  end.

(** The [while (1)] loop. *)
Fixpoint sort_loop (fuel : nat) (tosort : list nat) (pl pr : nat)
    (stack : list (nat * nat * Z)) (cdepth : Z) : option (list nat) :=
  match fuel with
  | 0 => None
  | S fuel =>
      if (cdepth <? 0)%Z then None
      else
        '(tosort, pl, pr, stack) ←
          partition_phase (length tosort) tosort pl pr stack cdepth;
        tosort ←
          insertion_phase (S (length tosort)) tosort pl pr (pl + 1);
        match stack with
        | [] => Some tosort
        | (pl, pr, cdepth) :: stack => sort_loop fuel tosort pl pr stack cdepth
        end
  end.

Definition aquicksort : option (list nat) :=
  let num := length v in
  match num with
  | 0 => Some []
  | S _ =>
      sort_loop (S num) (seq 0 num) 0 (num - 1) []
        (Z.log2 (Z.of_nat num) * 2)
  end.

End Introsort.

(** [LT] on doubles, which puts NaN last, and on [str] objects. *)
Definition double_lt (a b : float) : bool :=
  (a <? b)%float || (is_nan b && negb (is_nan a)).

Definition npy_argsort_float (l : list float) : list nat :=
  default [] (aquicksort double_lt l).

Definition npy_argsort_str (l : list string) : list nat :=
  default [] (aquicksort String.ltb l).

(** The nine rows of the embedded dataset. *)
Definition default_table : Table :=
  [mkRow "IT" 28560.182889 10544.19 115178.51;
   mkRow "Finance" 28055.533689 8987.86 101294.41;
   mkRow "Logistics/Warehousing" 27574.698600 9027.53 153451.58;
   mkRow "Store Operations" 27404.359873 8848.62 177873.61;
   mkRow "Fresh Produce" 26915.946969 8998.42 110475.60;
   mkRow "Marketing" 26796.816800 9736.23 65923.63;
   mkRow "HR" 26539.921733 8823.46 58951.29;
   mkRow "Meat/Fish & Bakery" 26535.722133 8867.88 116453.67;
   mkRow "Customer Service" 26244.393800 9449.99 50949.01].

(** Eighteen departments with one and the same average salary. *)
Definition tied_table : Table :=
  imap (λ i d, mkRow d 27000 (9000 + of_uint63 (Uint63.of_Z (Z.of_nat i)))
                 60000)
    ["D00"; "D01"; "D02"; "D03"; "D04"; "D05"; "D06"; "D07"; "D08"; "D09";
     "D10"; "D11"; "D12"; "D13"; "D14"; "D15"; "D16"; "D17"].

(** Eighteen rows of one and the same department. *)
Definition tied_departments : Table :=
  imap (λ i d, mkRow d (27000 + of_uint63 (Uint63.of_Z (Z.of_nat i))) 9000
                 60000)
    (replicate 18 "Sales").

End Sorting.

(** ** Signs of binary64 numbers *)

Module Float64Sign.

(** A number that is not below zero, or the missing value. *)
Definition SFnonneg (f : spec_float) : bool :=
  match f with
  | S754_zero _ => true
  | S754_infinity s => negb s
  | S754_nan => true
  | S754_finite s _ _ => negb s
  end.

End Float64Sign.

(** ** The simulation panel (app.py, lines 196-205) *)

(** What the page shows under "Simulated distributions": the warning, or
    the violin plot of the sample table. *)
Inductive SimulationPanel : Type :=
  | NotEnoughData (warning : string)
  | ViolinPlot (sim_df : SampleFrame).

(** [sim_df.empty]: some axis of the frame has length 0. *)
Definition frame_empty (f : SampleFrame) : bool :=
  match columns f, rows f with
  | [], _ => true
  | _, [] => true
  | _ :: _, _ :: _ => false
  end.

(** The values that plotly accepts as a string for the [points] attribute
    of a violin trace (besides them it accepts [False]), and the
    [ValueError] with which it refuses any other; its message begins as
    given here. *)
Definition violin_points : list string :=
  ["all"; "outliers"; "suspectedoutliers"].

Definition invalid_points : Exn :=
  ValueError
    "Invalid value of type 'builtins.str' received for the 'points' property of violin".

(** [px.violin(sim_df, ..., points=points, ...)]. *)
Definition px_violin (sim_df : SampleFrame) (points : string)
    : Result SimulationPanel :=
  if bool_decide (points ∈ violin_points)
  then Ok (ViolinPlot sim_df)
  else Raise invalid_points.

Section Panel.

Variable BitGen : Type.
Variable seed_bitgen : N → BitGen.
Variable random_triangular :
  BitGen → float → float → float → float * BitGen.

(** [simulate_distributions(df_sorted, samples_per_dept=sim_samples)], with
    the default seed 42, then the test on [sim_df.empty], and in its
    [else] branch the call [px.violin(sim_df, ..., points="none", ...)],
    whose exception nothing catches. *)
Definition simulation_panel (df_sorted : Table) (sim_samples : nat)
    : M BitGen SimulationPanel :=
  bind (simulate_distributions seed_bitgen random_triangular df_sorted
          sim_samples 42)
    (λ sim_df,
       if frame_empty sim_df
       then ret (NotEnoughData
              "Not enough valid Min/Average/Max ranges to simulate distributions.")
       else λ w, (px_violin sim_df "none", w)).

End Panel.

Arguments simulation_panel {BitGen} seed_bitgen random_triangular df_sorted
  sim_samples _.

(** ** A second sorter, which puts equal keys in the opposite order *)

Module SortingVariants.
Import Sorting.

Fixpoint insert_last_by {K} (lt : K → K → bool) (x : nat * K)
    (l : list (nat * K)) : list (nat * K) :=
  match l with
  | [] => [x]
  | y :: l' =>
      if lt x.2 y.2 then x :: y :: l' else y :: insert_last_by lt x l'
  end.

Definition insertion_argsort_last {K} (lt : K → K → bool) (l : list K)
    : list nat :=
  (foldr (insert_last_by lt) [] (zip (seq 0 (length l)) l)).*1.

(** No two rows of [df] with present keys have equal keys. *)
Definition distinct_on (sort_choice : string) (df : Table) : Prop :=
  ∀ r1 r2, r1 ∈ df → r2 ∈ df →
    key_missing sort_choice r1 = false →
    key_missing sort_choice r2 = false →
    keys_differ sort_choice r1 r2 = false → r1 = r2.

End SortingVariants.

(** ** The table on the page (app.py, lines 148-156) *)

(** [df_sorted]: the cleaned table, filtered by the selection and sorted by
    the choice. *)
Definition df_sorted (argsort_float : list float → list nat)
    (argsort_str : list string → list nat) (selected : list string)
    (sort_choice : string) (df : Table) : option Table :=
  Sorting.sort_by_choice argsort_float argsort_str sort_choice
    (filter_selected selected df).

(** ** Summary statistics (app.py, lines 189-193) *)

Module Summary.

(** [mask.sum()]. *)
Definition mask_sum (mask : list bool) : nat :=
  length (filter (λ m, m = true) mask).

Section Reductions.
(** numpy's [values.min()] and [values.max()] on a float64 array. *)
Variable np_min np_max : list float → float.

(** pandas' [nanops.nanmin], behind [Series.min()] with [skipna=True]: an
    empty column gives NaN; otherwise the missing values are replaced by
    [+inf] before numpy's [min], and the result is NaN again when fewer
    than one value was present. *)
Definition nanmin (values : list float) : float :=
  match values with
  | [] => nan
  | _ :: _ =>
      let mask := is_nan <$> values in
      let filled := (λ v, if is_nan v then infinity else v) <$> values in
      let result := np_min filled in
      let non_nulls := length mask - mask_sum mask in
      if non_nulls <? 1 then nan else result
  end.

(** pandas' [nanops.nanmax]: the same with [-inf] and numpy's [max]. *)
Definition nanmax (values : list float) : float :=
  match values with
  | [] => nan
  | _ :: _ =>
      let mask := is_nan <$> values in
      let filled :=
        (λ v, if is_nan v then neg_infinity else v) <$> values in
      let result := np_max filled in
      let non_nulls := length mask - mask_sum mask in
      if non_nulls <? 1 then nan else result
  end.

(** ["Departments shown:"], ["Min of mins:"] and ["Max of maxes:"], before
    formatting. *)
Definition departments_shown (df_sorted : Table) : nat := length df_sorted.

Definition min_of_mins (df_sorted : Table) : float :=
  nanmin (Min_Salary <$> df_sorted).

Definition max_of_maxes (df_sorted : Table) : float :=
  nanmax (Max_Salary <$> df_sorted).

End Reductions.

(** *** What is asked of numpy's reductions

    On an array without NaN that is not empty, [min] returns an element
    of the array that no element is below, and [max] one that no element
    is above.  The order in which the elements are combined is left
    open. *)
Record min_contract (np_min : list float → float) : Prop := {
  min_elem : ∀ l, l ≠ [] → Forall (λ x, is_nan x = false) l → np_min l ∈ l;
  min_lower : ∀ l x, Forall (λ x, is_nan x = false) l → x ∈ l →
                     (np_min l <=? x)%float = true
}.

Record max_contract (np_max : list float → float) : Prop := {
  max_elem : ∀ l, l ≠ [] → Forall (λ x, is_nan x = false) l → np_max l ∈ l;
  max_upper : ∀ l x, Forall (λ x, is_nan x = false) l → x ∈ l →
                     (x <=? np_max l)%float = true
}.

(** *** numpy's scalar loops

    [io1 = (io1 <= in2 || npy_isnan(io1)) ? io1 : in2] and its mirror
    image, run from the first element on. *)
Definition npy_minimum (io1 in2 : float) : float :=
  if (io1 <=? in2)%float || is_nan io1 then io1 else in2.

Definition npy_maximum (io1 in2 : float) : float :=
  if (in2 <=? io1)%float || is_nan io1 then io1 else in2.

Definition reduce (op : float → float → float) (l : list float) : float :=
  match l with
  | [] => nan
  | v :: vs => foldl op v vs
  end.

(** Two statistics read the same: both are missing, or they are equal
    numbers. *)
Definition same_value (a b : float) : bool :=
  (is_nan a && is_nan b) || (a =? b)%float.

End Summary.

(** * Properties *)

(** ** binary64 facts, from the specification of the primitive operations *)

Module Float64Facts.
Import Float64.

Lemma SFcompare_key f1 f2 :
  f1 ≠ S754_nan → f2 ≠ S754_nan →
  SFcompare f1 f2 = Some (lex_compare (SFkey f1) (SFkey f2)).
Proof.
  intros H1 H2.
  destruct f1 as [s1|s1| |s1 m1 e1], f2 as [s2|s2| |s2 m2 e2];
    try congruence; try (destruct s1); try (destruct s2); try reflexivity;
    simpl;
    rewrite ?Z.compare_opp, ?Pos.compare_cont_spec; simpl.
  all: rewrite ?(Z.compare_antisym e1 e2);
    destruct (e1 ?= e2)%Z, (m1 ?= m2)%positive; reflexivity.
Qed.

Lemma is_nan_spec (x : float) : is_nan x = true ↔ Prim2SF x = S754_nan.
Proof.
  unfold is_nan. rewrite FloatAxioms.eqb_spec. unfold SFeqb.
  destruct (Prim2SF x) as [s|s| |s m e] eqn:E; simpl.
  - split; discriminate.
  - destruct s; split; discriminate.
  - split; reflexivity.
  - destruct s; rewrite Z.compare_refl, Pos.compare_cont_refl; simpl;
      split; discriminate.
Qed.

Lemma is_nan_false (x : float) : is_nan x = false ↔ Prim2SF x ≠ S754_nan.
Proof. rewrite <- is_nan_spec. destruct (is_nan x); split; congruence. Qed.

Lemma sub_nan_l x y : is_nan x = true → is_nan (x - y) = true.
Proof. rewrite !is_nan_spec, FloatAxioms.sub_spec. intros ->. reflexivity. Qed.

Lemma sub_nan_r x y : is_nan y = true → is_nan (x - y) = true.
Proof.
  rewrite !is_nan_spec, FloatAxioms.sub_spec. intros ->.
  destruct (Prim2SF x) as [[]|[]| |]; reflexivity.
Qed.

Lemma ltb_key x y :
  is_nan x = false → is_nan y = false →
  (x <? y)%float =
  match lex_compare (fkey x) (fkey y) with Lt => true | _ => false end.
Proof.
  rewrite !is_nan_false, FloatAxioms.ltb_spec. intros Hx Hy.
  unfold SFltb, fkey. now rewrite SFcompare_key.
Qed.

Lemma leb_key x y :
  is_nan x = false → is_nan y = false →
  (x <=? y)%float =
  match lex_compare (fkey x) (fkey y) with Gt => false | _ => true end.
Proof.
  rewrite !is_nan_false, FloatAxioms.leb_spec. intros Hx Hy.
  unfold SFleb, fkey. rewrite SFcompare_key by assumption.
  now destruct (lex_compare _ _).
Qed.

Lemma eqb_key x y :
  is_nan x = false → is_nan y = false →
  (x =? y)%float =
  match lex_compare (fkey x) (fkey y) with Eq => true | _ => false end.
Proof.
  rewrite !is_nan_false, FloatAxioms.eqb_spec. intros Hx Hy.
  unfold SFeqb, fkey. now rewrite SFcompare_key.
Qed.

Lemma lex_compare_antisym a b : lex_compare b a = CompOpp (lex_compare a b).
Proof.
  destruct a as [[a1 a2] a3], b as [[b1 b2] b3]. simpl.
  rewrite (Z.compare_antisym a1 b1), (Z.compare_antisym a2 b2),
    (Z.compare_antisym a3 b3).
  destruct (a1 ?= b1)%Z, (a2 ?= b2)%Z, (a3 ?= b3)%Z; reflexivity.
Qed.

Lemma lex_compare_not_Gt a b :
  lex_compare a b ≠ Gt ↔
  (a.1.1 < b.1.1 ∨ (a.1.1 = b.1.1 ∧
     (a.1.2 < b.1.2 ∨ (a.1.2 = b.1.2 ∧ a.2 ≤ b.2))))%Z.
Proof.
  destruct a as [[a1 a2] a3], b as [[b1 b2] b3]. simpl.
  destruct (Z.compare_spec a1 b1), (Z.compare_spec a2 b2),
    (Z.compare_spec a3 b3); split; intros; try congruence; try lia.
Qed.

Lemma lex_compare_le_trans a b c :
  lex_compare a b ≠ Gt → lex_compare b c ≠ Gt → lex_compare a c ≠ Gt.
Proof. rewrite !lex_compare_not_Gt. lia. Qed.

(** Among numbers, [y <= x] fails exactly when [x < y]. *)
Lemma leb_negb_ltb x y :
  is_nan x = false → is_nan y = false →
  (y <=? x)%float = negb (x <? y)%float.
Proof.
  intros Hx Hy. rewrite leb_key, ltb_key by assumption.
  rewrite (lex_compare_antisym (fkey x)). now destruct (lex_compare _ _).
Qed.

Lemma ltb_negb_leb x y :
  is_nan x = false → is_nan y = false →
  (y <? x)%float = negb (x <=? y)%float.
Proof.
  intros Hx Hy. rewrite leb_key, ltb_key by assumption.
  rewrite (lex_compare_antisym (fkey x)). now destruct (lex_compare _ _).
Qed.

Lemma ltb_eqb_false x y :
  is_nan x = false → is_nan y = false →
  (x <? y)%float = true → (x =? y)%float = false.
Proof.
  intros Hx Hy. rewrite eqb_key, ltb_key by assumption.
  now destruct (lex_compare _ _).
Qed.

Lemma leb_trans x y z :
  is_nan x = false → is_nan y = false → is_nan z = false →
  (x <=? y)%float = true → (y <=? z)%float = true → (x <=? z)%float = true.
Proof.
  intros Hx Hy Hz. rewrite !leb_key by assumption.
  pose proof (lex_compare_le_trans (fkey x) (fkey y) (fkey z)) as T.
  destruct (lex_compare (fkey x) (fkey y)), (lex_compare (fkey y) (fkey z)),
    (lex_compare (fkey x) (fkey z)); try reflexivity; try discriminate;
    intros _ _; exfalso; apply T; congruence.
Qed.

Lemma fillna_not_nan v x : is_nan v = false → is_nan (fillna v x) = false.
Proof. intros Hv. unfold fillna. now destruct (is_nan x) eqn:E. Qed.

End Float64Facts.

(** ** The bar chart's error whiskers *)

Module BarChart.
Import Float64 Float64Facts.

Lemma wrap64_small (z : Z) : (- 2 ^ 63 <= z < 2 ^ 63)%Z → wrap64 z = z.
Proof. intros H. unfold wrap64. rewrite Z.mod_small; lia. Qed.

Lemma tolist_as_float64 (s : Series) i v :
  tolist s !! i = Some v → as_float64 s !! i = Some (scalar_float v).
Proof.
  destruct s as [l|l]; simpl; rewrite !list_lookup_fmap;
    destruct (l !! i); simpl; intros [= <-]; reflexivity.
Qed.

Lemma tolist_length (s : Series) : length (tolist s) = series_len s.
Proof. destruct s; simpl; apply length_fmap. Qed.

Lemma as_float64_length (s : Series) : length (as_float64 s) = series_len s.
Proof. destruct s; simpl; [apply length_fmap|reflexivity]. Qed.

Lemma tolist_Int64_lookup (l : list Z) i v :
  tolist (Int64 l) !! i = Some v → ∃ z, l !! i = Some z ∧ v = SInt z.
Proof.
  simpl. rewrite list_lookup_fmap. destruct (l !! i) as [z|]; [|discriminate].
  intros [= <-]. eauto.
Qed.

Lemma tolist_Float64_lookup (l : list float) i v :
  tolist (Float64 l) !! i = Some v → ∃ x, l !! i = Some x ∧ v = SFloat x.
Proof.
  simpl. rewrite list_lookup_fmap. destruct (l !! i) as [x|]; [|discriminate].
  intros [= <-]. eauto.
Qed.

(** One cell of [(s1 - s2).fillna(0).tolist()]. *)
Lemma extent_lookup (s1 s2 : Series) i a b :
  tolist s1 !! i = Some a → tolist s2 !! i = Some b →
  tolist (series_fillna0 (series_sub s1 s2)) !! i =
  Some match a, b with
       | SInt x, SInt y => SInt (wrap64 (x - y))
       | _, _ => SFloat (fillna 0 (scalar_float a - scalar_float b))
       end.
Proof.
  intros Ha Hb.
  assert (Hf : tolist (Float64 (fillna 0 <$>
                 zip_with PrimFloat.sub (as_float64 s1) (as_float64 s2))) !! i =
               Some (SFloat (fillna 0 (scalar_float a - scalar_float b)))).
  { cbn [tolist]. rewrite !list_lookup_fmap, lookup_zip_with.
    rewrite (tolist_as_float64 _ _ _ Ha), (tolist_as_float64 _ _ _ Hb).
    reflexivity. }
  destruct s1 as [l1|l1], s2 as [l2|l2].
  - apply tolist_Int64_lookup in Ha as (x & E1 & ->).
    apply tolist_Int64_lookup in Hb as (y & E2 & ->).
    cbn [series_sub series_fillna0 tolist].
    rewrite list_lookup_fmap, lookup_zip_with, E1. cbn. now rewrite E2.
  - apply tolist_Float64_lookup in Hb as (y & E2 & ->).
    destruct a; exact Hf.
  - apply tolist_Float64_lookup in Ha as (x & E1 & ->). exact Hf.
  - apply tolist_Float64_lookup in Ha as (x & E1 & ->). exact Hf.
Qed.

Lemma extent_length (s1 s2 : Series) :
  length (tolist (series_fillna0 (series_sub s1 s2))) =
  min (series_len s1) (series_len s2).
Proof.
  destruct s1 as [l1|l1], s2 as [l2|l2]; simpl;
    rewrite !length_fmap, length_zip_with, ?length_fmap; reflexivity.
Qed.

Lemma fillna_sub_missing (a b : float) :
  fillna 0 (a - b)%float =
  if is_nan a || is_nan b then 0%float else fillna 0 (a - b)%float.
Proof.
  destruct (is_nan a) eqn:Ha; simpl.
  { unfold fillna. now rewrite sub_nan_l. }
  destruct (is_nan b) eqn:Hb; simpl; [|reflexivity].
  unfold fillna. now rewrite sub_nan_r.
Qed.

(** C1, as stated, fails: on a row whose Min exceeds its Average the left
    whisker handed to the chart is the negative difference [-5], where the
    claim has [max(0, 5 - 10) = 0]; so it is for whole numbers (an int64
    frame) and for numbers with a fraction (a float64 frame). *)
Lemma whisker_not_clamped :
  let df := Frame.mk ["IT"] (Int64 [5%Z]) (Int64 [10%Z]) (Int64 [20%Z]) in
  let df' := Frame.mk ["IT"] (Float64 [5.5%float]) (Float64 [10.5%float])
               (Float64 [20.5%float]) in
  fig_error_x (make_bar_fig df "Plotly" true "Average Salary by Department") =
    Some {| symmetric := false; array := [SInt 15];
            arrayminus := [SInt (-5)] |} ∧
  spec_left_err df = [SInt 0] ∧
  left_err df ≠ spec_left_err df ∧
  scalar_negative (SInt (-5)) = true ∧
  fig_error_x (make_bar_fig df' "Plotly" true "Average Salary by Department") =
    Some {| symmetric := false; array := [SFloat 15];
            arrayminus := [SFloat (-5)] |} ∧
  spec_left_err df' = [SFloat 0] ∧
  left_err df' ≠ spec_left_err df' ∧
  scalar_negative (SFloat (-5)) = true.
Proof.
  cbv zeta.
  split; [reflexivity|]. split; [reflexivity|].
  split; [vm_compute; discriminate|]. split; [reflexivity|].
  split; [reflexivity|]. split; [reflexivity|].
  split; [|reflexivity].
  intros H.
  apply (f_equal (λ l, from_option scalar_negative false (head l))) in H.
  vm_compute in H. discriminate.
Qed.

(** C1, amended: with error bars shown, the left whisker of every row is
    the difference Average - Min and the right whisker is Max - Average,
    not clamped: computed in int64, where it wraps around at [2^63], when
    both columns are int64 (so it is the exact difference when that fits
    int64), and in float64 otherwise, where it is 0 when a value it is
    computed from is missing or the difference is undefined; it is never
    NaN. *)
Theorem bar_error_extents (df : Frame.t) (palette title : string) (i : nat)
    (a m x : Scalar) :
  tolist (Frame.Average_Salary df) !! i = Some a →
  tolist (Frame.Min_Salary df) !! i = Some m →
  tolist (Frame.Max_Salary df) !! i = Some x →
  ∃ e lo hi,
    fig_error_x (make_bar_fig df palette true title) = Some e ∧
    arrayminus e !! i = Some lo ∧
    array e !! i = Some hi ∧
    lo = match a, m with
         | SInt za, SInt zm => SInt (wrap64 (za - zm))
         | _, _ =>
             SFloat (if is_nan (scalar_float a) || is_nan (scalar_float m)
                     then 0
                     else let d := scalar_float a - scalar_float m in
                          if is_nan d then 0 else d)%float
         end ∧
    hi = match x, a with
         | SInt zx, SInt za => SInt (wrap64 (zx - za))
         | _, _ =>
             SFloat (if is_nan (scalar_float x) || is_nan (scalar_float a)
                     then 0
                     else let d := scalar_float x - scalar_float a in
                          if is_nan d then 0 else d)%float
         end ∧
    scalar_missing lo = false ∧ scalar_missing hi = false ∧
    (∀ za zm, a = SInt za → m = SInt zm →
              (- 2 ^ 63 <= za - zm < 2 ^ 63)%Z → lo = SInt (za - zm)) ∧
    (∀ zx za, x = SInt zx → a = SInt za →
              (- 2 ^ 63 <= zx - za < 2 ^ 63)%Z → hi = SInt (zx - za)).
Proof.
  intros Ha Hm Hx. eexists _, _, _.
  split; [reflexivity|]. cbn [arrayminus array].
  split; [apply (extent_lookup _ _ _ _ _ Ha Hm)|].
  split; [apply (extent_lookup _ _ _ _ _ Hx Ha)|].
  split.
  { destruct a, m; try reflexivity; f_equal; apply fillna_sub_missing. }
  split.
  { destruct x, a; try reflexivity; f_equal; apply fillna_sub_missing. }
  split.
  { destruct a, m; try reflexivity; simpl; now apply fillna_not_nan. }
  split.
  { destruct x, a; try reflexivity; simpl; now apply fillna_not_nan. }
  split.
  - intros za zm -> -> H. now rewrite wrap64_small.
  - intros zx za -> -> H. now rewrite wrap64_small.
Qed.

Lemma bar_error_extents_witness :
  ∃ e lo hi,
    fig_error_x
      (make_bar_fig (Frame.mk ["IT"] (Int64 [5%Z]) (Int64 [10%Z])
                      (Float64 [20.5%float]))
         "Plotly" true "t") = Some e ∧
    arrayminus e !! 0 = Some lo ∧ array e !! 0 = Some hi ∧
    lo = SInt (-5) ∧ hi = SFloat 15.5 ∧
    scalar_missing lo = false ∧ scalar_missing hi = false ∧
    (∀ za zm, SInt 5 = SInt za → SInt 10 = SInt zm →
              (- 2 ^ 63 <= za - zm < 2 ^ 63)%Z → lo = SInt (za - zm)) ∧
    (∀ zx za, SFloat 20.5 = SInt zx → SInt 5 = SInt za →
              (- 2 ^ 63 <= zx - za < 2 ^ 63)%Z → hi = SInt (zx - za)).
Proof.
  exact (bar_error_extents
           (Frame.mk ["IT"] (Int64 [5%Z]) (Int64 [10%Z])
                      (Float64 [20.5%float]))
           "Plotly" "t" 0 (SInt 5) (SInt 10) (SFloat 20.5)
           eq_refl eq_refl eq_refl).
Defined.

End BarChart.

(** ** The distribution simulator *)

Section SimulationFacts.
Import Float64 Float64Facts.

Variable BitGen : Type.
Variable seed_bitgen : N → BitGen.
Variable random_triangular :
  BitGen → float → float → float → float * BitGen.

Local Abbreviation simulate := (simulate_distributions seed_bitgen random_triangular).
Local Abbreviation loop := (simulate_loop random_triangular).

(** The guard of the loop is the negation of [qualifies]. *)
Lemma guard_qualifies (r : SalaryRow) :
  is_nan (Min_Salary r) || is_nan (Average_Salary r) || is_nan (Max_Salary r)
    || (Max_Salary r <=? Min_Salary r)%float
  = negb (qualifies r).
Proof.
  unfold qualifies.
  destruct (is_nan (Min_Salary r)) eqn:Ha; [reflexivity|].
  destruct (is_nan (Average_Salary r)) eqn:Hb; [reflexivity|].
  destruct (is_nan (Max_Salary r)) eqn:Hc; [reflexivity|]. simpl.
  rewrite (leb_negb_ltb _ _ Ha Hc). reflexivity.
Qed.

(** numpy's three argument checks pass exactly on the well-ordered rows. *)
Lemma checks_well_ordered (r : SalaryRow) :
  qualifies r = true →
  ((Average_Salary r <? Min_Salary r)%float
   || (Max_Salary r <? Average_Salary r)%float
   || (Min_Salary r =? Max_Salary r)%float) = negb (well_ordered r).
Proof.
  unfold well_ordered. intros Hq. rewrite Hq.
  unfold qualifies in Hq.
  destruct (is_nan (Min_Salary r)) eqn:Ha; [discriminate|].
  destruct (is_nan (Average_Salary r)) eqn:Hb; [discriminate|].
  destruct (is_nan (Max_Salary r)) eqn:Hc; [discriminate|]. simpl in Hq.
  rewrite (ltb_eqb_false _ _ Ha Hc Hq).
  rewrite (ltb_negb_leb _ _ Ha Hb), (ltb_negb_leb _ _ Hb Hc).
  destruct (_ <=? _)%float, (_ <=? _)%float; reflexivity.
Qed.

Lemma draw_length size left mode right g :
  length (draw random_triangular size left mode right g).1 = size.
Proof.
  revert g. induction size as [|n IH]; intros g; simpl; [reflexivity|].
  destruct (random_triangular g left mode right) as [x g1].
  specialize (IH g1).
  destruct (draw random_triangular n left mode right g1) as [xs g2].
  simpl in *. now rewrite IH.
Qed.

Lemma triangular_ok rng (w : World BitGen) g (r : SalaryRow) n :
  w !! rng = Some g → qualifies r = true → well_ordered r = true →
  ∃ xs g',
    triangular random_triangular rng (Min_Salary r) (Average_Salary r)
      (Max_Salary r) n w = (Ok xs, <[rng := g']> w) ∧
    length xs = n.
Proof.
  intros Hg Hq Hw. pose proof (checks_well_ordered r Hq) as Hc.
  rewrite Hw in Hc. simpl in Hc.
  apply orb_false_iff in Hc as [Hc H3]. apply orb_false_iff in Hc as [H1 H2].
  unfold triangular. rewrite H1, H2, H3, Hg.
  pose proof (draw_length n (Min_Salary r) (Average_Salary r) (Max_Salary r) g)
    as Hl.
  destruct (draw _ _ _ _ _ g) as [xs g']. eauto.
Qed.

Lemma triangular_raises rng (w : World BitGen) (r : SalaryRow) n :
  qualifies r = true → well_ordered r = false →
  ∃ msg,
    triangular random_triangular rng (Min_Salary r) (Average_Salary r)
      (Max_Salary r) n w = (Raise (ValueError msg), w).
Proof.
  intros Hq Hw. pose proof (checks_well_ordered r Hq) as Hc.
  rewrite Hw in Hc. simpl in Hc. unfold triangular.
  destruct (_ <? _)%float; [eauto|].
  destruct (_ <? _)%float; [eauto|].
  destruct (_ =? _)%float; [eauto|discriminate].
Qed.

Lemma loop_step_skip rng n (r : SalaryRow) df acc w :
  qualifies r = false → loop rng n (r :: df) acc w = loop rng n df acc w.
Proof. intros Hq. simpl. now rewrite guard_qualifies, Hq. Qed.

Lemma loop_step_draw rng n (r : SalaryRow) df acc w :
  qualifies r = true →
  loop rng n (r :: df) acc w =
  bind (triangular random_triangular rng (Min_Salary r) (Average_Salary r)
          (Max_Salary r) n)
       (λ samples, loop rng n df (acc ++ [dept_frame (Department r) samples]))
       w.
Proof. intros Hq. simpl. now rewrite guard_qualifies, Hq. Qed.

(** When every qualifying row is well ordered the loop ends normally, with
    one block per qualifying row, in row order. *)
Lemma loop_ok rng n (df : Table) :
  Forall (λ r, qualifies r = true → well_ordered r = true) df →
  ∀ acc (w : World BitGen) g, w !! rng = Some g →
  ∃ fs, (loop rng n df acc w).1 = Ok (acc ++ fs) ∧
        Forall2 (block_of n) (filter (λ r, qualifies r = true) df) fs.
Proof.
  induction 1 as [|r df Hr Hdf IH]; intros acc w g Hg.
  { exists []. simpl. rewrite app_nil_r. split; [reflexivity|constructor]. }
  destruct (qualifies r) eqn:Hq.
  - rewrite loop_step_draw by assumption.
    destruct (triangular_ok rng w g r n Hg Hq (Hr eq_refl))
      as (xs & g' & Ht & Hl).
    unfold bind. rewrite Ht.
    assert (Hg' : <[rng := g']> w !! rng = Some g').
    { apply list_lookup_insert_eq. eapply lookup_lt_Some, Hg. }
    destruct (IH (acc ++ [dept_frame (Department r) xs]) _ g' Hg')
      as (fs & Hfs & Hbl).
    exists (dept_frame (Department r) xs :: fs).
    rewrite Hfs, <- app_assoc. split; [reflexivity|].
    rewrite filter_cons_True by assumption.
    constructor; [|assumption]. exists xs. auto.
  - rewrite loop_step_skip by assumption.
    destruct (IH acc w g Hg) as (fs & Hfs & Hbl).
    exists fs. split; [assumption|].
    rewrite filter_cons_False; [assumption|]. rewrite Hq. discriminate.
Qed.

(** When some qualifying row is not well ordered the loop raises numpy's
    [ValueError]. *)
Lemma loop_raises rng n (df : Table) :
  Exists (λ r, qualifies r = true ∧ well_ordered r = false) df →
  ∀ acc (w : World BitGen) g, w !! rng = Some g →
  ∃ msg, (loop rng n df acc w).1 = Raise (ValueError msg).
Proof.
  induction df as [|r df IH]; intros Hex acc w g Hg.
  { inversion Hex. }
  destruct (qualifies r) eqn:Hq.
  - rewrite loop_step_draw by assumption. unfold bind.
    destruct (well_ordered r) eqn:Hw.
    + destruct (triangular_ok rng w g r n Hg Hq Hw) as (xs & g' & Ht & Hl).
      rewrite Ht. eapply IH.
      * inversion Hex as [? ? [_ Hbad]|]; subst; [congruence|assumption].
      * apply list_lookup_insert_eq. eapply lookup_lt_Some, Hg.
    + destruct (triangular_raises rng w r n Hq Hw) as (msg & Ht).
      rewrite Ht. eauto.
  - rewrite loop_step_skip by assumption. eapply IH; [|eassumption].
    inversion Hex as [? ? [Hbad _]|]; subst; [congruence|assumption].
Qed.

(** Two runs of the loop on generators in the same state give the same
    result, whatever else the two stores hold. *)
Lemma loop_store_independent n (df : Table) :
  ∀ acc rng1 rng2 (w1 w2 : World BitGen) g,
    w1 !! rng1 = Some g → w2 !! rng2 = Some g →
    (loop rng1 n df acc w1).1 = (loop rng2 n df acc w2).1.
Proof.
  induction df as [|r df IH]; intros acc rng1 rng2 w1 w2 g H1 H2.
  { reflexivity. }
  simpl. destruct (_ || _); [eauto|].
  unfold bind, triangular.
  destruct (_ <? _)%float; [reflexivity|].
  destruct (_ <? _)%float; [reflexivity|].
  destruct (_ =? _)%float; [reflexivity|].
  rewrite H1, H2.
  destruct (draw _ _ _ _ _ g) as [xs g'].
  apply (IH _ _ _ _ _ g');
    apply list_lookup_insert_eq; eapply lookup_lt_Some; eassumption.
Qed.

Lemma simulate_unfold (df : Table) n seed (w : World BitGen) :
  (simulate df n seed w).1 =
  match (loop (length w) n df [] (w ++ [seed_bitgen seed])).1 with
  | Ok [] => Ok empty_frame
  | Ok (f :: fs) => Ok (pd_concat (f :: fs))
  | Raise e => Raise e
  end.
Proof.
  unfold simulate_distributions, bind, default_rng.
  destruct (loop _ _ _ _ _) as [[[|f fs]|e] w']; reflexivity.
Qed.

Lemma fresh_generator (w : World BitGen) g : (w ++ [g]) !! length w = Some g.
Proof. now rewrite lookup_app_r, Nat.sub_diag by lia. Qed.

Lemma blocks_columns n (rs : Table) (fs : list SampleFrame) :
  Forall2 (block_of n) rs fs →
  concat (map columns fs) =
  concat (replicate (length fs) ["Department"; "Salary"]).
Proof.
  induction 1 as [|r f rs fs (xs & _ & ->) _ IH]; [reflexivity|].
  simpl. now rewrite IH.
Qed.

Lemma remove_dups_cons_elem (x : string) (l : list string) :
  x ∈ l → remove_dups (x :: l) = remove_dups l.
Proof. intros Hx. simpl. now destruct (decide_rel elem_of x l). Qed.

Lemma remove_dups_columns k :
  remove_dups (concat (replicate (S k) ["Department"; "Salary"])) =
  ["Department"; "Salary"].
Proof.
  induction k as [|k IH]; [reflexivity|].
  cbn [replicate concat app] in *.
  rewrite remove_dups_cons_elem by (right; left).
  rewrite remove_dups_cons_elem by (right; left).
  exact IH.
Qed.

Lemma blocks_rows n (rs : Table) (fs : list SampleFrame) :
  Forall2 (block_of n) rs fs →
  length (concat (map rows fs)) = n * length rs ∧
  (concat (map rows fs)).*1 =
  concat (map (λ r, replicate n (Department r)) rs).
Proof.
  induction 1 as [|r f rs fs (xs & Hl & ->) _ [IH1 IH2]];
    [split; [simpl; lia|reflexivity]|].
  simpl. rewrite length_app, fmap_app, length_fmap, IH1, IH2.
  split; [lia|]. f_equal. rewrite <- Hl.
  clear. induction xs as [|x xs IHxs]; simpl; [reflexivity|].
  f_equal. exact IHxs.
Qed.

(** [simulate] ends normally exactly when every qualifying row has its
    Average between its Min and its Max. *)
Lemma simulate_ok_iff (df : Table) n seed (w : World BitGen) :
  (∃ out, (simulate df n seed w).1 = Ok out) ↔
  Forall (λ r, qualifies r = true → well_ordered r = true) df.
Proof.
  rewrite simulate_unfold. split.
  - intros [out Hout].
    destruct (decide (Forall (λ r, qualifies r = true → well_ordered r = true) df))
      as [|Hn]; [assumption|exfalso].
    apply not_Forall_Exists in Hn; [|intros r; apply _].
    assert (Hex : Exists (λ r, qualifies r = true ∧ well_ordered r = false) df).
    { eapply Exists_impl; [exact Hn|]. intros r Hr. simpl in Hr.
      destruct (qualifies r), (well_ordered r); try tauto. }
    destruct (loop_raises (length w) n df Hex [] (w ++ [seed_bitgen seed])
                (seed_bitgen seed) (fresh_generator w _))
      as [msg Hm].
    rewrite Hm in Hout. discriminate.
  - intros Hall.
    destruct (loop_ok (length w) n df Hall [] (w ++ [seed_bitgen seed])
                (seed_bitgen seed) (fresh_generator w _))
      as (fs & Hfs & _).
    rewrite Hfs. simpl. destruct fs; eauto.
Qed.

(** C2, on the code, at a row with Min < Max whose Average lies below its
    Min: the row passes the guard of the loop (nothing is missing and
    [Min >= Max] is false), and numpy's [triangular] rejects it, so the call
    raises instead of skipping the row. *)
Theorem simulate_raises_on_average_below_min n seed (w : World BitGen) :
  qualifies (mkRow "IT" 5 10 20) = true ∧
  (simulate [mkRow "IT" 5 10 20] n seed w).1 = Raise (ValueError "left > mode").
Proof. split; reflexivity. Qed.

(** C4: the outcome of [simulate_distributions] (the sample table, or the
    exception) is a function of the table, the sample count and the seed
    alone: it is the same from any two stores, hence also when the call is
    made a second time after the first. *)
Theorem simulate_deterministic (df : Table) n seed (w1 w2 : World BitGen) :
  (simulate df n seed w1).1 = (simulate df n seed w2).1 ∧
  (simulate df n seed (simulate df n seed w1).2).1 = (simulate df n seed w1).1.
Proof.
  assert (H : ∀ w w' : World BitGen,
             (simulate df n seed w).1 = (simulate df n seed w').1).
  { intros w w'. rewrite !simulate_unfold.
    now rewrite (loop_store_independent n df [] (length w) (length w')
                   _ _ _ (fresh_generator w _) (fresh_generator w' _)). }
  split; apply H.
Qed.

(** C5: when no row qualifies, the result is the empty table with the two
    columns Department and Salary, not an exception and not an absent
    value. *)
Theorem simulate_no_qualifying_rows (df : Table) n seed (w : World BitGen) :
  Forall (λ r, qualifies r = false) df →
  (simulate df n seed w).1 =
  Ok {| columns := ["Department"; "Salary"]; rows := [] |}.
Proof.
  intros Hnone. rewrite simulate_unfold.
  assert (Hall : Forall (λ r, qualifies r = true → well_ordered r = true) df).
  { eapply Forall_impl; [exact Hnone|]. simpl. congruence. }
  destruct (loop_ok (length w) n df Hall [] (w ++ [seed_bitgen seed])
                (seed_bitgen seed) (fresh_generator w _))
    as (fs & Hfs & Hbl).
  rewrite Hfs. simpl.
  replace (filter (λ r, qualifies r = true) df) with (@nil SalaryRow) in Hbl.
  { inversion Hbl. reflexivity. }
  symmetry. clear -Hnone. induction Hnone as [|r df Hr _ IH]; [reflexivity|].
  rewrite filter_cons_False; [assumption|congruence].
Qed.

(** C10: when the simulation ends normally, the sample table has the two
    columns, [samples_per_dept] rows per qualifying row of the input, and
    its Department column is, block after block, the department of each
    qualifying row repeated [samples_per_dept] times, in input order. *)
Theorem simulate_blocks (df : Table) n seed (w : World BitGen)
    (out : SampleFrame) :
  (simulate df n seed w).1 = Ok out →
  columns out = ["Department"; "Salary"] ∧
  length (rows out) = n * length (filter (λ r, qualifies r = true) df) ∧
  (rows out).*1 =
  concat (map (λ r, replicate n (Department r))
            (filter (λ r, qualifies r = true) df)).
Proof.
  intros Hout.
  assert (Hall : Forall (λ r, qualifies r = true → well_ordered r = true) df).
  { apply (simulate_ok_iff df n seed w). eauto. }
  rewrite simulate_unfold in Hout.
  destruct (loop_ok (length w) n df Hall [] (w ++ [seed_bitgen seed])
                (seed_bitgen seed) (fresh_generator w _))
    as (fs & Hfs & Hbl).
  rewrite Hfs in Hout. simpl in Hout.
  destruct (blocks_rows _ _ _ Hbl) as [Hlen Hdept].
  destruct fs as [|f fs].
  - injection Hout as <-. simpl in *. auto.
  - injection Hout as <-. unfold pd_concat. cbn [columns rows].
    split; [|auto].
    rewrite (blocks_columns _ _ _ Hbl). apply remove_dups_columns.
Qed.

End SimulationFacts.

(** Two runs of the simulator with the generator [Lcg]. *)

Lemma simulate_no_qualifying_rows_witness :
  (simulate_distributions Lcg.seed_bitgen Lcg.random_triangular
     [mkRow "IT" 5 nan 20; mkRow "HR" 5 20 20; mkRow "Finance" 5 30 20]
     300 42 []).1 =
  Ok {| columns := ["Department"; "Salary"]; rows := [] |}.
Proof.
  apply (simulate_no_qualifying_rows Z Lcg.seed_bitgen Lcg.random_triangular).
  repeat constructor.
Defined.

Lemma simulate_blocks_witness :
  ∃ out,
    (simulate_distributions Lcg.seed_bitgen Lcg.random_triangular
       [mkRow "IT" 5 1 20; mkRow "HR" 5 20 20; mkRow "Finance" 25 20 30]
       2 42 []).1 = Ok out ∧
    columns out = ["Department"; "Salary"] ∧
    length (rows out) = 4 ∧
    (rows out).*1 = ["IT"; "IT"; "Finance"; "Finance"].
Proof.
  eexists. split; [vm_compute; reflexivity|].
  apply (simulate_blocks Z Lcg.seed_bitgen Lcg.random_triangular
           [mkRow "IT" 5 1 20; mkRow "HR" 5 20 20; mkRow "Finance" 25 20 30]
           2 42 []).
  vm_compute. reflexivity.
Defined.

(** ** The department filter *)

(** C6: an empty selection selects everything: the table is returned as it
    was given, where [isin] alone, with nothing selected, would keep no
    row. *)
Theorem filter_empty_selection (df : Table) :
  filter_selected [] df = df ∧
  filter (λ r, Department r ∈ @nil string) df = [].
Proof.
  split; [reflexivity|].
  induction df as [|r df IH]; [reflexivity|].
  rewrite filter_cons_False; [exact IH|]. apply not_elem_of_nil.
Qed.

(** A selection that is not empty keeps the rows named in it, in order. *)
Lemma filter_selected_elem (selected : list string) (df : Table) r :
  selected ≠ [] →
  r ∈ filter_selected selected df ↔ r ∈ df ∧ Department r ∈ selected.
Proof.
  destruct selected as [|s sel]; [congruence|]. intros _.
  unfold filter_selected. rewrite list_elem_of_filter. tauto.
Qed.

(** ** The loader and the schema check *)

(** ** Stripping *)

Module StripFacts.
Import Csv.

Lemma append_nil_l (s : string) : "" +:+ s = s.
Proof. reflexivity. Qed.

Lemma append_cons (a : ascii) (s t : string) :
  String a s +:+ t = String a (s +:+ t).
Proof. reflexivity. Qed.

Lemma append_nil_r (s : string) : s +:+ "" = s.
Proof.
  induction s as [|a s IH]; [reflexivity|]. now rewrite append_cons, IH.
Qed.

Lemma append_assoc (s1 s2 s3 : string) :
  (s1 +:+ s2) +:+ s3 = s1 +:+ (s2 +:+ s3).
Proof.
  induction s1 as [|a s1 IH]; [reflexivity|].
  now rewrite !append_cons, IH.
Qed.

Lemma length_append (s1 s2 : string) :
  String.length (s1 +:+ s2) = String.length s1 + String.length s2.
Proof.
  induction s1 as [|a s1 IH]; [reflexivity|].
  rewrite append_cons. simpl. now rewrite IH.
Qed.

Lemma append_inv_head (s r1 r2 : string) : s +:+ r1 = s +:+ r2 → r1 = r2.
Proof.
  induction s as [|a s IH]; [now rewrite !append_nil_l|].
  rewrite !append_cons. intros [= H]. auto.
Qed.

Lemma rev_app_append (s1 s2 : string) :
  String.rev_app s1 s2 = String.rev_app s1 "" +:+ s2.
Proof.
  revert s2. induction s1 as [|a s1 IH]; intros s2; simpl; [reflexivity|].
  rewrite (IH (String a s2)), (IH (String a "")), append_assoc. reflexivity.
Qed.

Lemma rev_cons (a : ascii) (s : string) :
  String.rev (String a s) = String.rev s +:+ String a "".
Proof. unfold String.rev. simpl. apply rev_app_append. Qed.

Lemma rev_append (s1 s2 : string) :
  String.rev (s1 +:+ s2) = String.rev s2 +:+ String.rev s1.
Proof.
  induction s1 as [|a s1 IH].
  { rewrite append_nil_l. change (String.rev "") with "".
    now rewrite append_nil_r. }
  now rewrite append_cons, !rev_cons, IH, append_assoc.
Qed.

Lemma rev_involutive (s : string) : String.rev (String.rev s) = s.
Proof.
  induction s as [|a s IH]; [reflexivity|].
  now rewrite rev_cons, rev_append, IH.
Qed.

Lemma length_rev (s : string) : String.length (String.rev s) = String.length s.
Proof.
  induction s as [|a s IH]; [reflexivity|].
  rewrite rev_cons, length_append, IH. simpl. lia.
Qed.

Lemma drop_prefix_Some (p s r : string) :
  drop_prefix p s = Some r ↔ s = p +:+ r.
Proof.
  revert s. induction p as [|a p IH]; intros s.
  { rewrite append_nil_l. simpl. split; [now intros [= ->]|now intros ->]. }
  rewrite append_cons. simpl.
  destruct s as [|b s]; [split; discriminate|].
  destruct (Ascii.eqb_spec a b) as [->|Hne].
  - rewrite IH. split; [now intros ->|now intros [= ->]].
  - split; [discriminate|]. intros [= -> _]. congruence.
Qed.

Lemma blank_in_append chars (l1 l2 : string) :
  blank_in chars l1 → blank_in chars l2 → blank_in chars (l1 +:+ l2).
Proof.
  induction 1 as [|w s Hw Hs IH]; intros H2; [exact H2|].
  rewrite append_assoc. constructor; auto.
Qed.

Lemma blank_in_single chars (w : string) : w ∈ chars → blank_in chars w.
Proof.
  intros Hw. rewrite <- (append_nil_r w). constructor; [exact Hw|constructor].
Qed.

Lemma blank_in_rev chars (l : string) :
  blank_in chars l → blank_in (String.rev <$> chars) (String.rev l).
Proof.
  induction 1 as [|w s Hw Hs IH]; [constructor|].
  rewrite rev_append. apply blank_in_append; [exact IH|].
  apply blank_in_single. now apply list_elem_of_fmap_2.
Qed.

Lemma blank_in_rev_inv chars (l : string) :
  blank_in (String.rev <$> chars) l → blank_in chars (String.rev l).
Proof.
  induction 1 as [|w s Hw Hs IH]; [constructor|].
  rewrite rev_append. apply blank_in_append; [exact IH|].
  apply blank_in_single.
  apply list_elem_of_fmap in Hw as (c & -> & Hc).
  now rewrite rev_involutive.
Qed.

(** What [lstrip_chars] takes away is a run of the characters. *)
Lemma lstrip_chars_sound chars fuel (s : string) :
  ∃ l, blank_in chars l ∧ s = l +:+ lstrip_chars fuel chars s.
Proof.
  revert s. induction fuel as [|fuel IH]; intros s; simpl.
  { exists "". split; [constructor|reflexivity]. }
  destruct (head (omap (λ c, drop_prefix c s) chars)) as [rest|] eqn:E.
  - apply head_Some_elem_of, list_elem_of_omap in E as (c & Hc & Hd).
    apply drop_prefix_Some in Hd as ->.
    destruct (IH rest) as (l & Hl & Hr).
    exists (c +:+ l). split; [now constructor|].
    rewrite append_assoc. now rewrite <- Hr.
  - exists "". split; [constructor|reflexivity].
Qed.

Lemma common_prefix (c1 c2 r1 r2 : string) :
  c1 +:+ r1 = c2 +:+ r2 →
  is_Some (drop_prefix c1 c2) ∨ is_Some (drop_prefix c2 c1).
Proof.
  revert c2. induction c1 as [|a c1 IH]; intros c2 H.
  { left. simpl. eauto. }
  destruct c2 as [|b c2]; [right; simpl; eauto|].
  rewrite !append_cons in H. injection H as -> H. simpl.
  rewrite Ascii.eqb_refl. now apply IH.
Qed.

Lemma prefix_free_check (chars : list string) :
  forallb (λ c1, forallb (λ c2, bool_decide (c1 = c2)
                                || negb (bool_decide
                                           (is_Some (drop_prefix c1 c2))))
                   chars) chars = true →
  prefix_free chars.
Proof.
  intros Hc c1 c2 r1 r2 H1 H2 E.
  rewrite forallb_forall in Hc.
  assert (Hp : ∀ x y, x ∈ chars → y ∈ chars →
                 is_Some (drop_prefix x y) → x = y).
  { intros x y Hx Hy Hs.
    specialize (Hc x (proj1 (list_elem_of_In _ _) Hx)).
    rewrite forallb_forall in Hc.
    specialize (Hc y (proj1 (list_elem_of_In _ _) Hy)).
    apply orb_true_iff in Hc as [Hc|Hc].
    - now apply bool_decide_eq_true in Hc.
    - apply negb_true_iff, bool_decide_eq_false in Hc. contradiction. }
  destruct (common_prefix c1 c2 r1 r2 E) as [Hs|Hs]; [|symmetry]; auto.
Qed.

(** A run of the characters before a text that none of them begins is
    taken away whole. *)
Lemma lstrip_chars_complete chars (l t : string) :
  prefix_free chars → Forall (λ c, c ≠ "") chars →
  (∀ c, c ∈ chars → drop_prefix c t = None) →
  blank_in chars l →
  ∀ fuel, String.length l ≤ fuel → lstrip_chars fuel chars (l +:+ t) = t.
Proof.
  intros Hpf Hne Ht Hl. induction Hl as [|w s Hw Hs IH]; intros fuel Hf.
  - rewrite append_nil_l. destruct fuel as [|fuel]; [reflexivity|]. simpl.
    destruct (head (omap (λ c, drop_prefix c t) chars)) as [rest|] eqn:E;
      [|reflexivity].
    apply head_Some_elem_of, list_elem_of_omap in E as (c & Hc & Hd).
    rewrite (Ht c Hc) in Hd. discriminate.
  - rewrite Forall_forall in Hne. pose proof (Hne w Hw) as Hw0.
    rewrite length_append in Hf.
    destruct fuel as [|fuel].
    { destruct w; [congruence|simpl in Hf; lia]. }
    simpl. rewrite append_assoc.
    destruct (head (omap (λ c, drop_prefix c (w +:+ s +:+ t)) chars))
      as [rest|] eqn:E.
    + apply head_Some_elem_of, list_elem_of_omap in E as (c & Hc & Hd).
      apply drop_prefix_Some in Hd.
      assert (c = w) as -> by (symmetry in Hd; eapply Hpf; eauto).
      apply append_inv_head in Hd as <-. apply IH.
      destruct w; [congruence|simpl in Hf; lia].
    + apply head_None in E.
      assert (Hin : s +:+ t ∈ omap (λ c, drop_prefix c (w +:+ s +:+ t)) chars).
      { apply list_elem_of_omap. exists w. split; [exact Hw|].
        now apply drop_prefix_Some. }
      rewrite E in Hin. inversion Hin.
Qed.

Lemma first_byte_differs chars (a : ascii) (t : string) :
  forallb (λ w, match w with
                | String b _ => negb (Ascii.eqb b a)
                | EmptyString => false
                end) chars = true →
  ∀ c, c ∈ chars → drop_prefix c (String a t) = None.
Proof.
  intros Hc c Hin. rewrite forallb_forall in Hc.
  specialize (Hc c (proj1 (list_elem_of_In _ _) Hin)).
  destruct c as [|b c]; [discriminate|]. simpl.
  apply negb_true_iff in Hc. now rewrite Hc.
Qed.

Lemma whitespace_prefix_free : prefix_free whitespace.
Proof. apply prefix_free_check. vm_compute. reflexivity. Qed.

Lemma whitespace_rev_prefix_free : prefix_free (String.rev <$> whitespace).
Proof. apply prefix_free_check. vm_compute. reflexivity. Qed.

Lemma whitespace_nonempty : Forall (λ c, c ≠ "") whitespace.
Proof. apply Forall_forall. intros c Hc ->. revert Hc. apply (bool_decide_unpack _). vm_compute. exact I. Qed.

(** [strip] takes away whitespace only, and from the two ends only. *)
Lemma strip_padded (n : string) : padded (strip n) n.
Proof.
  unfold strip, lstrip, rstrip.
  destruct (lstrip_chars_sound whitespace (String.length n) n)
    as (l & Hl & Hn).
  set (m := lstrip_chars (String.length n) whitespace n) in *.
  destruct (lstrip_chars_sound (String.rev <$> whitespace) (String.length m)
              (String.rev m)) as (l' & Hl' & Hm).
  set (x := lstrip_chars (String.length m) (String.rev <$> whitespace)
              (String.rev m)) in *.
  exists l, (String.rev l'). split; [exact Hl|].
  split; [now apply blank_in_rev_inv|].
  rewrite Hn at 1. f_equal.
  rewrite <- (rev_involutive m), Hm, rev_append. reflexivity.
Qed.

(** [strip] takes away all the whitespace around a text that neither
    begins nor ends with whitespace. *)
Lemma padded_strip (c n : string) (a b : ascii) (t t' : string) :
  c = String a t → String.rev c = String b t' →
  forallb (λ w, match w with
                | String x _ => negb (Ascii.eqb x a)
                | EmptyString => false
                end) whitespace = true →
  forallb (λ w, match w with
                | String x _ => negb (Ascii.eqb x b)
                | EmptyString => false
                end) (String.rev <$> whitespace) = true →
  padded c n → strip n = c.
Proof.
  intros Hc Hrc Ha Hb (l & r & Hl & Hr & ->).
  unfold strip.
  assert (E1 : lstrip (l +:+ c +:+ r) = c +:+ r).
  { unfold lstrip. apply lstrip_chars_complete.
    - apply whitespace_prefix_free.
    - apply whitespace_nonempty.
    - rewrite Hc, append_cons. now apply first_byte_differs.
    - exact Hl.
    - rewrite length_append. lia. }
  rewrite E1. unfold rstrip. rewrite rev_append.
  rewrite <- (append_nil_r (String.rev c)) at 1.
  rewrite lstrip_chars_complete.
  - rewrite append_nil_r. apply rev_involutive.
  - apply whitespace_rev_prefix_free.
  - apply Forall_fmap. eapply Forall_impl; [apply whitespace_nonempty|].
    intros w Hw E. apply Hw. rewrite <- (rev_involutive w), E. reflexivity.
  - rewrite append_nil_r, Hrc. now apply first_byte_differs.
  - now apply blank_in_rev.
  - rewrite length_rev, length_append. lia.
Qed.

(** For the four required names, a header name is stripped to the name
    exactly when it is the name with whitespace around it. *)
Lemma strip_required (c n : string) :
  c ∈ ["Department"; "Average_Salary"; "Min_Salary"; "Max_Salary"] →
  strip n = c ↔ padded c n.
Proof.
  intros Hc. split; [intros <-; apply strip_padded|].
  rewrite !elem_of_cons, elem_of_nil in Hc.
  destruct Hc as [->|[->|[->|[->|[]]]]];
    eapply padded_strip; try reflexivity.
Qed.

End StripFacts.

(** ** The loader and the schema check *)

Module Loader.
Import StripFacts.

(** C8: with no uploaded file, [load_data] gives the embedded dataset: the
    four columns and nine rows, IT to Customer Service, with the values
    listed for the default dataset. *)
Theorem load_data_default :
  ∃ df, load_data None = Ok df ∧
    length (df_rows df) = 9 ∧
    df_columns df =
      ["Department"; "Average_Salary"; "Min_Salary"; "Max_Salary"] ∧
    df_rows df =
      [[CStr "IT"; CNum 28560.182889; CNum 10544.19; CNum 115178.51];
       [CStr "Finance"; CNum 28055.533689; CNum 8987.86; CNum 101294.41];
       [CStr "Logistics/Warehousing"; CNum 27574.698600; CNum 9027.53;
        CNum 153451.58];
       [CStr "Store Operations"; CNum 27404.359873; CNum 8848.62;
        CNum 177873.61];
       [CStr "Fresh Produce"; CNum 26915.946969; CNum 8998.42;
        CNum 110475.60];
       [CStr "Marketing"; CNum 26796.816800; CNum 9736.23; CNum 65923.63];
       [CStr "HR"; CNum 26539.921733; CNum 8823.46; CNum 58951.29];
       [CStr "Meat/Fish & Bakery"; CNum 26535.722133; CNum 8867.88;
        CNum 116453.67];
       [CStr "Customer Service"; CNum 26244.393800; CNum 9449.99;
        CNum 50949.01]].
Proof. eexists. split; [vm_compute; reflexivity|]. repeat split. Qed.

(** *** The loader over any reader *)

Section Pandas.
Variable read_csv : string → Result DataFrame.
Variable to_numeric : list Cell → list Cell.

Local Abbreviation coerce := (Loading.coerce_column to_numeric).
Local Abbreviation load := (Loading.load_data read_csv to_numeric).
Local Abbreviation step :=
  (λ (acc : Result DataFrame) (c : string),
     match acc with
     | Ok df => coerce c df
     | Raise e => Raise e
     end).

(** The name [c] is borne by two columns. *)
Local Abbreviation repeated c columns :=
  (∃ i j : nat, i ≠ j ∧ columns !! i = Some c ∧ columns !! j = Some c).

Lemma positions_elem (c : string) (columns : list string) j :
  j ∈ Loading.positions c columns ↔ columns !! j = Some c.
Proof.
  unfold Loading.positions. rewrite list_elem_of_filter, elem_of_seq.
  split; [tauto|]. intros H. split; [exact H|].
  apply lookup_lt_Some in H. lia.
Qed.

Lemma positions_NoDup (c : string) (columns : list string) :
  NoDup (Loading.positions c columns).
Proof. apply NoDup_filter, NoDup_seq. Qed.

(** One step of the loop: the column is converted when its name is borne
    once, the frame is left alone when it is absent, and [pd.to_numeric]
    raises when it is repeated. *)
Lemma coerce_column_cases (c : string) (df : DataFrame) :
  (¬ repeated c (df_columns df) ∧
   ∃ df', coerce c df = Ok df' ∧ df_columns df' = df_columns df) ∨
  (repeated c (df_columns df) ∧ coerce c df = Raise Loading.not_a_column).
Proof.
  unfold Loading.coerce_column.
  pose proof (positions_elem c (df_columns df)) as He.
  pose proof (positions_NoDup c (df_columns df)) as Hn.
  destruct (Loading.positions c (df_columns df)) as [|j [|j' l]].
  - left. split; [|eauto]. intros (i & _ & _ & Hi & _).
    apply He in Hi. inversion Hi.
  - left. split; [|eauto]. intros (i & i' & Hne & Hi & Hi').
    apply He, list_elem_of_singleton in Hi.
    apply He, list_elem_of_singleton in Hi'. congruence.
  - right. split; [|reflexivity]. exists j, j'. split.
    + intros ->. apply NoDup_cons in Hn as [Hn _]. apply Hn. left.
    + split; apply He; [left|right; left].
Qed.

Lemma step_raise (names : list string) (e : Exn) :
  foldl step (Raise e) names = Raise e.
Proof. induction names as [|c names IH]; [reflexivity|exact IH]. Qed.

(** The loop: it ends normally, with the column names as they were, when
    none of the names is repeated, and raises otherwise. *)
Lemma coerce_loop (names : list string) (df : DataFrame) :
  (Forall (λ c, ¬ repeated c (df_columns df)) names ∧
   ∃ df', foldl step (Ok df) names = Ok df' ∧
          df_columns df' = df_columns df) ∨
  (Exists (λ c, repeated c (df_columns df)) names ∧
   foldl step (Ok df) names = Raise Loading.not_a_column).
Proof.
  revert df. induction names as [|c names IH]; intros df.
  { left. split; [constructor|eauto]. }
  cbn [foldl].
  destruct (coerce_column_cases c df) as [(Hc & df1 & -> & Hcols)|(Hc & ->)].
  - destruct (IH df1) as [(Hall & df' & Hdf' & Hcols')|(Hex & Hr)];
      rewrite Hcols in *.
    + left. split; [now constructor|]. exists df'. split; [exact Hdf'|].
      congruence.
    + right. split; [now right|exact Hr].
  - right. split; [now left|]. apply step_raise.
Qed.

Lemma gate_required (columns : list string) :
  required_cols ⊆ list_to_set columns ↔
  ∀ c, c ∈ ["Department"; "Average_Salary"; "Min_Salary"; "Max_Salary"] →
       c ∈ columns.
Proof.
  rewrite <- Forall_forall. unfold required_cols.
  rewrite !Forall_cons, Forall_nil.
  rewrite !union_subseteq, !singleton_subseteq_l, !elem_of_list_to_set.
  tauto.
Qed.


End Pandas.


(** The header [dept, AVG, MIN, MAX] is rejected, and so is a header that
    differs from the required names in letter case only; surrounding
    blanks alone do no harm. *)
Lemma schema_gate_examples :
  (∃ df error,
     load_data (Some "dept, AVG, MIN, MAX
IT,28560.18,10544.19,115178.51
") = Ok df ∧ schema_gate df = Stopped error) ∧
  (∃ df error,
     load_data (Some "department,average_salary,min_salary,max_salary
IT,28560.18,10544.19,115178.51
") = Ok df ∧ schema_gate df = Stopped error) ∧
  (∃ df,
     load_data (Some " Department , Average_Salary,Min_Salary ,Max_Salary
IT,28560.18,10544.19,115178.51
") = Ok df ∧ schema_gate df = Continue df).
Proof.
  split; [|split].
  - eexists _, _. split; [vm_compute; reflexivity|]. vm_compute. reflexivity.
  - eexists _, _. split; [vm_compute; reflexivity|]. vm_compute. reflexivity.
  - eexists. split; [vm_compute; reflexivity|]. vm_compute. reflexivity.
Qed.


End Loader.

(** ** Sorting: the facts *)

Module SortingFacts.
Import Sorting Float64 Float64Facts.

(** *** Indexing *)

Lemma take_Some {A} (a : list A) (ix : list nat) (out : list A) :
  take a ix = Some out ↔ Forall2 (λ i x, a !! i = Some x) ix out.
Proof. apply mapM_Some. Qed.

Lemma take_app {A} (a : list A) ix1 ix2 out1 out2 :
  take a ix1 = Some out1 → take a ix2 = Some out2 →
  take a (ix1 ++ ix2) = Some (out1 ++ out2).
Proof. rewrite !take_Some. apply Forall2_app. Qed.

Lemma take_reverse {A} (a : list A) ix out :
  take a ix = Some out → take a (reverse ix) = Some (reverse out).
Proof. rewrite !take_Some. apply Forall2_reverse. Qed.

Lemma take_fmap {A B} (f : A → B) (a : list A) ix out :
  take a ix = Some out → take (f <$> a) ix = Some (f <$> out).
Proof.
  rewrite !take_Some. intros H. apply Forall2_fmap_r.
  eapply Forall2_impl; [exact H|]. intros i x Hx. simpl.
  now rewrite list_lookup_fmap, Hx.
Qed.

(** Reading [a] along [ix] and the result along [p] is reading [a] along
    [ix] read along [p]. *)
Lemma take_take {A} (a : list A) ix rows p ix' :
  take a ix = Some rows → take ix p = Some ix' →
  take a ix' = take rows p.
Proof.
  intros Ha Hp. apply take_Some in Ha. apply take_Some in Hp.
  revert ix' Hp. induction p as [|j p IH]; intros ix' Hp.
  { inversion Hp. reflexivity. }
  inversion Hp as [|? i ? ix'' Hj Hp']; subst.
  unfold take in *. simpl.
  destruct (Forall2_lookup_l _ _ _ _ _ Ha Hj) as (x & Hx & Hax).
  rewrite Hax, Hx. simpl. now rewrite (IH _ Hp').
Qed.

(** Along a rearrangement of all positions one reads a rearrangement of
    the list. *)
Lemma take_seq {A} (a : list A) : take a (seq 0 (length a)) = Some a.
Proof.
  apply take_Some. apply Forall2_same_length_lookup. split.
  { now rewrite length_seq. }
  intros i j x Hj Hx. apply lookup_seq in Hj as [-> _]. exact Hx.
Qed.

Lemma take_Permutation {A} (a : list A) p q out :
  p ≡ₚ q → take a p = Some out → ∃ out', take a q = Some out' ∧ out ≡ₚ out'.
Proof.
  intros Hpq. revert out.
  induction Hpq as [|i p q _ IH|i j p|p q r _ IH1 _ IH2]; intros out Hout.
  - exists out. split; [assumption|reflexivity].
  - unfold take in *. simpl in *.
    destruct (a !! i) as [x|]; [|discriminate]. simpl in *.
    destruct (mapM _ p) as [o|] eqn:Ho; [|discriminate]. simpl in *.
    injection Hout as <-.
    destruct (IH o eq_refl) as (o' & -> & Hoo). simpl.
    exists (x :: o'). split; [reflexivity|]. now constructor.
  - unfold take in *. simpl in *.
    destruct (a !! i) as [x|]; [|destruct (a !! j); discriminate].
    destruct (a !! j) as [y|]; [|discriminate]. simpl in *.
    destruct (mapM _ p) as [o|] eqn:Ho; [|discriminate]. simpl in *.
    injection Hout as <-.
    exists (x :: y :: o). split; [reflexivity|]. apply perm_swap.
  - destruct (IH1 _ Hout) as (o1 & H1 & P1).
    destruct (IH2 _ H1) as (o2 & H2 & P2).
    exists o2. split; [assumption|]. now rewrite P1.
Qed.

Lemma take_all {A} (a : list A) p :
  p ≡ₚ seq 0 (length a) → ∃ out, take a p = Some out ∧ out ≡ₚ a.
Proof.
  intros Hp. symmetry in Hp.
  destruct (take_Permutation a _ _ _ Hp (take_seq a)) as (out & Ho & Hperm).
  exists out. split; [assumption|]. now symmetry.
Qed.

(** *** Masks *)

Lemma bool_index_cons {A} (x : A) a (b : bool) mask :
  bool_index (x :: a) (b :: mask) =
  if b then x :: bool_index a mask else bool_index a mask.
Proof.
  unfold bool_index. simpl. rewrite filter_cons. now destruct b.
Qed.

Lemma bool_index_fmap {A} (f : A → bool) (a : list A) :
  bool_index a (f <$> a) = filter (λ x, f x = true) a.
Proof.
  induction a as [|x a IH]; [reflexivity|].
  rewrite fmap_cons, bool_index_cons, filter_cons, IH.
  now destruct (f x).
Qed.

Lemma take_bool_index_seq {A} (pre a : list A) (mask : list bool) :
  take (pre ++ a) (bool_index (seq (length pre) (length a)) mask) =
  Some (bool_index a mask).
Proof.
  revert pre mask. induction a as [|x a IH]; intros pre mask.
  { reflexivity. }
  destruct mask as [|b mask].
  { reflexivity. }
  simpl length. simpl seq. rewrite !bool_index_cons.
  specialize (IH (pre ++ [x]) mask).
  rewrite length_app, <- app_assoc in IH. simpl in IH.
  replace (length pre + 1) with (S (length pre)) in IH by lia.
  destruct b; [|exact IH].
  unfold take in *. simpl.
  rewrite list_lookup_middle by reflexivity. simpl. now rewrite IH.
Qed.

Lemma take_bool_index {A} (a : list A) (mask : list bool) :
  take a (bool_index (seq 0 (length a)) mask) = Some (bool_index a mask).
Proof. apply (take_bool_index_seq [] a mask). Qed.

Lemma bool_index_fmap_l {A B} (f : A → B) (a : list A) (mask : list bool) :
  bool_index (f <$> a) mask = f <$> bool_index a mask.
Proof.
  revert mask. induction a as [|x a IH]; intros [|b mask]; try reflexivity.
  rewrite fmap_cons, !bool_index_cons, IH. now destruct b.
Qed.

(** *** Sorted lists *)

Lemma StronglySorted_fmap_inv {A B} (f : A → B) (R : relation B) l :
  StronglySorted R (f <$> l) → StronglySorted (λ x y, R (f x) (f y)) l.
Proof.
  induction l as [|x l IH]; [constructor|].
  rewrite fmap_cons, !StronglySorted_cons, Forall_fmap. intros [H1 H2].
  split; [exact H1|auto].
Qed.

Lemma StronglySorted_reverse {A} (R : relation A) l :
  StronglySorted R l → StronglySorted (flip R) (reverse l).
Proof.
  induction 1 as [|x l Hl IH Hx]; [constructor|].
  rewrite reverse_cons. apply StronglySorted_app.
  split; [|split; [exact IH|repeat constructor]].
  intros y z Hy Hz. apply list_elem_of_singleton in Hz as ->.
  rewrite elem_of_reverse in Hy. rewrite Forall_forall in Hx.
  unfold flip. apply Hx, Hy.
Qed.

Lemma filter_all {A} (P : A → Prop) `{!∀ x, Decision (P x)} (l : list A) :
  Forall P l → filter P l = l.
Proof.
  induction 1 as [|x l Hx _ IH]; [reflexivity|].
  now rewrite filter_cons_True, IH.
Qed.

Lemma filter_none {A} (P : A → Prop) `{!∀ x, Decision (P x)} (l : list A) :
  Forall (λ x, ¬ P x) l → filter P l = [].
Proof.
  induction 1 as [|x l Hx _ IH]; [reflexivity|].
  now rewrite filter_cons_False.
Qed.

(** *** One column, one direction *)

Section SortValues.
Context {K : Type}.
Variable lt : K → K → bool.
Variable isna : K → bool.
Variable argsort : list K → list nat.
Variable column : SalaryRow → K.
Hypothesis contract : argsort_contract lt (λ k, isna k = false) argsort.

Local Abbreviation present := (filter (λ r, isna (column r) = false)).
Local Abbreviation missing := (filter (λ r, isna (column r) = true)).
Local Abbreviation ordered :=
  (StronglySorted (λ r1 r2, lt (column r2) (column r1) = false)).

Lemma present_mask (df : Table) :
  bool_index df (negb <$> (isna <$> (column <$> df))) = present df.
Proof.
  rewrite <- !list_fmap_compose, bool_index_fmap.
  apply list_filter_iff. intros r. simpl. now destruct (isna (column r)).
Qed.

Lemma missing_mask (df : Table) :
  bool_index df (isna <$> (column <$> df)) = missing df.
Proof. now rewrite <- !list_fmap_compose, bool_index_fmap. Qed.

(** The sorted table: the rows with a present key, rearranged into
    ascending order and reversed for a descending sort, then the rows
    with a missing key as they stood. *)
Lemma sort_values_spec (asc : bool) (df : Table) :
  ∃ S, sort_values isna argsort column asc df =
         Some ((if asc then S else reverse S) ++ missing df) ∧
       S ≡ₚ present df ∧ ordered S.
Proof.
  pose (A1 := if asc then present df else reverse (present df)).
  pose (ix := bool_index (seq 0 (length (column <$> df)))
                (negb <$> (isna <$> (column <$> df)))).
  pose (ix1 := if asc then ix else reverse ix).
  assert (Hix : take df ix = Some (present df)).
  { unfold ix. rewrite length_fmap, take_bool_index. f_equal.
    apply present_mask. }
  assert (Hix1 : take df ix1 = Some A1).
  { unfold ix1, A1. destruct asc; [exact Hix|now apply take_reverse]. }
  assert (Hnan : take df (nonzero (isna <$> (column <$> df))) =
                 Some (missing df)).
  { unfold nonzero. rewrite !length_fmap, take_bool_index. f_equal.
    apply missing_mask. }
  assert (Hkeys : (if asc
                   then bool_index (column <$> df)
                          (negb <$> (isna <$> (column <$> df)))
                   else reverse (bool_index (column <$> df)
                          (negb <$> (isna <$> (column <$> df))))) =
                  column <$> A1).
  { unfold A1. rewrite bool_index_fmap_l, present_mask.
    destruct asc; [reflexivity|now rewrite fmap_reverse]. }
  pose (p := argsort (column <$> A1)).
  assert (Hp : p ≡ₚ seq 0 (length A1)).
  { unfold p. rewrite (argsort_perm _ _ _ contract). now rewrite length_fmap. }
  assert (Hlen : length ix1 = length A1).
  { apply (length_mapM _ _ _ Hix1). }
  destruct (take_all ix1 p) as (indexer & Hindexer & _).
  { now rewrite Hlen. }
  destruct (take_all A1 p Hp) as (S & HS & HSperm).
  assert (Hrows : take df indexer = Some S).
  { rewrite (take_take df ix1 A1 p indexer Hix1 Hindexer). exact HS. }
  exists S. split; [|split].
  - unfold sort_values, nargsort. cbv zeta.
    rewrite Hkeys. fold ix. fold ix1. fold p. rewrite Hindexer. simpl.
    apply take_app; [|exact Hnan].
    destruct asc; [exact Hrows|now apply take_reverse].
  - rewrite HSperm. unfold A1. destruct asc; [reflexivity|].
    apply reverse_Permutation.
  - apply (StronglySorted_fmap_inv column (ascending lt)).
    apply (argsort_sorted _ _ _ contract (column <$> A1)).
    + apply Forall_fmap, Forall_forall. intros r Hr. simpl.
      assert (Hr' : r ∈ present df).
      { unfold A1 in Hr. destruct asc; [exact Hr|].
        now rewrite elem_of_reverse in Hr. }
      now apply list_elem_of_filter in Hr' as [? _].
    + fold p. now apply take_fmap.
Qed.

(** Sorting twice, when the present keys of no two rows are equal. *)
Lemma sort_values_idem (asc : bool) (df : Table) :
  (∀ r1 r2, r1 ∈ present df → r2 ∈ present df →
            lt (column r2) (column r1) = false →
            lt (column r1) (column r2) = false → r1 = r2) →
  ∃ out, sort_values isna argsort column asc df = Some out ∧
         sort_values isna argsort column asc out = Some out.
Proof.
  intros Hdist.
  destruct (sort_values_spec asc df) as (S & Hout & HS & Hord).
  set (S' := if asc then S else reverse S) in *.
  exists (S' ++ missing df). split; [exact Hout|].
  destruct (sort_values_spec asc (S' ++ missing df)) as (T & Hout2 & HT & Hord2).
  assert (HS' : S' ≡ₚ present df).
  { unfold S'. destruct asc; [exact HS|]. now rewrite reverse_Permutation. }
  assert (Hp : present (S' ++ missing df) = S').
  { rewrite filter_app, filter_all, filter_none, app_nil_r; [reflexivity| |].
    - apply Forall_forall. intros r Hr.
      apply list_elem_of_filter in Hr as [-> _]. discriminate.
    - apply Forall_forall. intros r Hr. rewrite HS' in Hr.
      now apply list_elem_of_filter in Hr as [? _]. }
  assert (Hm : missing (S' ++ missing df) = missing df).
  { rewrite filter_app, filter_none, filter_all; [reflexivity| |].
    - apply Forall_forall. intros r Hr.
      now apply list_elem_of_filter in Hr as [? _].
    - apply Forall_forall. intros r Hr. rewrite HS' in Hr.
      apply list_elem_of_filter in Hr as [-> _]. discriminate. }
  rewrite Hp in HT. rewrite Hm in Hout2.
  assert (T = S) as ->.
  { apply (StronglySorted_unique_strong
             (λ r1 r2, lt (column r2) (column r1) = false) T S);
      [|assumption|assumption|].
    - intros r1 r2 H1 H2. apply Hdist.
      + now rewrite <- HS', <- HT.
      + now rewrite <- HS.
    - rewrite HT, HS'. now symmetry. }
  exact Hout2.
Qed.

End SortValues.

(** *** The sorter by insertion meets the contract *)

Section Insertion.
Context {K : Type}.
Variable lt : K → K → bool.
Variable valid : K → Prop.
Hypothesis lt_asym :
  ∀ a b, valid a → valid b → lt a b = true → lt b a = false.
Hypothesis ascending_trans :
  ∀ a b c, valid a → valid b → valid c →
           ascending lt a b → ascending lt b c → ascending lt a c.

Local Abbreviation by_key := (λ p q : nat * K, ascending lt p.2 q.2).

Lemma insert_by_Permutation (x : nat * K) l : insert_by lt x l ≡ₚ x :: l.
Proof.
  induction l as [|y l IH]; [reflexivity|]. simpl.
  destruct (lt y.2 x.2); [|reflexivity].
  rewrite IH. apply perm_swap.
Qed.

Lemma insert_by_sorted (x : nat * K) l :
  valid x.2 → Forall (λ p, valid p.2) l →
  StronglySorted by_key l → StronglySorted by_key (insert_by lt x l).
Proof.
  intros Hx Hl Hs. induction Hs as [|y l Hs IH Hy]; simpl.
  { repeat constructor. }
  apply Forall_cons in Hl as [Hvy Hl].
  destruct (lt y.2 x.2) eqn:Hlt.
  - constructor; [now apply IH|].
    rewrite insert_by_Permutation. constructor; [|exact Hy].
    unfold ascending. now apply lt_asym.
  - constructor; [now constructor|].
    constructor; [exact Hlt|].
    rewrite Forall_forall in Hy, Hl. apply Forall_forall. intros z Hz.
    apply (ascending_trans x.2 y.2 z.2); auto.
Qed.

Lemma isort_Permutation (ps : list (nat * K)) :
  foldr (insert_by lt) [] ps ≡ₚ ps.
Proof.
  induction ps as [|x ps IH]; [reflexivity|]. simpl.
  now rewrite insert_by_Permutation, IH.
Qed.

Lemma isort_sorted (ps : list (nat * K)) :
  Forall (λ p, valid p.2) ps →
  StronglySorted by_key (foldr (insert_by lt) [] ps).
Proof.
  induction 1 as [|x ps Hx Hps IH]; [constructor|]. simpl.
  apply insert_by_sorted; [assumption| |assumption].
  now rewrite isort_Permutation.
Qed.

Lemma zip_seq_lookup (l : list K) (p : nat * K) :
  p ∈ zip (seq 0 (length l)) l → l !! p.1 = Some p.2.
Proof.
  intros Hp. apply list_elem_of_lookup in Hp as [j Hj].
  apply lookup_zip_with_Some in Hj as (i & k & -> & Hi & Hk).
  apply lookup_seq in Hi as [-> _]. exact Hk.
Qed.

Lemma take_pairs (l : list K) (ps : list (nat * K)) :
  Forall (λ p, l !! p.1 = Some p.2) ps → take l ps.*1 = Some ps.*2.
Proof.
  intros H. apply take_Some. induction H; constructor; assumption.
Qed.

Lemma insertion_argsort_contract :
  argsort_contract lt valid (insertion_argsort lt).
Proof.
  split.
  - intros l. unfold insertion_argsort.
    rewrite isort_Permutation, fst_zip; [reflexivity|].
    now rewrite length_seq.
  - intros l out Hl Hout. unfold insertion_argsort in Hout.
    set (ps := foldr (insert_by lt) [] (zip (seq 0 (length l)) l)) in *.
    assert (Hps : Forall (λ p, l !! p.1 = Some p.2) ps).
    { apply Forall_forall. intros p Hp. apply zip_seq_lookup.
      unfold ps in Hp. now rewrite isort_Permutation in Hp. }
    rewrite (take_pairs l ps Hps) in Hout. injection Hout as <-.
    apply (StronglySorted_fmap snd by_key).
    { auto. }
    apply isort_sorted. apply Forall_forall. intros p Hp.
    apply zip_seq_lookup in Hp. rewrite Forall_forall in Hl.
    apply Hl. eapply list_elem_of_lookup_2, Hp.
Qed.

End Insertion.

Lemma contract_weaken {K} (lt : K → K → bool) (valid valid' : K → Prop)
    argsort :
  (∀ k, valid' k → valid k) →
  argsort_contract lt valid argsort → argsort_contract lt valid' argsort.
Proof.
  intros Hv [Hp Hs]. split; [exact Hp|].
  intros l out Hl. apply Hs. eapply Forall_impl; [exact Hl|exact Hv].
Qed.

(** Strings under [String.ltb]. *)

Lemma string_compare_trans (a b c : string) :
  String.compare a b ≠ Gt → String.compare b c ≠ Gt →
  String.compare a c ≠ Gt.
Proof.
  revert b c. induction a as [|x a IH]; intros [|y b] [|z c]; simpl;
    try congruence.
  unfold Ascii.compare.
  destruct (N.compare_spec (N_of_ascii x) (N_of_ascii y)) as [Exy|Lxy|Gxy];
    destruct (N.compare_spec (N_of_ascii y) (N_of_ascii z)) as [Eyz|Lyz|Gyz];
    destruct (N.compare_spec (N_of_ascii x) (N_of_ascii z)) as [Exz|Lxz|Gxz];
    try congruence; try lia.
  apply IH.
Qed.

Lemma string_ltb_asym (a b : string) :
  String.ltb a b = true → String.ltb b a = false.
Proof.
  unfold String.ltb. rewrite (String.compare_antisym a b).
  now destruct (String.compare b a).
Qed.

Lemma string_ascending_trans (a b c : string) :
  ascending String.ltb a b → ascending String.ltb b c →
  ascending String.ltb a c.
Proof.
  unfold ascending, String.ltb. intros Hab Hbc.
  pose proof (string_compare_trans a b c) as T.
  rewrite (String.compare_antisym c a).
  rewrite (String.compare_antisym b a) in Hab.
  rewrite (String.compare_antisym c b) in Hbc.
  destruct (String.compare a b), (String.compare b c),
    (String.compare a c); simpl in *; try reflexivity; try discriminate;
    exfalso; apply T; congruence.
Qed.

Lemma insertion_argsort_str_contract :
  argsort_contract String.ltb (λ _, True) (insertion_argsort String.ltb).
Proof.
  apply insertion_argsort_contract.
  - intros a b _ _. apply string_ltb_asym.
  - intros a b c _ _ _. apply string_ascending_trans.
Qed.

(** Numbers under [<]. *)

Lemma float_ltb_asym (a b : float) :
  is_nan a = false → is_nan b = false →
  (a <? b)%float = true → (b <? a)%float = false.
Proof.
  intros Ha Hb. rewrite !ltb_key by assumption.
  rewrite (lex_compare_antisym (fkey a)). now destruct (lex_compare _ _).
Qed.

Lemma float_ascending_trans (a b c : float) :
  is_nan a = false → is_nan b = false → is_nan c = false →
  ascending PrimFloat.ltb a b → ascending PrimFloat.ltb b c →
  ascending PrimFloat.ltb a c.
Proof.
  unfold ascending. intros Ha Hb Hc.
  rewrite (ltb_negb_leb a b), (ltb_negb_leb b c), (ltb_negb_leb a c)
    by assumption.
  rewrite !negb_false_iff. now apply leb_trans.
Qed.

Lemma insertion_argsort_float_contract :
  argsort_contract PrimFloat.ltb (λ x, is_nan x = false)
    (insertion_argsort PrimFloat.ltb).
Proof.
  apply insertion_argsort_contract.
  - apply float_ltb_asym.
  - apply float_ascending_trans.
Qed.

(** *** The script's three-way sort *)

Lemma StronglySorted_impl {A} (R1 R2 : relation A) l :
  (∀ x y, R1 x y → R2 x y) → StronglySorted R1 l → StronglySorted R2 l.
Proof.
  intros HR. induction 1 as [|x l _ IH Hx]; constructor; [exact IH|].
  eapply Forall_impl; [exact Hx|]. apply HR.
Qed.

(** The three branches of [sort_by_choice], by what the choice says of the
    key. *)
Lemma sort_choice_cases (sort_choice : string) :
  (String.eqb sort_choice "Average (desc)" = true ∧
   by_average sort_choice = true) ∨
  (String.eqb sort_choice "Average (desc)" = false ∧
   String.eqb sort_choice "Average (asc)" = true ∧
   by_average sort_choice = true) ∨
  (String.eqb sort_choice "Average (desc)" = false ∧
   String.eqb sort_choice "Average (asc)" = false ∧
   by_average sort_choice = false).
Proof.
  unfold by_average.
  destruct (String.eqb sort_choice "Average (desc)");
    destruct (String.eqb sort_choice "Average (asc)"); auto.
Qed.

Lemma distinct_keys_elem (sort_choice : string) (df : Table) :
  distinct_keys sort_choice df = true →
  ∀ r1 r2, r1 ∈ df → r2 ∈ df →
    key_missing sort_choice r1 = false →
    key_missing sort_choice r2 = false →
    keys_differ sort_choice r1 r2 = false → r1 = r2.
Proof.
  assert (Hsym : ∀ a b, keys_differ sort_choice a b =
                        keys_differ sort_choice b a).
  { intros a b. unfold keys_differ.
    destruct (by_average sort_choice); apply orb_comm. }
  induction df as [|r df IH]; intros Hd r1 r2 H1 H2 M1 M2 Hk.
  { inversion H1. }
  simpl in Hd. apply andb_true_iff in Hd as [Hr Hd].
  rewrite forallb_forall in Hr.
  assert (Hin : ∀ r', r' ∈ df → key_missing sort_choice r = false →
                 key_missing sort_choice r' = false →
                 keys_differ sort_choice r r' = true).
  { intros r' Hr' Mr Mr'. apply list_elem_of_In in Hr'.
    specialize (Hr r' Hr'). rewrite Mr, Mr' in Hr. exact Hr. }
  apply elem_of_cons in H1 as [->|H1]; apply elem_of_cons in H2 as [->|H2].
  - reflexivity.
  - rewrite (Hin r2 H2 M1 M2) in Hk. discriminate.
  - rewrite Hsym, (Hin r1 H1 M2 M1) in Hk. discriminate.
  - now apply IH.
Qed.

Section SortChoice.
Variable argsort_float : list float → list nat.
Variable argsort_str : list string → list nat.
Hypothesis float_contract :
  argsort_contract PrimFloat.ltb (λ x, is_nan x = false) argsort_float.
Hypothesis str_contract :
  argsort_contract String.ltb (λ _, True) argsort_str.

Local Abbreviation sort := (sort_by_choice argsort_float argsort_str).

Lemma str_contract' :
  argsort_contract String.ltb (λ k, (λ _ : string, false) k = false)
    argsort_str.
Proof.
  apply (contract_weaken String.ltb (λ _, True)); [auto|exact str_contract].
Qed.

Lemma sort_unfold (sort_choice : string) (df : Table) :
  sort sort_choice df =
  if by_average sort_choice
  then sort_values is_nan argsort_float Average_Salary
         (negb (String.eqb sort_choice "Average (desc)")) df
  else sort_values (λ _, false) argsort_str Department true df.
Proof.
  unfold sort_by_choice, by_average.
  destruct (String.eqb sort_choice "Average (desc)"); [reflexivity|].
  now destruct (String.eqb sort_choice "Average (asc)").
Qed.

Lemma filter_missing_average (sort_choice : string) (b : bool) (df : Table) :
  by_average sort_choice = true →
  filter (λ r, is_nan (Average_Salary r) = b) df =
  filter (λ r, key_missing sort_choice r = b) df.
Proof.
  intros Hc. apply list_filter_iff. intros r.
  unfold key_missing. now rewrite Hc.
Qed.

Lemma filter_missing_department (sort_choice : string) (b : bool)
    (df : Table) :
  by_average sort_choice = false →
  filter (λ r, (λ _ : string, false) (Department r) = b) df =
  filter (λ r, key_missing sort_choice r = b) df.
Proof.
  intros Hc. apply list_filter_iff. intros r.
  unfold key_missing. now rewrite Hc.
Qed.

(** The shape of the sorted table: the rows with a present key in the
    order asked for, then the rows with a missing key as they stood. *)
Lemma sort_by_choice_spec (sort_choice : string) (df : Table) :
  ∃ present,
    sort sort_choice df =
      Some (present ++ filter (λ r, key_missing sort_choice r = true) df) ∧
    present ≡ₚ filter (λ r, key_missing sort_choice r = false) df ∧
    StronglySorted (in_order sort_choice) present.
Proof.
  rewrite sort_unfold.
  destruct (sort_choice_cases sort_choice)
    as [[E1 Ha]|[(E1 & E2 & Ha)|(E1 & E2 & Ha)]]; rewrite Ha, ?E1; simpl.
  - destruct (sort_values_spec PrimFloat.ltb is_nan argsort_float
                Average_Salary float_contract false df)
      as (S & Hout & HS & Hord).
    exists (reverse S).
    rewrite <- !(filter_missing_average sort_choice) by assumption.
    split; [exact Hout|]. split; [now rewrite reverse_Permutation|].
    apply StronglySorted_reverse in Hord.
    eapply StronglySorted_impl; [|exact Hord].
    intros x y. unfold in_order, flip. now rewrite E1.
  - destruct (sort_values_spec PrimFloat.ltb is_nan argsort_float
                Average_Salary float_contract true df)
      as (S & Hout & HS & Hord).
    exists S.
    rewrite <- !(filter_missing_average sort_choice) by assumption.
    split; [exact Hout|]. split; [exact HS|].
    eapply StronglySorted_impl; [|exact Hord].
    intros x y. unfold in_order. now rewrite E1, E2.
  - destruct (sort_values_spec String.ltb (λ _, false) argsort_str
                Department str_contract' true df)
      as (S & Hout & HS & Hord).
    exists S.
    rewrite <- !(filter_missing_department sort_choice) by assumption.
    split; [exact Hout|]. split; [exact HS|].
    eapply StronglySorted_impl; [|exact Hord].
    intros x y. unfold in_order. now rewrite E1, E2.
Qed.

(** The sorted table is a rearrangement of the input. *)
Lemma sort_by_choice_Permutation (sort_choice : string) (df out : Table) :
  sort sort_choice df = Some out → out ≡ₚ df.
Proof.
  destruct (sort_by_choice_spec sort_choice df) as (S & -> & HS & _).
  intros [= <-]. rewrite HS.
  rewrite (list_filter_iff (λ r, key_missing sort_choice r = true)
             (λ r, ¬ key_missing sort_choice r = false)).
  - apply filter_app_complement.
  - intros r. destruct (key_missing sort_choice r); split; congruence.
Qed.

(** C3, amended: under any argsort that meets numpy's contract, the sorted
    table is a rearrangement of the input: first the rows with a present
    key, in the order asked for (Average descending, Average ascending,
    Department ascending), then the rows whose Average is missing, in their
    input order.  The order among rows with equal present keys is left
    open. *)
Theorem sort_by_choice_ordered (sort_choice : string) (df : Table) :
  ∃ present,
    sort sort_choice df =
      Some (present ++ filter (λ r, key_missing sort_choice r = true) df) ∧
    present ≡ₚ filter (λ r, key_missing sort_choice r = false) df ∧
    StronglySorted (in_order sort_choice) present ∧
    present ++ filter (λ r, key_missing sort_choice r = true) df ≡ₚ df.
Proof.
  destruct (sort_by_choice_spec sort_choice df) as (S & Hout & HS & Hord).
  exists S. repeat split; try assumption.
  now apply (sort_by_choice_Permutation sort_choice).
Qed.

(** C7, amended: under any argsort that meets numpy's contract, and on a
    table in which no two rows have equal present keys, sorting the sorted
    table again with the same choice leaves it as it is. *)
Theorem sort_by_choice_idempotent (sort_choice : string) (df : Table) :
  distinct_keys sort_choice df = true →
  ∃ out, sort sort_choice df = Some out ∧ sort sort_choice out = Some out.
Proof.
  intros Hd. pose proof (distinct_keys_elem sort_choice df Hd) as Hel.
  rewrite sort_unfold.
  assert (Hout : ∀ out, (sort sort_choice out = Some out) =
    ((if by_average sort_choice
      then sort_values is_nan argsort_float Average_Salary
             (negb (String.eqb sort_choice "Average (desc)")) out
      else sort_values (λ _, false) argsort_str Department true out)
     = Some out)).
  { intros out. now rewrite sort_unfold. }
  destruct (by_average sort_choice) eqn:Ha.
  - destruct (sort_values_idem PrimFloat.ltb is_nan argsort_float
                Average_Salary float_contract
                (negb (String.eqb sort_choice "Average (desc)")) df)
      as (out & H1 & H2).
    + intros r1 r2 H1 H2 L1 L2.
      apply list_elem_of_filter in H1 as [M1 H1].
      apply list_elem_of_filter in H2 as [M2 H2].
      apply Hel; [assumption|assumption| | |].
      * unfold key_missing. now rewrite Ha.
      * unfold key_missing. now rewrite Ha.
      * unfold keys_differ. now rewrite Ha, L1, L2.
    + exists out. rewrite Hout. auto.
  - destruct (sort_values_idem String.ltb (λ _, false) argsort_str
                Department str_contract' true df)
      as (out & H1 & H2).
    + intros r1 r2 H1 H2 L1 L2.
      apply list_elem_of_filter in H1 as [_ H1].
      apply list_elem_of_filter in H2 as [_ H2].
      apply Hel; [assumption|assumption| | |].
      * unfold key_missing. now rewrite Ha.
      * unfold key_missing. now rewrite Ha.
      * unfold keys_differ. now rewrite Ha, L1, L2.
    + exists out. rewrite Hout. auto.
Qed.

End SortChoice.

(** C3, as stated, fails under numpy's introsort: eighteen rows with one
    and the same Average, sorted by Average, come out with the rows of
    positions 1 to 15 in reverse order, and so do eighteen rows of one and
    the same Department sorted by Department. *)
Lemma sort_not_stable :
  (∃ out,
     sort_by_choice npy_argsort_float npy_argsort_str "Average (asc)"
       tied_table = Some out ∧
     Department <$> out =
       ["D00"; "D15"; "D14"; "D13"; "D12"; "D11"; "D10"; "D09"; "D08";
        "D07"; "D06"; "D05"; "D04"; "D03"; "D02"; "D01"; "D16"; "D17"] ∧
     ¬ stable "Average (asc)" tied_table out) ∧
  (∃ out,
     sort_by_choice npy_argsort_float npy_argsort_str "Department (A-Z)"
       tied_departments = Some out ∧
     Average_Salary <$> out =
       [27000; 27015; 27014; 27013; 27012; 27011; 27010; 27009; 27008;
        27007; 27006; 27005; 27004; 27003; 27002; 27001; 27016;
        27017]%float ∧
     ¬ stable "Department (A-Z)" tied_departments out).
Proof.
  split.
  - eexists. split; [vm_compute; reflexivity|]. split; [reflexivity|].
    intros Hst.
    specialize (Hst (mkRow "D00" 27000 9000 60000)).
    apply (f_equal (fmap Department)) in Hst.
    vm_compute in Hst. discriminate.
  - eexists. split; [vm_compute; reflexivity|]. split; [reflexivity|].
    intros Hst.
    specialize (Hst (mkRow "Sales" 27000 9000 60000)).
    apply (f_equal (λ l, from_option (λ r, Average_Salary r =? 27001)%float
                           false (l !! 1))) in Hst.
    vm_compute in Hst. discriminate.
Qed.

(** C7, as stated, fails under numpy's introsort: sorting the sorted table
    of the eighteen tied rows once more changes their order again. *)
Lemma sort_twice_differs :
  ∃ once twice,
    sort_by_choice npy_argsort_float npy_argsort_str "Average (asc)"
      tied_table = Some once ∧
    sort_by_choice npy_argsort_float npy_argsort_str "Average (asc)"
      once = Some twice ∧
    Department <$> once =
      ["D00"; "D15"; "D14"; "D13"; "D12"; "D11"; "D10"; "D09"; "D08";
       "D07"; "D06"; "D05"; "D04"; "D03"; "D02"; "D01"; "D16"; "D17"] ∧
    Department <$> twice =
      ["D00"; "D01"; "D02"; "D03"; "D04"; "D05"; "D06"; "D07"; "D08";
       "D09"; "D10"; "D11"; "D12"; "D13"; "D14"; "D15"; "D16"; "D17"] ∧
    once ≠ twice.
Proof.
  eexists _, _. split; [vm_compute; reflexivity|].
  split; [vm_compute; reflexivity|].
  split; [reflexivity|]. split; [reflexivity|].
  intros H. apply (f_equal (fmap Department)) in H.
  vm_compute in H. discriminate.
Qed.

(** The embedded dataset as salary rows. *)
Lemma sort_by_choice_ordered_witness :
  ∃ present,
    sort_by_choice (insertion_argsort PrimFloat.ltb)
      (insertion_argsort String.ltb) "Average (asc)" default_table =
      Some (present ++
            filter (λ r, key_missing "Average (asc)" r = true)
              default_table) ∧
    present ≡ₚ
      filter (λ r, key_missing "Average (asc)" r = false) default_table ∧
    StronglySorted (in_order "Average (asc)") present ∧
    present ++ filter (λ r, key_missing "Average (asc)" r = true)
                 default_table ≡ₚ default_table.
Proof.
  apply (sort_by_choice_ordered _ _ insertion_argsort_float_contract
           insertion_argsort_str_contract "Average (asc)" default_table).
Defined.

Lemma sort_by_choice_idempotent_witness :
  ∃ out,
    sort_by_choice (insertion_argsort PrimFloat.ltb)
      (insertion_argsort String.ltb) "Department (A-Z)" default_table =
      Some out ∧
    sort_by_choice (insertion_argsort PrimFloat.ltb)
      (insertion_argsort String.ltb) "Department (A-Z)" out = Some out.
Proof.
  apply (sort_by_choice_idempotent _ _ insertion_argsort_float_contract
           insertion_argsort_str_contract "Department (A-Z)" default_table).
  vm_compute. reflexivity.
Defined.

End SortingFacts.

(** ** The sign of a difference *)

Module Float64Sub.
Import Float64 Float64Facts Float64Sign.

Lemma binary_round_aux_sign sx mx ex lx :
  let r := binary_round_aux prec emax sx mx ex lx in
  r = S754_nan ∨ r = S754_zero sx ∨ r = S754_infinity sx ∨
  ∃ m e, r = S754_finite sx m e.
Proof.
  unfold binary_round_aux.
  destruct (shr_fexp _ _ mx ex lx) as [mrs' e'].
  destruct (shr_fexp _ _ _ e' loc_Exact) as [mrs'' e''].
  destruct (shr_m mrs''); [auto|destruct (_ <=? _)%Z; eauto 6|auto].
Qed.

Lemma binary_normalize_nonneg m e :
  (0 <= m)%Z → SFnonneg (binary_normalize prec emax m e false) = true.
Proof.
  intros Hm. destruct m as [|p|p]; [reflexivity| |lia].
  unfold binary_normalize, binary_round.
  destruct (shl_align _ _ _) as [mz ez].
  destruct (binary_round_aux_sign false (Z.pos mz) ez loc_Exact)
    as [->|[->|[->|(m' & e' & ->)]]]; reflexivity.
Qed.

Lemma digits2_pos_bounds m :
  (2 ^ (Z.pos (digits2_pos m) - 1) <= Z.pos m < 2 ^ Z.pos (digits2_pos m))%Z.
Proof.
  induction m as [m IH|m IH|]; simpl digits2_pos.
  - rewrite Pos2Z.inj_succ.
    replace (Z.succ (Z.pos (digits2_pos m)) - 1)%Z
      with (Z.succ (Z.pos (digits2_pos m) - 1)) by lia.
    rewrite !Z.pow_succ_r by lia. lia.
  - rewrite Pos2Z.inj_succ.
    replace (Z.succ (Z.pos (digits2_pos m)) - 1)%Z
      with (Z.succ (Z.pos (digits2_pos m) - 1)) by lia.
    rewrite !Z.pow_succ_r by lia. lia.
  - simpl. lia.
Qed.

Lemma shl_align_value mx ex ez :
  (ez <= ex)%Z →
  Z.pos (shl_align mx ex ez).1 = (Z.pos mx * 2 ^ (ex - ez))%Z.
Proof.
  intros H. unfold shl_align.
  destruct (ez - ex)%Z as [|d|d] eqn:E; try lia.
  - replace (ex - ez)%Z with 0%Z by lia. simpl. lia.
  - simpl. change (Pos.iter xO mx d) with (shift_pos d mx).
    rewrite shift_pos_correct, Z.pow_pos_fold.
    replace (ex - ez)%Z with (Z.pos d) by lia. lia.
Qed.

(** A canonical mantissa has at most [prec] digits, and exactly [prec]
    above the least exponent. *)
Lemma canonical_digits m e :
  canonical_mantissa prec emax m e = true →
  (emin <= e ∧ Z.pos (digits2_pos m) <= prec ∧
   (emin < e → Z.pos (digits2_pos m) = prec))%Z.
Proof.
  unfold canonical_mantissa, fexp. intros H. apply Z.eqb_eq in H.
  unfold SpecFloat.emin in *. lia.
Qed.

(** Of two canonical mantissas the one with the greater exponent is the
    greater number. *)
Lemma canonical_exponent_order m1 e1 m2 e2 :
  canonical_mantissa prec emax m1 e1 = true →
  canonical_mantissa prec emax m2 e2 = true →
  (e2 < e1)%Z → (Z.pos m2 <= Z.pos m1 * 2 ^ (e1 - e2))%Z.
Proof.
  intros H1 H2 He.
  apply canonical_digits in H1 as (Hm1 & Hd1 & Hn1).
  apply canonical_digits in H2 as (Hm2 & Hd2 & _).
  pose proof (digits2_pos_bounds m1) as B1.
  pose proof (digits2_pos_bounds m2) as B2.
  rewrite Hn1 in B1 by lia.
  assert (Z.pos m2 < 2 ^ prec)%Z.
  { eapply Z.lt_le_trans; [apply B2|]. apply Z.pow_le_mono_r; lia. }
  assert (2 ^ 1 <= 2 ^ (e1 - e2))%Z by (apply Z.pow_le_mono_r; lia).
  change (2 ^ prec)%Z with (2 ^ (prec - 1) * 2 ^ 1)%Z in H.
  nia.
Qed.

Lemma SFsub_nonneg (A B : spec_float) :
  valid_binary A = true → valid_binary B = true →
  SFleb B A = true → SFnonneg (SF64sub A B) = true.
Proof.
  unfold SFleb, SF64sub.
  destruct A as [sa|sa| |sa ma ea], B as [sb|sb| |sb mb eb]; simpl;
    intros VA VB Hle; try discriminate;
    try (destruct sa, sb; simpl in *; (reflexivity || discriminate)).
  unfold bounded in VA, VB.
    apply andb_true_iff in VA as [CA _]. apply andb_true_iff in VB as [CB _].
    apply binary_normalize_nonneg.
    pose proof (shl_align_value ma ea (Z.min ea eb)) as Va.
    pose proof (shl_align_value mb eb (Z.min ea eb)) as Vb.
    rewrite Va, Vb by lia. clear Va Vb.
    assert (0 < 2 ^ (ea - Z.min ea eb))%Z by (apply Z.pow_pos_nonneg; lia).
    assert (0 < 2 ^ (eb - Z.min ea eb))%Z by (apply Z.pow_pos_nonneg; lia).
    destruct sa, sb; simpl in *; try discriminate; try nia.
    - (* both negative: |B| >= |A| *)
      destruct (Z.compare_spec eb ea) as [E|L|G]; simpl in Hle;
        try discriminate.
      * subst. rewrite Z.min_id, Z.sub_diag. simpl.
        rewrite Pos.compare_cont_spec in Hle. simpl in Hle.
        destruct (Pos.compare_spec mb ma); simpl in Hle; try discriminate; lia.
      * rewrite Z.min_l by lia. rewrite Z.sub_diag. simpl.
        pose proof (canonical_exponent_order mb eb ma ea CB CA G). lia.
    - (* both positive: B <= A *)
      destruct (Z.compare_spec eb ea) as [E|L|G]; simpl in Hle;
        try discriminate.
      * subst. rewrite Z.min_id, Z.sub_diag. simpl.
        rewrite Pos.compare_cont_spec in Hle. simpl in Hle.
        destruct (Pos.compare_spec mb ma); simpl in Hle; try discriminate; lia.
      * rewrite Z.min_r by lia. rewrite Z.sub_diag. simpl.
        pose proof (canonical_exponent_order ma ea mb eb CA CB L). lia.
Qed.

(** For numbers [b <= a], the difference [a - b] is missing (infinity minus
    infinity) or not below zero. *)
Lemma sub_nonneg (a b : float) :
  (b <=? a)%float = true →
  is_nan (a - b) = true ∨ ((a - b) <? 0)%float = false.
Proof.
  intros Hle. rewrite FloatAxioms.leb_spec in Hle.
  pose proof (SFsub_nonneg (Prim2SF a) (Prim2SF b) (Prim2SF_valid a)
                (Prim2SF_valid b) Hle) as Hn.
  rewrite <- FloatAxioms.sub_spec in Hn.
  rewrite is_nan_spec, FloatAxioms.ltb_spec.
  change (Prim2SF 0) with (S754_zero false).
  destruct (Prim2SF (a - b)) as [s|s| |s m e]; simpl in *; auto;
    destruct s; simpl in *; auto; discriminate.
Qed.

End Float64Sub.

(** ** The bar chart, further *)

Module BarChartShape.
Import Float64 Float64Facts Float64Sub BarChart.

(** *** Conversions of whole numbers are never missing *)

Lemma iter_pos_invariant {A} (f : A → A) (Inv : A → Prop) :
  (∀ x, Inv x → Inv (f x)) → ∀ n x, Inv x → Inv (SpecFloat.iter_pos f n x).
Proof.
  intros Hf. induction n as [n IH|n IH|]; intros x Hx; simpl; auto.
Qed.

Lemma shr_1_nonneg mrs : (0 <= shr_m mrs)%Z → (0 <= shr_m (shr_1 mrs))%Z.
Proof.
  destruct mrs as [m r s]. simpl. destruct m as [|[p|p|]|[p|p|]]; simpl; lia.
Qed.

Lemma shr_fexp_nonneg m e l :
  (0 <= m)%Z → (0 <= shr_m (shr_fexp prec emax m e l).1)%Z.
Proof.
  intros Hm. unfold shr_fexp, shr.
  assert (H0 : (0 <= shr_m (shr_record_of_loc m l))%Z).
  { destruct l as [|[]]; exact Hm. }
  destruct (_ - e)%Z; simpl; try exact H0.
  apply iter_pos_invariant; [apply shr_1_nonneg|exact H0].
Qed.

Lemma binary_round_aux_not_nan sx mx ex lx :
  (0 <= mx)%Z → binary_round_aux prec emax sx mx ex lx ≠ S754_nan.
Proof.
  intros Hm. unfold binary_round_aux.
  pose proof (shr_fexp_nonneg mx ex lx Hm) as H1.
  destruct (shr_fexp prec emax mx ex lx) as [mrs' e']. simpl in H1.
  assert (H2 : (0 <= round_nearest_even (shr_m mrs')
                       (loc_of_shr_record mrs'))%Z).
  { unfold round_nearest_even.
    destruct (loc_of_shr_record mrs') as [|[]]; try lia.
    destruct (Z.even _); lia. }
  pose proof (shr_fexp_nonneg _ e' loc_Exact H2) as H3.
  destruct (shr_fexp prec emax _ e' loc_Exact) as [mrs'' e'']. simpl in H3.
  destruct (shr_m mrs''); [discriminate| |lia].
  destruct (_ <=? _)%Z; discriminate.
Qed.

Lemma binary_normalize_not_nan m e szero :
  binary_normalize prec emax m e szero ≠ S754_nan.
Proof.
  unfold binary_normalize, binary_round. destruct m as [|p|p];
    [discriminate| |];
    destruct (shl_align _ _ _) as [mz ez];
    apply binary_round_aux_not_nan; lia.
Qed.

Lemma of_uint63_not_nan n : is_nan (of_uint63 n) = false.
Proof.
  apply is_nan_false. rewrite FloatAxioms.of_uint63_spec.
  apply binary_normalize_not_nan.
Qed.

Lemma int64_to_float64_not_nan z : is_nan (int64_to_float64 z) = false.
Proof.
  unfold int64_to_float64.
  destruct (0 <=? z)%Z; [apply of_uint63_not_nan|].
  destruct (z =? _)%Z; [reflexivity|].
  apply is_nan_false. rewrite FloatAxioms.opp_spec.
  pose proof (of_uint63_not_nan (Uint63.of_Z (- z))) as H.
  apply is_nan_false in H.
  destruct (Prim2SF (of_uint63 _)); try discriminate; congruence.
Qed.

(** *** Whiskers of well-ordered rows *)

Lemma clamped_fillna (d : float) :
  is_nan d = true ∨ (d <? 0)%float = false →
  fillna 0 d = (if is_nan d then 0 else if d <? 0 then 0 else d)%float.
Proof.
  unfold fillna. intros [H|H].
  - now rewrite H.
  - rewrite H. now destruct (is_nan d).
Qed.

Lemma fillna_nonneg (d : float) :
  is_nan d = true ∨ (d <? 0)%float = false → (fillna 0 d <? 0)%float = false.
Proof.
  unfold fillna. intros [H|H]; [now rewrite H|].
  now destruct (is_nan d).
Qed.

Lemma ordered_extent (a b : Scalar) :
  scalar_leb b a = true →
  (∀ za zb, a = SInt za → b = SInt zb → (za - zb < 2 ^ 63)%Z) →
  match a, b with
  | SInt x, SInt y => SInt (wrap64 (x - y))
  | _, _ => SFloat (fillna 0 (scalar_float a - scalar_float b))
  end = clamped_extent a b ∧
  scalar_negative (clamped_extent a b) = false.
Proof.
  intros Hle Hfit.
  assert (Hf : scalar_leb b a = (scalar_float b <=? scalar_float a)%float →
               SFloat (fillna 0 (scalar_float a - scalar_float b)) =
               SFloat (let d := (scalar_float a - scalar_float b)%float in
                       if is_nan d then 0
                       else if d <? 0 then 0 else d)%float ∧
               (fillna 0 (scalar_float a - scalar_float b) <? 0)%float
               = false).
  { intros E. rewrite E in Hle. pose proof (sub_nonneg _ _ Hle) as Hd.
    split; [f_equal; now apply clamped_fillna|now apply fillna_nonneg]. }
  destruct a as [za|xa], b as [zb|xb].
  - simpl in Hle. apply Z.leb_le in Hle.
    specialize (Hfit za zb eq_refl eq_refl).
    unfold clamped_extent. rewrite wrap64_small by lia.
    rewrite Z.max_r by lia. split; [reflexivity|].
    simpl. apply Z.ltb_ge. lia.
  - destruct (Hf eq_refl) as [E N]. split; [exact E|].
    replace (clamped_extent (SInt za) (SFloat xb))
      with (SFloat (fillna 0 (scalar_float (SInt za) - scalar_float (SFloat xb))))
      by exact E.
    exact N.
  - destruct (Hf eq_refl) as [E N]. split; [exact E|].
    replace (clamped_extent (SFloat xa) (SInt zb))
      with (SFloat (fillna 0 (scalar_float (SFloat xa) - scalar_float (SInt zb))))
      by exact E.
    exact N.
  - destruct (Hf eq_refl) as [E N]. split; [exact E|].
    replace (clamped_extent (SFloat xa) (SFloat xb))
      with (SFloat (fillna 0 (scalar_float (SFloat xa) - scalar_float (SFloat xb))))
      by exact E.
    exact N.
Qed.

(** X1: on a row with Min <= Average <= Max, the whiskers handed to the
    chart are the values [max(0, Average - Min)] and
    [max(0, Max - Average)] that the specification asks for, and neither is
    negative; for two int64 columns this needs the difference to fit
    int64, since the subtraction wraps around otherwise. *)
Theorem extents_of_ordered_rows (df : Frame.t) (i : nat) (a m x : Scalar) :
  tolist (Frame.Average_Salary df) !! i = Some a →
  tolist (Frame.Min_Salary df) !! i = Some m →
  tolist (Frame.Max_Salary df) !! i = Some x →
  scalar_leb m a = true → scalar_leb a x = true →
  (∀ za zm, a = SInt za → m = SInt zm → (za - zm < 2 ^ 63)%Z) →
  (∀ zx za, x = SInt zx → a = SInt za → (zx - za < 2 ^ 63)%Z) →
  left_err df !! i = Some (clamped_extent a m) ∧
  right_err df !! i = Some (clamped_extent x a) ∧
  spec_left_err df !! i = Some (clamped_extent a m) ∧
  spec_right_err df !! i = Some (clamped_extent x a) ∧
  scalar_negative (clamped_extent a m) = false ∧
  scalar_negative (clamped_extent x a) = false.
Proof.
  intros Ha Hm Hx Hlo Hhi Flo Fhi.
  destruct (ordered_extent a m Hlo Flo) as [El Nl].
  destruct (ordered_extent x a Hhi Fhi) as [Er Nr].
  unfold left_err, right_err, spec_left_err, spec_right_err.
  rewrite (extent_lookup _ _ _ _ _ Ha Hm), (extent_lookup _ _ _ _ _ Hx Ha).
  rewrite El, Er, !lookup_zip_with, Ha, Hm, Hx. simpl.
  repeat split; assumption.
Qed.

Lemma extents_of_ordered_rows_witness :
  let df := Frame.mk ["IT"; "HR"] (Int64 [28560%Z; 26540%Z])
              (Int64 [10544%Z; 8823%Z])
              (Float64 [115178.51%float; 58951.29%float]) in
  left_err df !! 1 = Some (clamped_extent (SInt 26540) (SInt 8823)) ∧
  right_err df !! 1 = Some (clamped_extent (SFloat 58951.29) (SInt 26540)) ∧
  spec_left_err df !! 1 = Some (clamped_extent (SInt 26540) (SInt 8823)) ∧
  spec_right_err df !! 1 =
    Some (clamped_extent (SFloat 58951.29) (SInt 26540)) ∧
  scalar_negative (clamped_extent (SInt 26540) (SInt 8823)) = false ∧
  scalar_negative (clamped_extent (SFloat 58951.29) (SInt 26540)) = false.
Proof.
  cbv zeta.
  apply (extents_of_ordered_rows _ 1 (SInt 26540) (SInt 8823)
           (SFloat 58951.29)); try reflexivity.
  - intros za zm [= <-] [= <-]. lia.
  - intros zx za [=].
Defined.

(** *** The figure, row by row *)

Lemma np_stack_lookup (s1 s2 : Series) i p q :
  np_stack s1 s2 !! i = Some (p, q) →
  ∃ u v, tolist s1 !! i = Some u ∧ tolist s2 !! i = Some v ∧
    (p = u ∨ p = SFloat (scalar_float u)) ∧
    (q = v ∨ q = SFloat (scalar_float v)).
Proof.
  assert (Hf : zip (SFloat <$> as_float64 s1) (SFloat <$> as_float64 s2) !! i
               = Some (p, q) →
               ∃ u v, tolist s1 !! i = Some u ∧ tolist s2 !! i = Some v ∧
                 (p = u ∨ p = SFloat (scalar_float u)) ∧
                 (q = v ∨ q = SFloat (scalar_float v))).
  { intros H. apply lookup_zip_with_Some in H as (p' & q' & E & Hp & Hq).
    injection E as <- <-.
    apply list_lookup_fmap_Some in Hp as (x & -> & Hx).
    apply list_lookup_fmap_Some in Hq as (y & -> & Hy).
    assert (Hu : ∃ u, tolist s1 !! i = Some u ∧ scalar_float u = x).
    { destruct s1 as [l|l]; simpl in *.
      - apply list_lookup_fmap_Some in Hx as (z & -> & Hz).
        exists (SInt z). now rewrite list_lookup_fmap, Hz.
      - exists (SFloat x). now rewrite list_lookup_fmap, Hx. }
    assert (Hv : ∃ v, tolist s2 !! i = Some v ∧ scalar_float v = y).
    { destruct s2 as [l|l]; simpl in *.
      - apply list_lookup_fmap_Some in Hy as (z & -> & Hz).
        exists (SInt z). now rewrite list_lookup_fmap, Hz.
      - exists (SFloat y). now rewrite list_lookup_fmap, Hy. }
    destruct Hu as (u & Hu & <-), Hv as (v & Hv & <-).
    exists u, v. auto. }
  destruct s1 as [l1|l1], s2 as [l2|l2]; try exact Hf.
  simpl. intros H. apply lookup_zip_with_Some in H as (p' & q' & E & Hp & Hq).
  injection E as <- <-. exists p, q. auto.
Qed.

Lemma np_stack_length (s1 s2 : Series) :
  length (np_stack s1 s2) = min (series_len s1) (series_len s2).
Proof.
  destruct s1 as [l1|l1], s2 as [l2|l2]; simpl;
    rewrite length_zip_with, ?length_fmap; reflexivity.
Qed.

Lemma series_fillna0_len (s : Series) :
  series_len (series_fillna0 s) = series_len s.
Proof. destruct s; simpl; [reflexivity|apply length_fmap]. Qed.

Lemma series_fillna0_lookup (s : Series) i u :
  tolist (series_fillna0 s) !! i = Some u →
  ∃ v, tolist s !! i = Some v ∧ u = scalar_fillna0 v.
Proof.
  destruct s as [l|l]; simpl; rewrite !list_lookup_fmap.
  - destruct (l !! i) as [z|]; [|discriminate]. intros [= <-].
    exists (SInt z). auto.
  - destruct (l !! i) as [x|]; [|discriminate]. intros [= <-].
    exists (SFloat x). auto.
Qed.

Lemma scalar_fillna0_present (v : Scalar) :
  scalar_missing (scalar_fillna0 v) = false ∧
  is_nan (scalar_float (scalar_fillna0 v)) = false.
Proof.
  destruct v as [z|x]; simpl.
  - split; [reflexivity|apply int64_to_float64_not_nan].
  - split; now apply fillna_not_nan.
Qed.

Lemma extent_present (s1 s2 : Series) :
  Forall (λ v, scalar_missing v = false)
    (tolist (series_fillna0 (series_sub s1 s2))).
Proof.
  apply Forall_forall. intros u Hu.
  apply list_elem_of_lookup in Hu as [i Hi].
  apply series_fillna0_lookup in Hi as (v & _ & ->).
  apply scalar_fillna0_present.
Qed.

(** X2: the figure of a frame, row by row: the labels are the departments
    and the bars the averages, in the order of the rows; the hover record
    of a row holds its Min and Max, with 0 for a missing one, as they are
    or converted to float64; error bars are present exactly when asked
    for, are asymmetric and are the two whisker columns, one whisker per
    row on each side; nothing missing reaches the hover data or the
    whiskers; the height is 60 units per row, and 240 for fewer than four
    rows. *)
Theorem chart_shape (df : Frame.t) (palette title : string)
    (show_error : bool) :
  Frame.well_formed df →
  let fig := make_bar_fig df palette show_error title in
  fig_y fig = Frame.Department df ∧
  fig_x fig = tolist (Frame.Average_Salary df) ∧
  length (fig_x fig) = Frame.len df ∧
  length (fig_customdata fig) = Frame.len df ∧
  (∀ i p q, fig_customdata fig !! i = Some (p, q) →
     ∃ mn mx,
       tolist (Frame.Min_Salary df) !! i = Some mn ∧
       tolist (Frame.Max_Salary df) !! i = Some mx ∧
       (p = scalar_fillna0 mn ∨ p = SFloat (scalar_float (scalar_fillna0 mn))) ∧
       (q = scalar_fillna0 mx ∨ q = SFloat (scalar_float (scalar_fillna0 mx))) ∧
       scalar_missing p = false ∧ scalar_missing q = false) ∧
  match fig_error_x fig with
  | Some e =>
      show_error = true ∧ symmetric e = false ∧
      array e = right_err df ∧ arrayminus e = left_err df ∧
      length (array e) = Frame.len df ∧
      length (arrayminus e) = Frame.len df ∧
      Forall (λ v, scalar_missing v = false) (array e) ∧
      Forall (λ v, scalar_missing v = false) (arrayminus e)
  | None => show_error = false
  end ∧
  fig_height fig = (if Frame.len df <? 4 then 240 else 60 * Frame.len df).
Proof.
  intros (Ha & Hm & Hx). cbv zeta. unfold make_bar_fig.
  cbn [fig_x fig_y fig_customdata fig_error_x fig_height].
  split; [reflexivity|]. split; [reflexivity|].
  split; [now rewrite tolist_length|].
  split.
  { rewrite np_stack_length, !series_fillna0_len. lia. }
  split.
  { intros i p q H.
    apply np_stack_lookup in H as (u & v & Hu & Hv & Hp & Hq).
    apply series_fillna0_lookup in Hu as (mn & Hmn & ->).
    apply series_fillna0_lookup in Hv as (mx & Hmx & ->).
    exists mn, mx. split; [exact Hmn|]. split; [exact Hmx|].
    split; [exact Hp|]. split; [exact Hq|].
    destruct (scalar_fillna0_present mn) as [M1 M2].
    destruct (scalar_fillna0_present mx) as [M3 M4].
    split; [destruct Hp as [->| ->]|destruct Hq as [->| ->]]; assumption. }
  split.
  { destruct show_error; [|reflexivity]. cbn [symmetric array arrayminus].
    split; [reflexivity|]. split; [reflexivity|].
    split; [reflexivity|]. split; [reflexivity|].
    unfold left_err, right_err. rewrite !extent_length.
    split; [lia|]. split; [lia|]. split; apply extent_present. }
  destruct (Nat.ltb_spec (Frame.len df) 4); lia.
Qed.

Lemma chart_shape_witness :
  let df := Frame.mk ["IT"; "HR"] (Int64 [28560%Z; 26540%Z])
              (Int64 [10544%Z; 8823%Z])
              (Float64 [115178.51%float; nan]) in
  let fig := make_bar_fig df "Plotly" true "Average Salary by Department" in
  Frame.well_formed df ∧
  fig_y fig = ["IT"; "HR"] ∧
  fig_x fig = [SInt 28560; SInt 26540] ∧
  fig_customdata fig =
    [(SFloat 10544, SFloat 115178.51); (SFloat 8823, SFloat 0)] ∧
  fig_height fig = 240.
Proof.
  cbv zeta.
  assert (Hwf : Frame.well_formed
                  (Frame.mk ["IT"; "HR"] (Int64 [28560%Z; 26540%Z])
                     (Int64 [10544%Z; 8823%Z])
                     (Float64 [115178.51%float; nan]))).
  { repeat split. }
  split; [exact Hwf|].
  destruct (chart_shape _ "Plotly" "Average Salary by Department" true Hwf)
    as (Hy & Hx & _ & _ & _ & _ & Hh).
  split; [exact Hy|]. split; [exact Hx|]. split; [reflexivity|exact Hh].
Defined.

End BarChartShape.

(** ** The department filter, further *)

Module FilterFacts.

(** X3: the filter keeps rows in their order and drops none that it
    should keep: the result is a sublist of the table, and a row is in it
    exactly when it is in the table and either nothing is selected or its
    Department is among the selected names. *)
Theorem filter_selected_rows (selected : list string) (df : Table) :
  sublist (filter_selected selected df) df ∧
  ∀ r, r ∈ filter_selected selected df ↔
       r ∈ df ∧ (selected = [] ∨ Department r ∈ selected).
Proof.
  destruct selected as [|s sel].
  - split; [reflexivity|]. intros r. simpl. tauto.
  - split; [apply sublist_filter|]. intros r.
    unfold filter_selected. rewrite list_elem_of_filter.
    split; [tauto|]. intros [Hr [H|H]]; [discriminate|tauto].
Qed.

(** X4: when the department of every row is among the selected names, as
    it is with the selector's default, which lists every department of
    the table, the filter keeps the whole table. *)
Theorem filter_selected_covering (selected : list string) (df : Table) :
  (∀ r, r ∈ df → Department r ∈ selected) →
  filter_selected selected df = df.
Proof.
  intros Hall. destruct selected as [|s sel]; [reflexivity|].
  unfold filter_selected.
  induction df as [|r df IH]; [reflexivity|].
  rewrite filter_cons_True by (apply Hall; left).
  f_equal. apply IH. intros r' Hr'. apply Hall. now right.
Qed.

Lemma filter_selected_covering_witness :
  filter_selected (Department <$> Sorting.default_table)
    Sorting.default_table = Sorting.default_table.
Proof.
  apply filter_selected_covering. intros r Hr.
  now apply list_elem_of_fmap_2.
Defined.

(** X5: filtering twice with the same selection is filtering once, and two
    selections can be applied in either order. *)
Theorem filter_selected_twice (sel1 sel2 : list string) (df : Table) :
  filter_selected sel1 (filter_selected sel1 df) = filter_selected sel1 df ∧
  filter_selected sel1 (filter_selected sel2 df) =
  filter_selected sel2 (filter_selected sel1 df).
Proof.
  split.
  - destruct sel1 as [|s sel]; [reflexivity|]. unfold filter_selected.
    rewrite list_filter_filter. apply list_filter_iff. tauto.
  - destruct sel1 as [|s1 l1], sel2 as [|s2 l2]; try reflexivity.
    unfold filter_selected. rewrite !list_filter_filter.
    apply list_filter_iff. tauto.
Qed.

(** X6: only the set of selected names matters, not their order or how
    often a name is repeated. *)
Theorem filter_selected_same_names (sel1 sel2 : list string) (df : Table) :
  (∀ d, d ∈ sel1 ↔ d ∈ sel2) →
  filter_selected sel1 df = filter_selected sel2 df.
Proof.
  intros Hset.
  destruct sel1 as [|s1 l1], sel2 as [|s2 l2].
  - reflexivity.
  - exfalso. apply (not_elem_of_nil s2), Hset. left.
  - exfalso. apply (not_elem_of_nil s1), Hset. left.
  - unfold filter_selected. apply list_filter_iff. intros r. apply Hset.
Qed.

Lemma filter_selected_same_names_witness :
  filter_selected ["HR"; "IT"; "HR"] Sorting.default_table =
  filter_selected ["IT"; "HR"] Sorting.default_table.
Proof.
  apply filter_selected_same_names. intros d.
  rewrite !elem_of_cons. pose proof (not_elem_of_nil d). tauto.
Defined.

End FilterFacts.

(** ** The distribution simulator, further *)

Section SimulationMore.
Import Float64 Float64Facts.

Variable BitGen : Type.
Variable seed_bitgen : N → BitGen.
Variable random_triangular :
  BitGen → float → float → float → float * BitGen.

Local Abbreviation simulate :=
  (simulate_distributions seed_bitgen random_triangular).
Local Abbreviation loop := (simulate_loop random_triangular).
Local Abbreviation qualifying := (filter (λ r, qualifies r = true)).

Lemma loop_filter rng n (df : Table) :
  ∀ acc (w : World BitGen),
    loop rng n df acc w = loop rng n (qualifying df) acc w.
Proof.
  induction df as [|r df IH]; intros acc w; [reflexivity|].
  destruct (qualifies r) eqn:Hq.
  - rewrite filter_cons_True by assumption.
    rewrite !(loop_step_draw _ random_triangular) by assumption.
    unfold bind. destruct (triangular _ _ _ _ _ _ w) as [[xs|e] w'];
      [apply IH|reflexivity].
  - rewrite filter_cons_False by (rewrite Hq; discriminate).
    rewrite (loop_step_skip _ random_triangular) by assumption. apply IH.
Qed.

(** X7: rows that do not qualify leave no trace: the outcome and the store
    are those of the call on the qualifying rows alone. *)
Theorem simulate_ignores_unqualified (df : Table) n seed (w : World BitGen) :
  simulate df n seed w = simulate (qualifying df) n seed w.
Proof.
  unfold simulate_distributions, bind, default_rng.
  now rewrite loop_filter.
Qed.

Lemma loop_store rng n (df : Table) :
  ∀ acc (w : World BitGen) g, w !! rng = Some g →
    ∃ g', (loop rng n df acc w).2 = <[rng := g']> w.
Proof.
  induction df as [|r df IH]; intros acc w g Hg.
  { exists g. simpl. now rewrite list_insert_id. }
  simpl. destruct (_ || _); [eauto|].
  unfold bind, triangular.
  destruct (_ <? _)%float;
    [exists g; simpl; now rewrite list_insert_id|].
  destruct (_ <? _)%float;
    [exists g; simpl; now rewrite list_insert_id|].
  destruct (_ =? _)%float;
    [exists g; simpl; now rewrite list_insert_id|].
  rewrite Hg. destruct (draw _ _ _ _ _ g) as [xs g1].
  destruct (IH (acc ++ [dept_frame (Department r) xs]) (<[rng := g1]> w) g1)
    as [g' Hg'].
  { apply list_lookup_insert_eq. eapply lookup_lt_Some, Hg. }
  exists g'. rewrite Hg'. apply list_insert_insert_eq.
Qed.

(** X8: a call creates one generator and touches nothing else in the store:
    whether it ends normally or raises, the store afterwards is the store
    before with one generator added. *)
Theorem simulate_store (df : Table) n seed (w : World BitGen) :
  ∃ g, (simulate df n seed w).2 = w ++ [g].
Proof.
  destruct (loop_store (length w) n df [] (w ++ [seed_bitgen seed])
              (seed_bitgen seed) (fresh_generator BitGen w _)) as [g Hg].
  exists g. unfold simulate_distributions, bind, default_rng.
  destruct (loop _ _ _ _ _) as [[frames|e] w'] eqn:E; simpl in Hg; subst w'.
  - replace (<[length w := g]> (w ++ [seed_bitgen seed])) with (w ++ [g]).
    + now destruct frames.
    + rewrite insert_app_r_alt, Nat.sub_diag by lia. reflexivity.
  - simpl. rewrite insert_app_r_alt, Nat.sub_diag by lia. reflexivity.
Qed.

Lemma loop_outcome rng n (df : Table) :
  ∀ acc (w : World BitGen) g, w !! rng = Some g →
    match (loop rng n df acc w).1 with
    | Ok _ => Forall (λ r, qualifies r = true → well_ordered r = true) df
    | Raise e =>
        ∃ r, r ∈ df ∧ qualifies r = true ∧
          ((e = ValueError "left > mode" ∧
            (Average_Salary r <? Min_Salary r)%float = true) ∨
           (e = ValueError "mode > right" ∧
            (Max_Salary r <? Average_Salary r)%float = true))
    end.
Proof.
  induction df as [|r df IH]; intros acc w g Hg.
  { constructor. }
  destruct (qualifies r) eqn:Hq.
  - rewrite (loop_step_draw _ random_triangular) by assumption.
    pose proof (checks_well_ordered r Hq) as Hc.
    unfold bind, triangular.
    destruct (Average_Salary r <? Min_Salary r)%float eqn:H1.
    { simpl. exists r. split; [left|]. auto. }
    destruct (Max_Salary r <? Average_Salary r)%float eqn:H2.
    { simpl. exists r. split; [left|]. auto. }
    assert (H3 : (Min_Salary r =? Max_Salary r)%float = false).
    { unfold qualifies in Hq.
      destruct (is_nan (Min_Salary r)) eqn:Ha; [discriminate|].
      destruct (is_nan (Average_Salary r)); [discriminate|].
      destruct (is_nan (Max_Salary r)) eqn:Hc'; [discriminate|].
      now apply ltb_eqb_false. }
    rewrite H3 in *. simpl in Hc. rewrite Hg.
    destruct (draw _ _ _ _ _ g) as [xs g1].
    specialize (IH (acc ++ [dept_frame (Department r) xs])
                  (<[rng := g1]> w) g1).
    destruct (loop rng n df _ _).1 as [frames|e].
    + constructor; [|apply IH].
      * intros _. now destruct (well_ordered r).
      * apply list_lookup_insert_eq. eapply lookup_lt_Some, Hg.
    + destruct IH as (r' & Hr' & H').
      { apply list_lookup_insert_eq. eapply lookup_lt_Some, Hg. }
      exists r'. split; [now right|exact H'].
  - rewrite (loop_step_skip _ random_triangular) by assumption.
    specialize (IH acc w g Hg).
    destruct (loop rng n df acc w).1 as [frames|e].
    + constructor; [congruence|exact IH].
    + destruct IH as (r' & Hr' & H'). exists r'. split; [now right|exact H'].
Qed.

(** X9: the call ends normally exactly on the tables in which every
    qualifying row has its Average between its Min and its Max; on any
    other table it raises numpy's [ValueError] for a qualifying row whose
    Average is below its Min ("left > mode") or above its Max
    ("mode > right"), and it never raises anything else. *)
Theorem simulate_outcome (df : Table) n seed (w : World BitGen) :
  match (simulate df n seed w).1 with
  | Ok _ => Forall (λ r, qualifies r = true → well_ordered r = true) df
  | Raise e =>
      ∃ r, r ∈ df ∧ qualifies r = true ∧ well_ordered r = false ∧
        ((e = ValueError "left > mode" ∧
          (Average_Salary r <? Min_Salary r)%float = true) ∨
         (e = ValueError "mode > right" ∧
          (Max_Salary r <? Average_Salary r)%float = true))
  end.
Proof.
  rewrite (simulate_unfold _ seed_bitgen random_triangular).
  pose proof (loop_outcome (length w) n df [] (w ++ [seed_bitgen seed])
                (seed_bitgen seed) (fresh_generator BitGen w _)) as H.
  destruct (loop _ _ _ _ _).1 as [[|f fs]|e]; try exact H.
  destruct H as (r & Hr & Hq & H). exists r.
  split; [exact Hr|]. split; [exact Hq|]. split; [|exact H].
  pose proof (checks_well_ordered r Hq) as Hc.
  destruct (well_ordered r); [|reflexivity]. simpl in Hc.
  destruct H as [[_ H]|[_ H]]; rewrite H in Hc; simpl in Hc;
    rewrite ?orb_true_r in Hc; discriminate.
Qed.

Lemma loop_app rng n (df1 df2 : Table) :
  ∀ acc (w : World BitGen),
    loop rng n (df1 ++ df2) acc w =
    bind (loop rng n df1 acc) (λ acc', loop rng n df2 acc') w.
Proof.
  induction df1 as [|r df1 IH]; intros acc w; [reflexivity|].
  simpl. destruct (_ || _); [apply IH|].
  unfold bind. fold loop.
  destruct (triangular _ _ _ _ _ _ w) as [[xs|e] w']; [apply IH|reflexivity].
Qed.

Lemma simulate_rows (df : Table) n seed (w : World BitGen) :
  Forall (λ r, qualifies r = true → well_ordered r = true) df →
  ∃ fs out, (loop (length w) n df [] (w ++ [seed_bitgen seed])).1 = Ok fs ∧
    Forall2 (block_of n) (qualifying df) fs ∧
    (simulate df n seed w).1 = Ok out ∧
    columns out = ["Department"; "Salary"] ∧
    rows out = concat (map rows fs).
Proof.
  intros Hall.
  destruct (loop_ok _ random_triangular (length w) n df Hall []
              (w ++ [seed_bitgen seed]) (seed_bitgen seed)
              (fresh_generator BitGen w _)) as (fs & Hfs & Hbl).
  simpl in Hfs. exists fs.
  rewrite (simulate_unfold _ seed_bitgen random_triangular), Hfs.
  destruct fs as [|f fs].
  - exists empty_frame. auto.
  - exists (pd_concat (f :: fs)). repeat split; try assumption.
    unfold pd_concat. cbn [columns].
    rewrite (blocks_columns n _ _ Hbl). apply remove_dups_columns.
Qed.

(** X10: rows added below a table do not change the samples drawn for the
    rows above them: when the call on [df1 ++ df2] ends normally, so does
    the call on [df1], and the sample table of [df1 ++ df2] is that of
    [df1] followed by [samples_per_dept] rows for each qualifying row of
    [df2]. *)
Theorem simulate_prefix (df1 df2 : Table) n seed (w : World BitGen)
    (out : SampleFrame) :
  (simulate (df1 ++ df2) n seed w).1 = Ok out →
  ∃ out1 rest,
    (simulate df1 n seed w).1 = Ok out1 ∧
    rows out = rows out1 ++ rest ∧
    length rest = n * length (qualifying df2) ∧
    rest.*1 = concat (map (λ r, replicate n (Department r)) (qualifying df2)).
Proof.
  intros Hout.
  assert (Hall : Forall (λ r, qualifies r = true → well_ordered r = true)
                   (df1 ++ df2)).
  { apply (simulate_ok_iff _ seed_bitgen random_triangular _ n seed w).
    eauto. }
  apply Forall_app in Hall as [Hall1 Hall2].
  destruct (simulate_rows df1 n seed w Hall1)
    as (fs1 & out1 & Hfs1 & Hbl1 & Hout1 & _ & Hrows1).
  destruct (loop_store (length w) n df1 [] (w ++ [seed_bitgen seed])
              (seed_bitgen seed) (fresh_generator BitGen w _)) as [g1 Hw1].
  destruct (loop_ok _ random_triangular (length w) n df2 Hall2 fs1
              (<[length w := g1]> (w ++ [seed_bitgen seed])) g1)
    as (fs2 & Hfs2 & Hbl2).
  { apply list_lookup_insert_eq. rewrite length_app. simpl. lia. }
  assert (Hfs : (loop (length w) n (df1 ++ df2) []
                   (w ++ [seed_bitgen seed])).1 = Ok (fs1 ++ fs2)).
  { rewrite loop_app. unfold bind.
    destruct (loop (length w) n df1 [] _) as [res w1].
    simpl in Hfs1, Hw1. subst res w1. exact Hfs2. }
  rewrite (simulate_unfold _ seed_bitgen random_triangular), Hfs in Hout.
  assert (Hrows : rows out = concat (map rows (fs1 ++ fs2))).
  { destruct (fs1 ++ fs2); injection Hout as <-; reflexivity. }
  exists out1, (concat (map rows fs2)).
  split; [exact Hout1|]. split.
  { now rewrite Hrows, Hrows1, map_app, concat_app. }
  apply (blocks_rows n _ _ Hbl2).
Qed.

Local Abbreviation panel := (simulation_panel seed_bitgen random_triangular).


End SimulationMore.

Lemma simulate_prefix_witness :
  ∃ out out1 rest,
    (simulate_distributions Lcg.seed_bitgen Lcg.random_triangular
       ([mkRow "IT" 5 1 20; mkRow "HR" 5 20 20] ++
        [mkRow "Finance" 25 20 30])
       2 42 []).1 = Ok out ∧
    (simulate_distributions Lcg.seed_bitgen Lcg.random_triangular
       [mkRow "IT" 5 1 20; mkRow "HR" 5 20 20] 2 42 []).1 = Ok out1 ∧
    rows out = rows out1 ++ rest ∧
    length rest =
      2 * length (filter (λ r, qualifies r = true)
                    [mkRow "Finance" 25 20 30]) ∧
    rest.*1 =
      concat (map (λ r, replicate 2 (Department r))
                (filter (λ r, qualifies r = true)
                   [mkRow "Finance" 25 20 30])).
Proof.
  eexists.
  destruct (simulate_prefix Z Lcg.seed_bitgen Lcg.random_triangular
              [mkRow "IT" 5 1 20; mkRow "HR" 5 20 20]
              [mkRow "Finance" 25 20 30] 2 42 [] _
              ltac:(vm_compute; reflexivity))
    as (out1 & rest & H1 & H2).
  exists out1, rest. split; [vm_compute; reflexivity|]. split; assumption.
Defined.


(** ** Sorting, further *)

Module SortingMore.
Import Float64 Float64Facts Sorting SortingFacts SortingVariants.

(** *** The second sorter meets the contract *)

Section InsertionLast.
Context {K : Type}.
Variable lt : K → K → bool.
Variable valid : K → Prop.
Hypothesis lt_asym :
  ∀ a b, valid a → valid b → lt a b = true → lt b a = false.
Hypothesis ascending_trans :
  ∀ a b c, valid a → valid b → valid c →
           ascending lt a b → ascending lt b c → ascending lt a c.

Local Abbreviation by_key := (λ p q : nat * K, ascending lt p.2 q.2).

Lemma insert_last_by_Permutation (x : nat * K) l :
  insert_last_by lt x l ≡ₚ x :: l.
Proof.
  induction l as [|y l IH]; [reflexivity|]. simpl.
  destruct (lt x.2 y.2); [reflexivity|].
  rewrite IH. apply perm_swap.
Qed.

Lemma insert_last_by_sorted (x : nat * K) l :
  valid x.2 → Forall (λ p, valid p.2) l →
  StronglySorted by_key l → StronglySorted by_key (insert_last_by lt x l).
Proof.
  intros Hx Hl Hs. induction Hs as [|y l Hs IH Hy]; simpl.
  { repeat constructor. }
  apply Forall_cons in Hl as [Hvy Hl].
  destruct (lt x.2 y.2) eqn:Hlt.
  - constructor; [now constructor|].
    assert (Hxy : ascending lt x.2 y.2).
    { unfold ascending. now apply lt_asym. }
    constructor; [exact Hxy|].
    rewrite Forall_forall in Hy, Hl. apply Forall_forall. intros z Hz.
    apply (ascending_trans x.2 y.2 z.2); auto.
  - constructor; [now apply IH|].
    rewrite insert_last_by_Permutation. constructor; [exact Hlt|exact Hy].
Qed.

Lemma isort_last_Permutation (ps : list (nat * K)) :
  foldr (insert_last_by lt) [] ps ≡ₚ ps.
Proof.
  induction ps as [|x ps IH]; [reflexivity|]. simpl.
  now rewrite insert_last_by_Permutation, IH.
Qed.

Lemma isort_last_sorted (ps : list (nat * K)) :
  Forall (λ p, valid p.2) ps →
  StronglySorted by_key (foldr (insert_last_by lt) [] ps).
Proof.
  induction 1 as [|x ps Hx Hps IH]; [constructor|]. simpl.
  apply insert_last_by_sorted; [assumption| |assumption].
  now rewrite isort_last_Permutation.
Qed.

Lemma insertion_argsort_last_contract :
  argsort_contract lt valid (insertion_argsort_last lt).
Proof.
  split.
  - intros l. unfold insertion_argsort_last.
    rewrite isort_last_Permutation, fst_zip; [reflexivity|].
    now rewrite length_seq.
  - intros l out Hl Hout. unfold insertion_argsort_last in Hout.
    set (ps := foldr (insert_last_by lt) [] (zip (seq 0 (length l)) l)) in *.
    assert (Hps : Forall (λ p, l !! p.1 = Some p.2) ps).
    { apply Forall_forall. intros p Hp. apply zip_seq_lookup.
      unfold ps in Hp. now rewrite isort_last_Permutation in Hp. }
    rewrite (take_pairs l ps Hps) in Hout. injection Hout as <-.
    apply (StronglySorted_fmap snd by_key).
    { auto. }
    apply isort_last_sorted. apply Forall_forall. intros p Hp.
    apply zip_seq_lookup in Hp. rewrite Forall_forall in Hl.
    apply Hl. eapply list_elem_of_lookup_2, Hp.
Qed.

End InsertionLast.

Lemma insertion_argsort_last_str_contract :
  argsort_contract String.ltb (λ _, True) (insertion_argsort_last String.ltb).
Proof.
  apply insertion_argsort_last_contract.
  - intros a b _ _. apply string_ltb_asym.
  - intros a b c _ _ _. apply string_ascending_trans.
Qed.

Lemma insertion_argsort_last_float_contract :
  argsort_contract PrimFloat.ltb (λ x, is_nan x = false)
    (insertion_argsort_last PrimFloat.ltb).
Proof.
  apply insertion_argsort_last_contract.
  - apply float_ltb_asym.
  - apply float_ascending_trans.
Qed.

(** *** Sorted lists are unique when the keys are distinct *)

Lemma StronglySorted_filter {A} (R : relation A) (P : A → Prop)
    `{!∀ x, Decision (P x)} (l : list A) :
  StronglySorted R l → StronglySorted R (filter P l).
Proof.
  induction 1 as [|x l Hl IH Hx]; [constructor|].
  destruct (decide (P x)).
  - rewrite filter_cons_True by assumption. constructor; [exact IH|].
    apply Forall_forall. intros y Hy.
    apply list_elem_of_filter in Hy as [_ Hy].
    rewrite Forall_forall in Hx. auto.
  - now rewrite filter_cons_False.
Qed.

Lemma in_order_keys_differ (sort_choice : string) (r1 r2 : SalaryRow) :
  in_order sort_choice r1 r2 → in_order sort_choice r2 r1 →
  keys_differ sort_choice r1 r2 = false.
Proof.
  unfold in_order, keys_differ, by_average.
  destruct (String.eqb sort_choice "Average (desc)"); simpl.
  { intros -> ->. reflexivity. }
  destruct (String.eqb sort_choice "Average (asc)").
  { intros -> ->. reflexivity. }
  intros -> ->. reflexivity.
Qed.

Lemma sorted_unique (sort_choice : string) (df P1 P2 : Table) :
  distinct_on sort_choice df →
  P1 ≡ₚ P2 →
  (∀ r, r ∈ P1 → r ∈ df ∧ key_missing sort_choice r = false) →
  StronglySorted (in_order sort_choice) P1 →
  StronglySorted (in_order sort_choice) P2 →
  P1 = P2.
Proof.
  intros Hd HP Hin S1 S2.
  apply (StronglySorted_unique_strong (in_order sort_choice));
    [|assumption|assumption|assumption].
  intros r1 r2 H1 H2 O1 O2. rewrite <- HP in H2.
  destruct (Hin r1 H1) as [D1 M1]. destruct (Hin r2 H2) as [D2 M2].
  apply Hd; try assumption. now apply in_order_keys_differ.
Qed.

Lemma present_elem (sort_choice : string) (df P : Table) :
  P ≡ₚ filter (λ r, key_missing sort_choice r = false) df →
  ∀ r, r ∈ P → r ∈ df ∧ key_missing sort_choice r = false.
Proof.
  intros HP r Hr. rewrite HP in Hr.
  apply list_elem_of_filter in Hr as [? ?]. auto.
Qed.

(** X12: on a table in which no two rows have equal present keys, the
    sorted table does not depend on the sorting algorithm: any two
    argsorts that meet numpy's contract give the same table. *)
Theorem sort_by_choice_any_sorter
    (argsort_float1 argsort_float2 : list float → list nat)
    (argsort_str1 argsort_str2 : list string → list nat)
    (sort_choice : string) (df : Table) :
  argsort_contract PrimFloat.ltb (λ x, is_nan x = false) argsort_float1 →
  argsort_contract PrimFloat.ltb (λ x, is_nan x = false) argsort_float2 →
  argsort_contract String.ltb (λ _, True) argsort_str1 →
  argsort_contract String.ltb (λ _, True) argsort_str2 →
  distinct_keys sort_choice df = true →
  sort_by_choice argsort_float1 argsort_str1 sort_choice df =
  sort_by_choice argsort_float2 argsort_str2 sort_choice df.
Proof.
  intros F1 F2 S1 S2 Hd.
  destruct (sort_by_choice_spec _ _ F1 S1 sort_choice df)
    as (P1 & -> & HP1 & O1).
  destruct (sort_by_choice_spec _ _ F2 S2 sort_choice df)
    as (P2 & -> & HP2 & O2).
  do 2 f_equal.
  apply (sorted_unique sort_choice df); try assumption.
  - exact (distinct_keys_elem sort_choice df Hd).
  - now rewrite HP1, HP2.
  - now apply present_elem.
Qed.

Lemma key_missing_average (sort_choice : string) (r : SalaryRow) :
  by_average sort_choice = true →
  key_missing sort_choice r = is_nan (Average_Salary r).
Proof. unfold key_missing. now intros ->. Qed.

Lemma distinct_on_average (c1 c2 : string) (df : Table) :
  by_average c1 = true → by_average c2 = true →
  distinct_on c1 df → distinct_on c2 df.
Proof.
  intros H1 H2 Hd r1 r2 D1 D2 M1 M2 K.
  rewrite (key_missing_average c2) in M1, M2 by assumption.
  apply Hd; try assumption.
  - now rewrite key_missing_average.
  - now rewrite key_missing_average.
  - unfold keys_differ in *. now rewrite H1; rewrite H2 in K.
Qed.

Section SortChoiceMore.
Variable argsort_float : list float → list nat.
Variable argsort_str : list string → list nat.
Hypothesis float_contract :
  argsort_contract PrimFloat.ltb (λ x, is_nan x = false) argsort_float.
Hypothesis str_contract :
  argsort_contract String.ltb (λ _, True) argsort_str.

Local Abbreviation sort := (sort_by_choice argsort_float argsort_str).

(** X13: on a table in which no two rows have equal present averages, the
    descending sort is the ascending sort with its rows of present Average
    in reverse order; the rows whose Average is missing stay last, in
    their input order, in both. *)
Theorem sort_descending_reverse (df : Table) :
  distinct_keys "Average (asc)" df = true →
  ∃ present,
    sort "Average (asc)" df =
      Some (present ++ filter (λ r, is_nan (Average_Salary r) = true) df) ∧
    sort "Average (desc)" df =
      Some (reverse present ++
            filter (λ r, is_nan (Average_Salary r) = true) df).
Proof.
  intros Hd.
  destruct (sort_by_choice_spec _ _ float_contract str_contract
              "Average (asc)" df) as (P & HsA & HP & OA).
  destruct (sort_by_choice_spec _ _ float_contract str_contract
              "Average (desc)" df) as (Q & HsD & HQ & OD).
  exists P. split; [exact HsA|]. rewrite HsD. do 2 f_equal.
  apply (sorted_unique "Average (desc)" df); try assumption.
  - apply (distinct_on_average "Average (asc)"); try reflexivity.
    exact (distinct_keys_elem _ df Hd).
  - rewrite HQ, reverse_Permutation, HP. reflexivity.
  - now apply present_elem.
  - apply StronglySorted_reverse in OA.
    eapply StronglySorted_impl; [|exact OA]. auto.
Qed.

(** X14: on a table in which no two rows have equal present keys,
    filtering and sorting commute: the sorted selection is the selection
    of the sorted table. *)
Theorem sort_filter_commute (selected : list string) (sort_choice : string)
    (df : Table) :
  distinct_keys sort_choice df = true →
  sort sort_choice (filter_selected selected df) =
  filter_selected selected <$> sort sort_choice df.
Proof.
  intros Hd. destruct selected as [|d sel]; simpl.
  { now destruct (sort sort_choice df). }
  set (keep := λ r : SalaryRow, Department r ∈ d :: sel).
  destruct (sort_by_choice_spec _ _ float_contract str_contract
              sort_choice df) as (P & -> & HP & OP).
  destruct (sort_by_choice_spec _ _ float_contract str_contract
              sort_choice (filter keep df)) as (Q & -> & HQ & OQ).
  simpl. rewrite filter_app. f_equal. f_equal.
  - apply (sorted_unique sort_choice df); try assumption.
    + exact (distinct_keys_elem sort_choice df Hd).
    + rewrite HQ, HP.
      assert (E : filter (λ r, key_missing sort_choice r = false)
                    (filter keep df) =
                  filter keep
                    (filter (λ r, key_missing sort_choice r = false) df)).
      { rewrite !list_filter_filter. apply list_filter_iff. tauto. }
      now rewrite E.
    + intros r Hr. rewrite HQ in Hr.
      apply list_elem_of_filter in Hr as [M Hr].
      apply list_elem_of_filter in Hr as [_ Hr]. auto.
    + now apply StronglySorted_filter.
  - rewrite !list_filter_filter. apply list_filter_iff. tauto.
Qed.

Local Abbreviation view := (df_sorted argsort_float argsort_str).

(** X15: the table on the page: filtering and sorting never fail, the
    table shown is a rearrangement of the selected rows, and the chart
    drawn from it (its salary columns being float64) has one bar per row
    of the table shown, in that order, each bar carrying the department
    and the average of its row. *)
Theorem df_sorted_rows (selected : list string) (sort_choice : string)
    (df : Table) (palette title : string) (show_error : bool) :
  ∃ out,
    view selected sort_choice df = Some out ∧
    out ≡ₚ filter_selected selected df ∧
    let fig := make_bar_fig (frame_of_table out) palette show_error title in
    zip (fig_y fig) (fig_x fig) =
      (λ r, (Department r, SFloat (Average_Salary r))) <$> out ∧
    length (fig_y fig) = length out ∧ length (fig_x fig) = length out.
Proof.
  unfold df_sorted.
  destruct (sort_by_choice_spec _ _ float_contract str_contract sort_choice
              (filter_selected selected df)) as (P & Hout & _).
  eexists. split; [exact Hout|].
  pose proof (sort_by_choice_Permutation _ _ float_contract str_contract
                sort_choice _ _ Hout) as Hperm.
  split; [exact Hperm|]. cbv zeta. cbn [make_bar_fig fig_y fig_x
    frame_of_table Frame.Department Frame.Average_Salary tolist].
  split; [|now rewrite !length_fmap].
  generalize (P ++ filter (λ r, key_missing sort_choice r = true)
                     (filter_selected selected df)).
  intros l. induction l as [|r l IH]; [reflexivity|].
  cbn. f_equal. exact IH.
Qed.

End SortChoiceMore.

Lemma sort_by_choice_any_sorter_witness :
  distinct_keys "Average (desc)" default_table = true ∧
  sort_by_choice (insertion_argsort PrimFloat.ltb)
    (insertion_argsort String.ltb) "Average (desc)" default_table =
  sort_by_choice (insertion_argsort_last PrimFloat.ltb)
    (insertion_argsort_last String.ltb) "Average (desc)" default_table.
Proof.
  split; [vm_compute; reflexivity|].
  apply (sort_by_choice_any_sorter _ _ _ _ "Average (desc)" default_table
           insertion_argsort_float_contract
           insertion_argsort_last_float_contract
           insertion_argsort_str_contract
           insertion_argsort_last_str_contract).
  vm_compute. reflexivity.
Defined.

Lemma sort_descending_reverse_witness :
  ∃ present,
    sort_by_choice (insertion_argsort PrimFloat.ltb)
      (insertion_argsort String.ltb) "Average (asc)" default_table =
      Some (present ++
            filter (λ r, is_nan (Average_Salary r) = true) default_table) ∧
    sort_by_choice (insertion_argsort PrimFloat.ltb)
      (insertion_argsort String.ltb) "Average (desc)" default_table =
      Some (reverse present ++
            filter (λ r, is_nan (Average_Salary r) = true) default_table).
Proof.
  apply (sort_descending_reverse _ _ insertion_argsort_float_contract
           insertion_argsort_str_contract default_table).
  vm_compute. reflexivity.
Defined.

Lemma sort_filter_commute_witness :
  sort_by_choice (insertion_argsort PrimFloat.ltb)
    (insertion_argsort String.ltb) "Department (A-Z)"
    (filter_selected ["IT"; "HR"] default_table) =
  filter_selected ["IT"; "HR"] <$>
    sort_by_choice (insertion_argsort PrimFloat.ltb)
      (insertion_argsort String.ltb) "Department (A-Z)" default_table.
Proof.
  apply (sort_filter_commute _ _ insertion_argsort_float_contract
           insertion_argsort_str_contract ["IT"; "HR"] "Department (A-Z)"
           default_table).
  vm_compute. reflexivity.
Defined.

Lemma df_sorted_rows_witness :
  ∃ out,
    df_sorted (insertion_argsort PrimFloat.ltb)
      (insertion_argsort String.ltb) ["IT"; "HR"] "Average (desc)"
      default_table = Some out ∧
    out ≡ₚ filter_selected ["IT"; "HR"] default_table ∧
    let fig := make_bar_fig (frame_of_table out) "Plotly" true
                 "Average Salary by Department" in
    zip (fig_y fig) (fig_x fig) =
      (λ r, (Department r, SFloat (Average_Salary r))) <$> out ∧
    length (fig_y fig) = length out ∧ length (fig_x fig) = length out.
Proof.
  apply (df_sorted_rows _ _ insertion_argsort_float_contract
           insertion_argsort_str_contract ["IT"; "HR"] "Average (desc)"
           default_table "Plotly" "Average Salary by Department" true).
Defined.

End SortingMore.

(** ** Summary statistics *)

Module SummaryFacts.
Import Float64 Float64Facts Sorting SortingFacts Summary.

Lemma lex_compare_refl a : lex_compare a a = Eq.
Proof.
  pose proof (lex_compare_antisym a a) as H.
  destruct (lex_compare a a); try reflexivity; discriminate.
Qed.

Lemma leb_refl x : is_nan x = false → (x <=? x)%float = true.
Proof. intros Hx. now rewrite leb_key, lex_compare_refl. Qed.

Lemma leb_total x y :
  is_nan x = false → is_nan y = false →
  (x <=? y)%float = false → (y <=? x)%float = true.
Proof.
  intros Hx Hy. rewrite !leb_key by assumption.
  rewrite (lex_compare_antisym (fkey x)). now destruct (lex_compare _ _).
Qed.

Lemma leb_antisym x y :
  is_nan x = false → is_nan y = false →
  (x <=? y)%float = true → (y <=? x)%float = true → (x =? y)%float = true.
Proof.
  intros Hx Hy. rewrite !leb_key, eqb_key by assumption.
  rewrite (lex_compare_antisym (fkey x)). now destruct (lex_compare _ _).
Qed.

Lemma leb_infinity x : (infinity <=? x)%float = true → x = infinity.
Proof.
  rewrite FloatAxioms.leb_spec. intros H.
  rewrite <- (SF2Prim_Prim2SF x).
  destruct (Prim2SF x) as [[]|[]| |[] m e]; try discriminate; reflexivity.
Qed.

Lemma leb_neg_infinity x : (x <=? neg_infinity)%float = true → x = neg_infinity.
Proof.
  rewrite FloatAxioms.leb_spec. intros H.
  rewrite <- (SF2Prim_Prim2SF x).
  destruct (Prim2SF x) as [[]|[]| |[] m e]; try discriminate; reflexivity.
Qed.

(** *** The scalar loops meet the contracts *)

Lemma foldl_minimum (xs : list float) :
  ∀ acc, is_nan acc = false → Forall (λ x, is_nan x = false) xs →
    let m := foldl npy_minimum acc xs in
    m ∈ acc :: xs ∧ is_nan m = false ∧
    Forall (λ x, (m <=? x)%float = true) (acc :: xs).
Proof.
  induction xs as [|x xs IH]; intros acc Ha Hxs; simpl.
  { split; [left|]. split; [exact Ha|]. repeat constructor. now apply leb_refl. }
  apply Forall_cons in Hxs as [Hx Hxs].
  assert (Hstep : is_nan (npy_minimum acc x) = false ∧
                  (npy_minimum acc x <=? acc)%float = true ∧
                  (npy_minimum acc x <=? x)%float = true ∧
                  (npy_minimum acc x = acc ∨ npy_minimum acc x = x)).
  { unfold npy_minimum. rewrite Ha, orb_false_r.
    destruct (acc <=? x)%float eqn:E.
    - repeat split; auto. now apply leb_refl.
    - repeat split; auto; [now apply leb_total|now apply leb_refl]. }
  destruct Hstep as (Hn & Hla & Hlx & Hor).
  destruct (IH (npy_minimum acc x) Hn Hxs) as (Hin & Hm & Hall).
  simpl in Hin, Hm, Hall.
  apply Forall_cons in Hall as [Hl Hall].
  split; [|split; [exact Hm|]].
  - apply elem_of_cons in Hin as [->|Hin].
    + destruct Hor as [->| ->]; [left|right; left].
    + right. now right.
  - constructor; [|constructor; [|exact Hall]].
    + eapply leb_trans; [| | |exact Hl|exact Hla]; assumption.
    + eapply leb_trans; [| | |exact Hl|exact Hlx]; assumption.
Qed.

Lemma foldl_maximum (xs : list float) :
  ∀ acc, is_nan acc = false → Forall (λ x, is_nan x = false) xs →
    let m := foldl npy_maximum acc xs in
    m ∈ acc :: xs ∧ is_nan m = false ∧
    Forall (λ x, (x <=? m)%float = true) (acc :: xs).
Proof.
  induction xs as [|x xs IH]; intros acc Ha Hxs; simpl.
  { split; [left|]. split; [exact Ha|]. repeat constructor. now apply leb_refl. }
  apply Forall_cons in Hxs as [Hx Hxs].
  assert (Hstep : is_nan (npy_maximum acc x) = false ∧
                  (acc <=? npy_maximum acc x)%float = true ∧
                  (x <=? npy_maximum acc x)%float = true ∧
                  (npy_maximum acc x = acc ∨ npy_maximum acc x = x)).
  { unfold npy_maximum. rewrite Ha, orb_false_r.
    destruct (x <=? acc)%float eqn:E.
    - repeat split; auto. now apply leb_refl.
    - repeat split; auto; [now apply leb_total|now apply leb_refl]. }
  destruct Hstep as (Hn & Hla & Hlx & Hor).
  destruct (IH (npy_maximum acc x) Hn Hxs) as (Hin & Hm & Hall).
  simpl in Hin, Hm, Hall.
  apply Forall_cons in Hall as [Hl Hall].
  split; [|split; [exact Hm|]].
  - apply elem_of_cons in Hin as [->|Hin].
    + destruct Hor as [->| ->]; [left|right; left].
    + right. now right.
  - constructor; [|constructor; [|exact Hall]].
    + eapply leb_trans; [| | |exact Hla|exact Hl]; assumption.
    + eapply leb_trans; [| | |exact Hlx|exact Hl]; assumption.
Qed.

Lemma reduce_minimum_contract : min_contract (reduce npy_minimum).
Proof.
  split.
  - intros [|v vs] Hne Hl; [congruence|].
    apply Forall_cons in Hl as [Hv Hvs].
    apply (foldl_minimum vs v Hv Hvs).
  - intros [|v vs] x Hl Hx; [inversion Hx|].
    apply Forall_cons in Hl as [Hv Hvs].
    destruct (foldl_minimum vs v Hv Hvs) as (_ & _ & Hall).
    rewrite Forall_forall in Hall. now apply Hall.
Qed.

Lemma reduce_maximum_contract : max_contract (reduce npy_maximum).
Proof.
  split.
  - intros [|v vs] Hne Hl; [congruence|].
    apply Forall_cons in Hl as [Hv Hvs].
    apply (foldl_maximum vs v Hv Hvs).
  - intros [|v vs] x Hl Hx; [inversion Hx|].
    apply Forall_cons in Hl as [Hv Hvs].
    destruct (foldl_maximum vs v Hv Hvs) as (_ & _ & Hall).
    rewrite Forall_forall in Hall. now apply Hall.
Qed.

(** *** The reductions of pandas *)

Lemma non_nulls_zero (values : list float) :
  length (is_nan <$> values) - mask_sum (is_nan <$> values) = 0 ↔
  Forall (λ x, is_nan x = true) values.
Proof.
  unfold mask_sum.
  assert (Hle : ∀ l : list float,
            length (filter (λ m, m = true) (is_nan <$> l)) ≤ length l).
  { intros l. etransitivity; [apply length_filter|]. now rewrite length_fmap. }
  induction values as [|v vs IH]; [split; [constructor|reflexivity]|].
  rewrite fmap_cons. specialize (Hle vs). rewrite length_fmap in IH.
  destruct (is_nan v) eqn:Hv.
  - rewrite filter_cons_True by reflexivity. simpl.
    rewrite length_fmap. rewrite Forall_cons. rewrite <- IH. intuition.
  - rewrite filter_cons_False by discriminate. simpl.
    rewrite length_fmap. split; [lia|].
    intros H. apply Forall_cons in H as [H _]. congruence.
Qed.

Section Reduced.
Variable np_min np_max : list float → float.
Hypothesis min_ok : min_contract np_min.
Hypothesis max_ok : max_contract np_max.

Lemma nanmin_missing (values : list float) :
  Forall (λ x, is_nan x = true) values → nanmin np_min values = nan.
Proof.
  intros H. destruct values as [|v vs]; [reflexivity|].
  unfold nanmin. cbv zeta.
  apply non_nulls_zero in H. now rewrite H.
Qed.

Lemma nanmax_missing (values : list float) :
  Forall (λ x, is_nan x = true) values → nanmax np_max values = nan.
Proof.
  intros H. destruct values as [|v vs]; [reflexivity|].
  unfold nanmax. cbv zeta.
  apply non_nulls_zero in H. now rewrite H.
Qed.

Lemma nanmin_present (values : list float) (p : float) :
  p ∈ values → is_nan p = false →
  nanmin np_min values ∈ values ∧
  is_nan (nanmin np_min values) = false ∧
  ∀ x, x ∈ values → is_nan x = false →
       (nanmin np_min values <=? x)%float = true.
Proof.
  intros Hp Hpn.
  set (fill := λ v : float, if is_nan v then infinity else v).
  assert (Hfilled : Forall (λ x, is_nan x = false) (fill <$> values)).
  { apply Forall_fmap, Forall_forall. intros v _. unfold fill. simpl.
    destruct (is_nan v) eqn:Hv; [reflexivity|exact Hv]. }
  assert (Hfix : ∀ x, x ∈ values → is_nan x = false → x ∈ fill <$> values).
  { intros x Hx Hxn. apply list_elem_of_fmap. exists x. split; [|exact Hx].
    unfold fill. now rewrite Hxn. }
  assert (Hres : nanmin np_min values = np_min (fill <$> values)).
  { destruct values as [|v vs]; [inversion Hp|].
    unfold nanmin. cbv zeta. fold fill.
    destruct (_ - _) as [|k] eqn:Hk; [|reflexivity].
    apply non_nulls_zero in Hk. rewrite Forall_forall in Hk.
    rewrite (Hk p Hp) in Hpn. discriminate. }
  rewrite Hres.
  assert (Hne : fill <$> values ≠ []).
  { destruct values; [inversion Hp|discriminate]. }
  pose proof (min_elem _ min_ok _ Hne Hfilled) as Hin.
  pose proof (min_lower _ min_ok _ _ Hfilled (Hfix p Hp Hpn)) as Hlp.
  split; [|split].
  - apply list_elem_of_fmap in Hin as (v & Hv & Hvin).
    subst fill. cbv beta in *.
    destruct (is_nan v); [|now rewrite Hv].
    rewrite Hv in Hlp. apply leb_infinity in Hlp. rewrite Hv, <- Hlp.
    exact Hp.
  - rewrite Forall_forall in Hfilled. now apply Hfilled.
  - intros x Hx Hxn. apply (min_lower _ min_ok); [exact Hfilled|].
    now apply Hfix.
Qed.

Lemma nanmax_present (values : list float) (p : float) :
  p ∈ values → is_nan p = false →
  nanmax np_max values ∈ values ∧
  is_nan (nanmax np_max values) = false ∧
  ∀ x, x ∈ values → is_nan x = false →
       (x <=? nanmax np_max values)%float = true.
Proof.
  intros Hp Hpn.
  set (fill := λ v : float, if is_nan v then neg_infinity else v).
  assert (Hfilled : Forall (λ x, is_nan x = false) (fill <$> values)).
  { apply Forall_fmap, Forall_forall. intros v _. unfold fill. simpl.
    destruct (is_nan v) eqn:Hv; [reflexivity|exact Hv]. }
  assert (Hfix : ∀ x, x ∈ values → is_nan x = false → x ∈ fill <$> values).
  { intros x Hx Hxn. apply list_elem_of_fmap. exists x. split; [|exact Hx].
    unfold fill. now rewrite Hxn. }
  assert (Hres : nanmax np_max values = np_max (fill <$> values)).
  { destruct values as [|v vs]; [inversion Hp|].
    unfold nanmax. cbv zeta. fold fill.
    destruct (_ - _) as [|k] eqn:Hk; [|reflexivity].
    apply non_nulls_zero in Hk. rewrite Forall_forall in Hk.
    rewrite (Hk p Hp) in Hpn. discriminate. }
  rewrite Hres.
  assert (Hne : fill <$> values ≠ []).
  { destruct values; [inversion Hp|discriminate]. }
  pose proof (max_elem _ max_ok _ Hne Hfilled) as Hin.
  pose proof (max_upper _ max_ok _ _ Hfilled (Hfix p Hp Hpn)) as Hlp.
  split; [|split].
  - apply list_elem_of_fmap in Hin as (v & Hv & Hvin).
    subst fill. cbv beta in *.
    destruct (is_nan v); [|now rewrite Hv].
    rewrite Hv in Hlp. apply leb_neg_infinity in Hlp. rewrite Hv, <- Hlp.
    exact Hp.
  - rewrite Forall_forall in Hfilled. now apply Hfilled.
  - intros x Hx Hxn. apply (max_upper _ max_ok); [exact Hfilled|].
    now apply Hfix.
Qed.

Lemma leb_not_nan x y :
  (x <=? y)%float = true → is_nan x = false ∧ is_nan y = false.
Proof.
  rewrite FloatAxioms.leb_spec. intros H.
  split; apply is_nan_false; intros E; rewrite E in H;
    [|destruct (Prim2SF x) as [[]|[]| |[] ? ?]]; discriminate.
Qed.

(** X16: "Min of mins" is missing exactly when every Min_Salary of the
    table shown is missing (an empty table included); otherwise it is the
    Min_Salary of one of the rows, and no present Min_Salary is below
    it. *)
Theorem min_of_mins_spec (df : Table) :
  (is_nan (min_of_mins np_min df) = true ↔
   Forall (λ r, is_nan (Min_Salary r) = true) df) ∧
  (is_nan (min_of_mins np_min df) = false →
   (∃ r, r ∈ df ∧ Min_Salary r = min_of_mins np_min df) ∧
   ∀ r, r ∈ df → is_nan (Min_Salary r) = false →
        (min_of_mins np_min df <=? Min_Salary r)%float = true).
Proof.
  unfold min_of_mins.
  destruct (decide (Forall (λ r, is_nan (Min_Salary r) = true) df))
    as [Hall|Hsome].
  - assert (E : nanmin np_min (Min_Salary <$> df) = nan).
    { apply nanmin_missing. now apply Forall_fmap. }
    rewrite E. split; [split; auto|]. discriminate.
  - apply not_Forall_Exists in Hsome; [|intros r; apply _].
    apply Exists_exists in Hsome as (p & Hp & Hpn).
    apply not_true_is_false in Hpn.
    destruct (nanmin_present (Min_Salary <$> df) (Min_Salary p))
      as (Hin & Hn & Hlow); [now apply list_elem_of_fmap_2|exact Hpn|].
    split.
    + rewrite Hn. split; [discriminate|].
      intros Hall. rewrite Forall_forall in Hall.
      rewrite (Hall p Hp) in Hpn. discriminate.
    + intros _. split.
      * apply list_elem_of_fmap in Hin as (r & Hr & Hrin). eauto.
      * intros r Hr Hrn. apply Hlow; [now apply list_elem_of_fmap_2|exact Hrn].
Qed.

(** X17: "Max of maxes" is missing exactly when every Max_Salary of the
    table shown is missing; otherwise it is the Max_Salary of one of the
    rows, and no present Max_Salary is above it. *)
Theorem max_of_maxes_spec (df : Table) :
  (is_nan (max_of_maxes np_max df) = true ↔
   Forall (λ r, is_nan (Max_Salary r) = true) df) ∧
  (is_nan (max_of_maxes np_max df) = false →
   (∃ r, r ∈ df ∧ Max_Salary r = max_of_maxes np_max df) ∧
   ∀ r, r ∈ df → is_nan (Max_Salary r) = false →
        (Max_Salary r <=? max_of_maxes np_max df)%float = true).
Proof.
  unfold max_of_maxes.
  destruct (decide (Forall (λ r, is_nan (Max_Salary r) = true) df))
    as [Hall|Hsome].
  - assert (E : nanmax np_max (Max_Salary <$> df) = nan).
    { apply nanmax_missing. now apply Forall_fmap. }
    rewrite E. split; [split; auto|]. discriminate.
  - apply not_Forall_Exists in Hsome; [|intros r; apply _].
    apply Exists_exists in Hsome as (p & Hp & Hpn).
    apply not_true_is_false in Hpn.
    destruct (nanmax_present (Max_Salary <$> df) (Max_Salary p))
      as (Hin & Hn & Hlow); [now apply list_elem_of_fmap_2|exact Hpn|].
    split.
    + rewrite Hn. split; [discriminate|].
      intros Hall. rewrite Forall_forall in Hall.
      rewrite (Hall p Hp) in Hpn. discriminate.
    + intros _. split.
      * apply list_elem_of_fmap in Hin as (r & Hr & Hrin). eauto.
      * intros r Hr Hrn. apply Hlow; [now apply list_elem_of_fmap_2|exact Hrn].
Qed.

(** X18: when some row has both values with Min_Salary at most
    Max_Salary, "Min of mins" is at most "Max of maxes", and neither is
    missing. *)
Theorem min_of_mins_le_max_of_maxes (df : Table) (r : SalaryRow) :
  r ∈ df → (Min_Salary r <=? Max_Salary r)%float = true →
  (min_of_mins np_min df <=? max_of_maxes np_max df)%float = true.
Proof.
  intros Hr Hle. destruct (leb_not_nan _ _ Hle) as [Hi Hx].
  unfold min_of_mins, max_of_maxes.
  destruct (nanmin_present (Min_Salary <$> df) (Min_Salary r))
    as (_ & Hn1 & Hlow); [now apply list_elem_of_fmap_2|exact Hi|].
  destruct (nanmax_present (Max_Salary <$> df) (Max_Salary r))
    as (_ & Hn2 & Hup); [now apply list_elem_of_fmap_2|exact Hx|].
  apply (leb_trans _ (Min_Salary r)); try assumption.
  { apply Hlow; [now apply list_elem_of_fmap_2|exact Hi]. }
  apply (leb_trans _ (Max_Salary r)); try assumption.
  apply Hup; [now apply list_elem_of_fmap_2|exact Hx].
Qed.

Lemma nanmin_Permutation (l1 l2 : list float) :
  l1 ≡ₚ l2 → same_value (nanmin np_min l1) (nanmin np_min l2) = true.
Proof.
  intros HP. unfold same_value.
  destruct (decide (Forall (λ x, is_nan x = true) l1)) as [Hall|Hsome].
  - rewrite (nanmin_missing l1 Hall).
    rewrite HP in Hall. now rewrite (nanmin_missing l2 Hall).
  - apply not_Forall_Exists in Hsome; [|intros r; apply _].
    apply Exists_exists in Hsome as (p & Hp & Hpn).
    apply not_true_is_false in Hpn.
    destruct (nanmin_present l1 p Hp Hpn) as (I1 & N1 & L1).
    rewrite HP in Hp.
    destruct (nanmin_present l2 p Hp Hpn) as (I2 & N2 & L2).
    rewrite leb_antisym, orb_true_r; try assumption; [reflexivity| |].
    + apply L1; [now rewrite HP|exact N2].
    + apply L2; [now rewrite <- HP|exact N1].
Qed.

Lemma nanmax_Permutation (l1 l2 : list float) :
  l1 ≡ₚ l2 → same_value (nanmax np_max l1) (nanmax np_max l2) = true.
Proof.
  intros HP. unfold same_value.
  destruct (decide (Forall (λ x, is_nan x = true) l1)) as [Hall|Hsome].
  - rewrite (nanmax_missing l1 Hall).
    rewrite HP in Hall. now rewrite (nanmax_missing l2 Hall).
  - apply not_Forall_Exists in Hsome; [|intros r; apply _].
    apply Exists_exists in Hsome as (p & Hp & Hpn).
    apply not_true_is_false in Hpn.
    destruct (nanmax_present l1 p Hp Hpn) as (I1 & N1 & L1).
    rewrite HP in Hp.
    destruct (nanmax_present l2 p Hp Hpn) as (I2 & N2 & L2).
    rewrite leb_antisym, orb_true_r; try assumption; [reflexivity| |].
    + apply L2; [now rewrite <- HP|exact N1].
    + apply L1; [now rewrite HP|exact N2].
Qed.

Section Sorted.
Variable argsort_float : list float → list nat.
Variable argsort_str : list string → list nat.
Hypothesis float_contract :
  argsort_contract PrimFloat.ltb (λ x, is_nan x = false) argsort_float.
Hypothesis str_contract :
  argsort_contract String.ltb (λ _, True) argsort_str.

(** X19: the summary does not depend on the sort order: whatever the two
    sort choices, the tables shown have the same number of departments,
    the same "Min of mins" and the same "Max of maxes" (both missing, or
    equal as numbers). *)
Theorem summary_independent_of_sort (selected : list string)
    (choice1 choice2 : string) (df : Table) :
  ∃ out1 out2,
    df_sorted argsort_float argsort_str selected choice1 df = Some out1 ∧
    df_sorted argsort_float argsort_str selected choice2 df = Some out2 ∧
    departments_shown out1 = departments_shown out2 ∧
    same_value (min_of_mins np_min out1) (min_of_mins np_min out2) = true ∧
    same_value (max_of_maxes np_max out1) (max_of_maxes np_max out2) = true.
Proof.
  unfold df_sorted.
  destruct (sort_by_choice_spec _ _ float_contract str_contract choice1
              (filter_selected selected df)) as (P1 & H1 & _).
  destruct (sort_by_choice_spec _ _ float_contract str_contract choice2
              (filter_selected selected df)) as (P2 & H2 & _).
  pose proof (sort_by_choice_Permutation _ _ float_contract str_contract
                _ _ _ H1) as Q1.
  pose proof (sort_by_choice_Permutation _ _ float_contract str_contract
                _ _ _ H2) as Q2.
  eexists _, _. split; [exact H1|]. split; [exact H2|].
  assert (HP : P1 ++ filter (λ r, key_missing choice1 r = true)
                       (filter_selected selected df) ≡ₚ
               P2 ++ filter (λ r, key_missing choice2 r = true)
                       (filter_selected selected df)).
  { now rewrite Q1, Q2. }
  split; [|split].
  - unfold departments_shown. now rewrite HP.
  - apply nanmin_Permutation. now apply fmap_Permutation.
  - apply nanmax_Permutation. now apply fmap_Permutation.
Qed.

End Sorted.

End Reduced.

Lemma min_of_mins_spec_witness :
  (is_nan (min_of_mins (reduce npy_minimum) default_table) = true ↔
   Forall (λ r, is_nan (Min_Salary r) = true) default_table) ∧
  (is_nan (min_of_mins (reduce npy_minimum) default_table) = false →
   (∃ r, r ∈ default_table ∧
         Min_Salary r = min_of_mins (reduce npy_minimum) default_table) ∧
   ∀ r, r ∈ default_table → is_nan (Min_Salary r) = false →
        (min_of_mins (reduce npy_minimum) default_table <=? Min_Salary r)%float
        = true).
Proof.
  apply (min_of_mins_spec _ reduce_minimum_contract default_table).
Defined.

Lemma max_of_maxes_spec_witness :
  (is_nan (max_of_maxes (reduce npy_maximum) default_table) = true ↔
   Forall (λ r, is_nan (Max_Salary r) = true) default_table) ∧
  (is_nan (max_of_maxes (reduce npy_maximum) default_table) = false →
   (∃ r, r ∈ default_table ∧
         Max_Salary r = max_of_maxes (reduce npy_maximum) default_table) ∧
   ∀ r, r ∈ default_table → is_nan (Max_Salary r) = false →
        (Max_Salary r <=? max_of_maxes (reduce npy_maximum) default_table)%float
        = true).
Proof.
  apply (max_of_maxes_spec _ reduce_maximum_contract default_table).
Defined.

Lemma min_of_mins_le_max_of_maxes_witness :
  mkRow "HR" 26539.921733 8823.46 58951.29 ∈ default_table ∧
  (8823.46 <=? 58951.29)%float = true ∧
  (min_of_mins (reduce npy_minimum) default_table <=?
   max_of_maxes (reduce npy_maximum) default_table)%float = true.
Proof.
  assert (Hr : mkRow "HR" 26539.921733 8823.46 58951.29 ∈ default_table).
  { do 6 right. left. }
  split; [exact Hr|]. split; [reflexivity|].
  apply (min_of_mins_le_max_of_maxes _ _ reduce_minimum_contract
           reduce_maximum_contract default_table _ Hr).
  reflexivity.
Defined.

Lemma summary_independent_of_sort_witness :
  ∃ out1 out2,
    df_sorted (insertion_argsort PrimFloat.ltb)
      (insertion_argsort String.ltb) [] "Average (desc)" default_table =
      Some out1 ∧
    df_sorted (insertion_argsort PrimFloat.ltb)
      (insertion_argsort String.ltb) [] "Department (A-Z)" default_table =
      Some out2 ∧
    departments_shown out1 = departments_shown out2 ∧
    same_value (min_of_mins (reduce npy_minimum) out1)
      (min_of_mins (reduce npy_minimum) out2) = true ∧
    same_value (max_of_maxes (reduce npy_maximum) out1)
      (max_of_maxes (reduce npy_maximum) out2) = true.
Proof.
  apply (summary_independent_of_sort _ _ reduce_minimum_contract
           reduce_maximum_contract _ _ insertion_argsort_float_contract
           insertion_argsort_str_contract [] "Average (desc)"
           "Department (A-Z)" default_table).
Defined.

End SummaryFacts.
